(** * Yoto playlist creator: the remote-publish pipeline

    A shallow embedding of the server's Yoto routes (credential store,
    device-code login, transcode upload client, publish orchestrator with
    its server-sent-event channel) and of the browser's login poll loop,
    followed by the properties the design document states about them. *)

From Stdlib Require Import Ascii String QArith DecimalString DecimalNat.
From stdpp Require Import gmap strings list fin_maps sorting.

Local Open Scope string_scope.

(** ** JavaScript values used by the routes *)

(** Truthiness of a string: only the empty string is falsy. *)
Definition truthy (s : string) : bool :=
  match s with EmptyString => false | String _ _ => true end.

(** Truthiness of a possibly missing ([undefined] / [null]) string. *)
Definition truthy_opt (o : option string) : bool :=
  match o with Some s => truthy s | None => false end.

(** [a || b] on optional strings. *)
Definition or_else (a b : option string) : option string :=
  if truthy_opt a then a else b.

(** [String(n)] for a non-negative integer. *)
Definition String_of_nat (n : nat) : string :=
  NilZero.string_of_uint (Nat.to_uint n).

(** [s.padStart(n, '0')]. *)
Fixpoint zeros (n : nat) : string :=
  match n with O => "" | S n' => String "0"%char (zeros n') end.

Definition padStart0 (n : nat) (s : string) : string :=
  zeros (n - String.length s) +:+ s.

(** ** SQL [LIKE]

    SQLite's [LIKE]: [%] matches any run of characters, [_] matches one
    character, anything else matches itself, ignoring the case of ASCII
    letters. *)

Definition ascii_lower (c : ascii) : ascii :=
  let n := nat_of_ascii c in
  if (65 <=? n)%nat && (n <=? 90)%nat then ascii_of_nat (n + 32) else c.

Fixpoint like (pat s : string) : bool :=
  match pat with
  | EmptyString => match s with EmptyString => true | _ => false end
  | String "%"%char pat' =>
      (fix rest (s : string) : bool :=
         like pat' s ||
         match s with EmptyString => false | String _ s' => rest s' end) s
  | String "_"%char pat' =>
      match s with EmptyString => false | String _ s' => like pat' s' end
  | String c pat' =>
      match s with
      | EmptyString => false
      | String d s' => Ascii.eqb (ascii_lower c) (ascii_lower d) && like pat' s'
      end
  end.

(** ** Credential store

    The [settings] table ([key TEXT PRIMARY KEY, value TEXT]) and the
    module-level cached client. *)

Module Credentials.

Record credentials := {
  accessToken : string;
  refreshToken : string;
  userId : option string
}.

Record client := {
  clientAccessToken : string;
  clientRefreshToken : string
}.

Record store := {
  settings : gmap string string;
  yotoClient : option client
}.

Definition yoto_access_token : string := "yoto_access_token".
Definition yoto_refresh_token : string := "yoto_refresh_token".
Definition yoto_user_id : string := "yoto_user_id".

(** [INSERT ... ON CONFLICT(key) DO UPDATE SET value = excluded.value]. *)
Definition upsert (k v : string) (t : gmap string string) : gmap string string :=
  <[k := v]> t.

(** [getStoredCredentials]: a row that is missing or whose value is falsy
    for either token gives [null]. *)
Definition getStoredCredentials (st : store) : option credentials :=
  let accessToken := settings st !! yoto_access_token in
  let refreshToken := settings st !! yoto_refresh_token in
  let userId := settings st !! yoto_user_id in
  if negb (truthy_opt accessToken) || negb (truthy_opt refreshToken) then None
  else
    match accessToken, refreshToken with
    | Some a, Some r =>
        Some {| accessToken := a; refreshToken := r; userId := userId |}
    | _, _ => None
    end.

(** [saveCredentials]: two unconditional upserts, a third when [userId] is
    truthy, then the cached client is dropped. *)
Definition saveCredentials (c : credentials) (st : store) : store :=
  let t1 := upsert yoto_access_token (accessToken c) (settings st) in
  let t2 := upsert yoto_refresh_token (refreshToken c) t1 in
  let t3 := if truthy_opt (userId c)
            then match userId c with Some u => upsert yoto_user_id u t2 | None => t2 end
            else t2 in
  {| settings := t3; yotoClient := None |}.

(** [clearCredentials]: [DELETE FROM settings WHERE key LIKE 'yoto_%']. *)
Definition clearCredentials (st : store) : store :=
  {| settings := filter (λ kv, like "yoto_%" kv.1 = false) (settings st);
     yotoClient := None |}.

(** [getYotoClient]: the cached client, or one built from the stored
    credentials; [construct] is the library constructor, [None] when it
    throws. *)
Definition getYotoClient (construct : credentials → option client) (st : store)
  : option client * store :=
  match yotoClient st with
  | Some c => (Some c, st)
  | None =>
      match getStoredCredentials st with
      | None => (None, st)
      | Some creds =>
          match construct creds with
          | Some c => (Some c, {| settings := settings st; yotoClient := Some c |})
          | None => (None, st)
          end
      end
  end.

(** The [onTokenRefresh] callback given to the client built from [creds]:
    [refreshToken: tokens.refresh_token || creds.refreshToken]. *)
Definition onTokenRefresh (creds : credentials) (access_token : string)
    (refresh_token : option string) (st : store) : store :=
  saveCredentials
    {| accessToken := access_token;
       refreshToken := match refresh_token with
                       | Some r => if truthy r then r else refreshToken creds
                       | None => refreshToken creds
                       end;
       userId := userId creds |} st.

(** The states of the store: the empty table created at start-up, then any
    number of saves and clears. *)
Inductive reachable : store → Prop :=
  | reach_init : reachable {| settings := ∅; yotoClient := None |}
  | reach_save c st : reachable st → reachable (saveCredentials c st)
  | reach_clear st : reachable st → reachable (clearCredentials st)
  | reach_client construct st :
      reachable st → reachable (getYotoClient construct st).2.

Definition has_access (st : store) : Prop := is_Some (settings st !! yoto_access_token).
Definition has_refresh (st : store) : Prop := is_Some (settings st !! yoto_refresh_token).

End Credentials.

(** ** Effects

    A route performs channel writes, network requests and timer waits in
    program order, and either returns or throws an [Error] with a message.
    A computation is the list of effects it performed together with its
    result; the answers of the outside world are taken from a script, one
    entry per call site. *)

Inductive outcome (A : Type) : Type :=
  | Returned (a : A)
  | Thrown (message : string).
Arguments Returned {A} a.
Arguments Thrown {A} message.

Section Prog.
Context {E : Type}.

Definition prog (A : Type) : Type := list E * outcome A.

Definition perform (e : E) : prog unit := ([e], Returned tt).
Definition throw {A} (message : string) : prog A := ([], Thrown message).
Definition lift {A} (o : outcome A) : prog A := ([], o).

#[export] Instance prog_ret : MRet prog := λ A a, ([], Returned a).
#[export] Instance prog_bind : MBind prog := λ A B k m,
  match m.2 with
  | Returned a => ((m.1 ++ (k a).1)%list, (k a).2)
  | Thrown e => (m.1, Thrown e)
  end.

(** [try { body } catch (err) { handler(err.message) }]. *)
Definition try_catch {A} (body : prog A) (handler : string → prog A) : prog A :=
  match body.2 with
  | Returned a => body
  | Thrown e => ((body.1 ++ (handler e).1)%list, (handler e).2)
  end.

Definition effects {A} (m : prog A) : list E := m.1.
Definition result {A} (m : prog A) : outcome A := m.2.
End Prog.
Arguments prog E A : clear implicits.

(** ** HTTP *)

Record response (J : Type) := {
  ok : bool;
  status : nat;
  text : string;              (* [await response.text()] *)
  json : outcome J            (* [await response.json()]; throws on a body that does not parse *)
}.
Arguments ok {J} r.
Arguments status {J} r.
Arguments text {J} r.
Arguments json {J} r.

(** What [await fetch(...)] gives: a rejected promise (transport failure) or
    a response. *)
Inductive fetch_result (J : Type) : Type :=
  | Rejected (message : string)
  | Delivered (r : response J).
Arguments Rejected {J} message.
Arguments Delivered {J} r.

(** ** Transcode upload client *)

Module Upload.

(** Body of the upload-slot answer; [upload_uploadUrl] and [upload_uploadId]
    are [data.upload?.uploadUrl] and [data.upload?.uploadId]. *)
Record uploadUrlData := {
  upload_uploadUrl : option string;
  upload_uploadId : option string;
  uploadUrlData_stringify : string
}.

Record progress := {
  phase : option string;
  percent : option nat
}.

Record transcodeInfo := {
  ti_progress : option progress;
  transcodedAt : option string;
  transcodedSha256 : option string;
  ti_key : option string;
  ti_stringify : string
}.

(** Body of a status answer: the optional [transcode] and [transcoded]
    members, and the object itself read as a [transcodeInfo]. *)
Record statusData := {
  sd_transcode : option transcodeInfo;
  sd_transcoded : option transcodeInfo;
  sd_self : transcodeInfo
}.

Inductive request :=
  | GetUploadUrl (filePath token : string)   (* GET /media/transcode/audio/uploadUrl?sha256=..&filename=.. *)
  | PutFile (uploadUrl filePath : string)    (* PUT uploadUrl, body = the file's bytes *)
  | GetTranscoded (uploadId token : string). (* GET /media/upload/<uploadId>/transcoded *)

Inductive action :=
  | Log (message : string)
  | Fetch (r : request)
  | Sleep (ms : nat).

(** The outside world as one file's pipeline meets it. *)
Record script := {
  readFileSync_result : outcome unit;
  uploadUrl_result : fetch_result uploadUrlData;
  s3_result : fetch_result unit;
  transcoded_result : nat → fetch_result statusData   (* by attempt, from 0 *)
}.

Definition log (message : string) : prog action unit := perform (Log message).

Definition fetch {J} (r : request) (answer : fetch_result J) : prog action (response J) :=
  match answer with
  | Rejected e => ([Fetch r], Thrown e)
  | Delivered resp => ([Fetch r], Returned resp)
  end.

Definition show_opt (o : option string) : string :=
  match o with Some s => s | None => "undefined" end.

(** [transcodeInfo.progress?.phase === 'complete' || transcodeInfo.transcodedAt] *)
Definition isComplete (info : transcodeInfo) : bool :=
  match ti_progress info with
  | Some p => match phase p with
              | Some ph => String.eqb ph "complete"
              | None => false
              end
  | None => false
  end || truthy_opt (transcodedAt info).

(** [if (transcodeInfo.progress) log(`Transcode progress: ...`)] *)
Definition logProgress (info : transcodeInfo) : prog action unit :=
  match ti_progress info with
  | Some p =>
      log ("Transcode progress: " +:+ show_opt (phase p) +:+ " " +:+
           String_of_nat (default 0 (percent p)) +:+ "%")
  | None => mret tt
  end.

(** [statusData.transcode || statusData.transcoded || statusData] *)
Definition pickInfo (sd : statusData) : transcodeInfo :=
  match sd_transcode sd, sd_transcoded sd with
  | Some i, _ => i
  | None, Some i => i
  | None, None => sd_self sd
  end.

(** The key that [if (isComplete && key)] lets through, if any, with
    [key = transcodeInfo.transcodedSha256 || transcodeInfo.key]. *)
Definition completedKey (info : transcodeInfo) : option string :=
  let key := or_else (transcodedSha256 info) (ti_key info) in
  if isComplete info && truthy_opt key then key else None.

(** One round of the status loop; [Some key] stands for
    [transcoded = { key }; break]. *)
Definition statusRound (uploadId token : string) (answer : fetch_result statusData)
  : prog action (option string) :=
  perform (Sleep 2000);;
  statusResponse ← fetch (GetTranscoded uploadId token) answer;
  if ok statusResponse then
    statusData ← lift (json statusResponse);
    let transcodeInfo := pickInfo statusData in
    log ("Status: " +:+ ti_stringify transcodeInfo);;
    match completedKey transcodeInfo with
    | Some k => log "Transcoding complete!";; mret (Some k)
    | None => logProgress transcodeInfo;; mret None
    end
  else
    log ("Status check failed: " +:+ String_of_nat (status statusResponse));; mret None.

(** [for (let attempt = 0; attempt < 30; attempt++)], entered with
    [remaining = 30 - attempt]. *)
Fixpoint statusLoop (uploadId token : string) (answers : nat → fetch_result statusData)
    (remaining attempt : nat) : prog action (option string) :=
  match remaining with
  | O => mret None
  | S remaining' =>
      found ← statusRound uploadId token (answers attempt);
      match found with
      | Some k => mret (Some k)
      | None =>
          log ("Transcoding... (" +:+ String_of_nat (attempt + 1) +:+ "/30)");;
          statusLoop uploadId token answers remaining' (attempt + 1)
      end
  end.

(** Step 1 of [uploadAudioToYoto]: ask for an upload slot. Gives
    [uploadUrl] and the (truthy) [uploadId]. *)
Definition getUploadUrl (filePath token : string) (w : script)
  : prog action (option string * string) :=
  log "Getting upload URL...";;
  uploadUrlResponse ← fetch (GetUploadUrl filePath token) (uploadUrl_result w);
  (if negb (ok uploadUrlResponse) then
     throw ("Failed to get upload URL: " +:+ String_of_nat (status uploadUrlResponse) +:+
            " - " +:+ text uploadUrlResponse)
   else mret tt);;
  uploadUrlData ← lift (json uploadUrlResponse);
  let uploadUrl := upload_uploadUrl uploadUrlData in
  let uploadId := upload_uploadId uploadUrlData in
  match uploadId with
  | Some id =>
      if truthy id then mret (uploadUrl, id)
      else throw ("No uploadId in response: " +:+ uploadUrlData_stringify uploadUrlData)
  | None => throw ("No uploadId in response: " +:+ uploadUrlData_stringify uploadUrlData)
  end.

(** Step 2: send the bytes, unless [uploadUrl] is falsy. *)
Definition uploadToS3 (uploadUrl : option string) (filePath : string) (w : script)
  : prog action unit :=
  match (if truthy_opt uploadUrl then uploadUrl else None) with
  | Some url =>
      log "Uploading to S3...";;
      s3Response ← fetch (PutFile url filePath) (s3_result w);
      if negb (ok s3Response) then
        throw ("Failed to upload to S3: " +:+ String_of_nat (status s3Response))
      else mret tt
  | None => log "File already uploaded, checking transcoding..."
  end.

(** Step 3: poll for the transcoded asset. *)
Definition pollTranscoding (uploadId token : string)
    (answers : nat → fetch_result statusData) : prog action string :=
  log "Waiting for transcoding...";;
  transcoded ← statusLoop uploadId token answers 30 0;
  match transcoded with
  | Some k => if truthy k then mret k else throw "Transcoding timed out or failed"
  | None => throw "Transcoding timed out or failed"
  end.

Definition uploadAudioToYoto (filePath token : string) (w : script) : prog action string :=
  lift (readFileSync_result w);;
  slot ← getUploadUrl filePath token w;
  uploadToS3 slot.1 filePath w;;
  pollTranscoding slot.2 token (transcoded_result w).

(** *** Reading a pipeline's effects *)


Definition is_log (a : action) : bool :=
  match a with Log _ => true | _ => false end.

(** The timer waits and network requests of a run, without its log lines. *)
Definition timeline (t : list action) : list action :=
  List.filter (λ a, negb (is_log a)) t.

(** [n] rounds of the status loop as the network sees them: a 2-second
    wait before each status request. *)
Definition round (uploadId token : string) : list action :=
  [Sleep 2000; Fetch (GetTranscoded uploadId token)].

Definition rounds (n : nat) (uploadId token : string) : list action :=
  mjoin (replicate n (round uploadId token)).

(** Whether a status answer makes the loop [break]: an [ok] response whose
    body parses, is complete and carries a key. *)
Definition reportsKey (answer : fetch_result statusData) : bool :=
  match answer with
  | Delivered r =>
      ok r &&
      match json r with
      | Returned sd =>
          match completedKey (pickInfo sd) with Some _ => true | None => false end
      | Thrown _ => false
      end
  | Rejected _ => false
  end.

(** Whether a status poll is answered with a status the loop can read: a
    response that is not [ok], or an [ok] one whose body parses. *)
Definition answered (answer : fetch_result statusData) : bool :=
  match answer with
  | Delivered r =>
      negb (ok r) || match json r with Returned _ => true | Thrown _ => false end
  | Rejected _ => false
  end.

(** The key a status answer hands to the loop, and the error a status
    poll raises: a rejected request, or an [ok] response whose body does
    not parse. *)
Definition reportedKey (answer : fetch_result statusData) : option string :=
  match answer with
  | Delivered r =>
      if ok r then
        match json r with
        | Returned sd => completedKey (pickInfo sd)
        | Thrown _ => None
        end
      else None
  | Rejected _ => None
  end.

Definition pollError (answer : fetch_result statusData) : option string :=
  match answer with
  | Delivered r =>
      if ok r then
        match json r with
        | Returned _ => None
        | Thrown e => Some e
        end
      else None
  | Rejected e => Some e
  end.


End Upload.

(** ** Publish orchestrator and its progress channel *)

Module Publish.
Import Credentials.

Record song := {
  title : string;
  file_path : option string;
  duration : option nat
}.

Record playlist := {
  name : string;
  yoto_card_id : option string
}.

Record database := {
  cred_store : Credentials.store;
  playlists : gmap string playlist;
  playlist_songs : gmap string (list song)   (* the songs of a playlist, [ORDER BY ps.position] *)
}.

Record track := {
  t_title : string;
  trackNumber : nat;
  key : string;
  t_duration : option nat;
  format : string
}.

Record track_error := {
  e_title : string;
  e_error : string
}.

Record chapter_track := {
  ct_key : string;
  ct_title : string;
  ct_format : string;
  trackUrl : string;
  ct_type : string;
  ct_duration : nat
}.

Record chapter := {
  ch_key : string;
  ch_title : string;
  ch_tracks : list chapter_track
}.

Record content := {
  c_title : string;
  activity : string;
  chapters : list chapter;
  onlineOnly : bool;
  version : string;
  cover_imageL : string;
  c_userId : option string;
  cardId : option string
}.

Record cardData := {
  card_cardId : option string;     (* [cardData.card?.cardId] *)
  cardData_stringify : string
}.

(** The objects handed to [sendEvent], by their [type]. *)
Inductive event :=
  | ev_upload_start (current total : nat) (title : string)
  | ev_log (message : string)
  | ev_upload_complete (current total : nat) (title : string)
  | ev_upload_error (current total : nat) (title error : string)
  | ev_error (error : string) (errors : option (list track_error))
             (missing : option (list string))
  | ev_done (card : cardData) (uploadedTracks : nat) (errors : option (list track_error)).

Inductive request :=
  | UploadRequest (r : Upload.request)
  | PostContent (token : string) (body : content).   (* POST /content *)

Inductive effect :=
  | Write (e : event)                    (* [res.write] of one event *)
  | End                                  (* [res.end()] *)
  | Net (r : request)
  | Wait (ms : nat)
  | UpdateCardId (newCardId playlistId : string).   (* [UPDATE playlists SET yoto_card_id = ?] *)

Record world := {
  existsSync : string → bool;
  upload_script : nat → Upload.script;         (* by index in the playlist, from 0 *)
  content_result : fetch_result cardData
}.

Definition sendEvent (data : event) : prog effect unit := perform (Write data).

(** The upload client run with [(msg) => sendEvent({ type: 'log', message: msg })]
    as its log sink. *)
Definition as_effect (a : Upload.action) : effect :=
  match a with
  | Upload.Log msg => Write (ev_log msg)
  | Upload.Fetch r => Net (UploadRequest r)
  | Upload.Sleep ms => Wait ms
  end.

Definition withSink {A} (m : prog Upload.action A) : prog effect A :=
  (as_effect <$> m.1, m.2).

Definition fetchContent (token : string) (body : content) (answer : fetch_result cardData)
  : prog effect (response cardData) :=
  match answer with
  | Rejected e => ([Net (PostContent token body)], Thrown e)
  | Delivered resp => ([Net (PostContent token body)], Returned resp)
  end.

Definition notDownloaded (w : world) (songs : list song) : list song :=
  filter (λ s, match file_path s with
               | Some p => negb (truthy p) || negb (existsSync w p)
               | None => true
               end = true) songs.

(** [tracks.map((t, i) => ({ key: String(i).padStart(2, '0'), ... }))] *)
Definition toChapter (i : nat) (t : track) : chapter :=
  {| ch_key := padStart0 2 (String_of_nat i);
     ch_title := t_title t;
     ch_tracks := [ {| ct_key := "01";
                       ct_title := t_title t;
                       ct_format := "aac";
                       trackUrl := "yoto:#" +:+ key t;
                       ct_type := "audio";
                       ct_duration := default 0 (t_duration t) |} ] |}.

Definition buildContent (pl : playlist) (creds : credentials) (tracks : list track) : content :=
  {| c_title := name pl;
     activity := "yoto_Player";
     chapters := imap toChapter tracks;
     onlineOnly := false;
     version := "1";
     cover_imageL := "https://cdn.yoto.io/myo-cover/star_grapefruit.gif";
     c_userId := userId creds;
     cardId := if truthy_opt (yoto_card_id pl) then yoto_card_id pl else None |}.

(** [uploadAudioToYoto(song.file_path, creds.accessToken, ...)] for the song
    at index [i]; a [null] path makes [fs.readFileSync] throw. *)
Definition uploadSong (creds : credentials) (w : world) (i : nat) (s : song)
  : prog Upload.action string :=
  match file_path s with
  | Some p => Upload.uploadAudioToYoto p (accessToken creds) (upload_script w i)
  | None => throw "The path argument must be of type string"
  end.

Section Stream.
(** [JSON.stringify] of the manifest, used for a log line only. *)
Variable JSON_stringify : content → string.

(** The [for] loop over [songs], entered at index [i] with the songs from
    [i] on. *)
Fixpoint uploadLoop (creds : credentials) (w : world) (total : nat)
    (rest : list song) (i : nat) (tracks : list track) (errors : list track_error)
  : prog effect (list track * list track_error) :=
  match rest with
  | [] => mret (tracks, errors)
  | song :: rest' =>
      sendEvent (ev_upload_start (i + 1) total (title song));;
      acc ← try_catch
        (result ← withSink (uploadSong creds w i song);
         let tracks' := (tracks ++ [ {| t_title := title song;
                                        trackNumber := i + 1;
                                        key := result;
                                        t_duration := duration song;
                                        format := "mp3" |} ])%list in
         sendEvent (ev_upload_complete (i + 1) total (title song));;
         mret (tracks', errors))
        (λ message,
         let errors' := (errors ++ [ {| e_title := title song; e_error := message |} ])%list in
         sendEvent (ev_upload_error (i + 1) total (title song) message);;
         mret (tracks, errors'));
      uploadLoop creds w total rest' (i + 1) acc.1 acc.2
  end.

(** The route after the loop: the all-failed exit, then the manifest, its
    submission and the [done] event. *)
Definition finish (playlistId : string) (pl : playlist) (creds : credentials) (w : world)
    (tracks : list track) (errors : list track_error) : prog effect unit :=
  if (length tracks =? 0)%nat then
    sendEvent (ev_error "All uploads failed" (Some errors) None);;
    perform End
  else
    let isUpdate := truthy_opt (yoto_card_id pl) in
    sendEvent (ev_log (if isUpdate then "Updating Yoto card..."
                       else "Creating Yoto card..."));;
    let body := buildContent pl creds tracks in
    sendEvent (ev_log ("Sending: " +:+
                       String.substring 0 300 (JSON_stringify body) +:+ "..."));;
    persistResponse ← fetchContent (accessToken creds) body (content_result w);
    if negb (ok persistResponse) then
      sendEvent (ev_log ("Error response: " +:+ text persistResponse));;
      sendEvent (ev_error ("Failed to create card: " +:+
                           String_of_nat (status persistResponse) +:+ " - " +:+
                           text persistResponse) None None);;
      perform End
    else
      card ← lift (json persistResponse);
      match card_cardId card with
      | Some newCardId =>
          if truthy newCardId && bool_decide (Some newCardId ≠ yoto_card_id pl) then
            perform (UpdateCardId newCardId playlistId);;
            sendEvent (ev_log ("Saved card ID: " +:+ newCardId))
          else mret tt
      | None => mret tt
      end;;
      sendEvent (ev_done card (length tracks)
                   (if (0 <? length errors)%nat then Some errors else None));;
      perform End.

(** [catch (error) { sendEvent({ type: 'error', error: error.message }); res.end(); }] *)
Definition catchAll (message : string) : prog effect unit :=
  sendEvent (ev_error message None None);;
  perform End.

(** [router.get('/upload-playlist/:playlistId/stream')] *)
Definition uploadPlaylistStream (playlistId : string) (db : database) (w : world)
  : prog effect unit :=
  match getStoredCredentials (cred_store db) with
  | None =>
      sendEvent (ev_error "Yoto not connected. Please login first." None None);;
      perform End
  | Some creds =>
      match playlists db !! playlistId with
      | None =>
          sendEvent (ev_error "Playlist not found" None None);;
          perform End
      | Some pl =>
          let songs := default [] (playlist_songs db !! playlistId) in
          let missing := notDownloaded w songs in
          if (0 <? length missing)%nat then
            sendEvent (ev_error "Some songs not downloaded" None (Some (title <$> missing)));;
            perform End
          else
            try_catch
              (acc ← uploadLoop creds w (length songs) songs 0 [] [];
               finish playlistId pl creds w acc.1 acc.2)
              catchAll
      end
  end.
End Stream.

(** [router.delete('/auth')] *)
Definition logout (db : database) : database :=
  {| cred_store := clearCredentials (cred_store db);
     playlists := playlists db;
     playlist_songs := playlist_songs db |}.

(** *** Reading a run *)

(** The per-file events and the terminal ones. *)
Definition per_file (ev : event) : bool :=
  match ev with
  | ev_upload_start _ _ _ | ev_log _ | ev_upload_complete _ _ _
  | ev_upload_error _ _ _ _ => true
  | ev_error _ _ _ | ev_done _ _ _ => false
  end.

Definition terminal (ev : event) : bool := negb (per_file ev).

(** An effect that leaves the channel open: anything but [res.end()] and
    the write of a terminal event. *)
Definition keeps_open (e : effect) : bool :=
  match e with
  | Write ev => per_file ev
  | End => false
  | _ => true
  end.

(** An effect of the upload loop: one that keeps the channel open and is
    neither the manifest submission nor a database update. *)
Definition in_loop (e : effect) : bool :=
  match e with
  | Write ev => per_file ev
  | End => false
  | Net (PostContent _ _) => false
  | Net (UploadRequest _) => true
  | Wait _ => true
  | UpdateCardId _ _ => false
  end.

(** A well-formed run, read from its first effect on: effects that keep
    the channel open, then the write of one terminal event, then
    [res.end()], then nothing. *)
Fixpoint ends_properly (t : list effect) : bool :=
  match t with
  | [] => false
  | Write ev :: t' =>
      if per_file ev then ends_properly t'
      else match t' with [End] => true | _ => false end
  | End :: _ => false
  | _ :: t' => ends_properly t'
  end.

Definition network_calls (t : list effect) : list request :=
  omap (λ e, match e with Net r => Some r | _ => None end) t.

(** The manifests submitted to the content endpoint. *)
Definition manifests (t : list effect) : list content :=
  omap (λ e, match e with Net (PostContent _ body) => Some body | _ => None end) t.

(** The per-track failures reported on the channel. *)
Definition reported_failures (t : list effect) : list track_error :=
  omap (λ e, match e with
             | Write (ev_upload_error _ _ title error) =>
                 Some {| e_title := title; e_error := error |}
             | _ => None
             end) t.


(** What the loop leaves in [tracks] and [errors] for the songs from index
    [i] on. *)
Fixpoint loopTracks (creds : credentials) (w : world) (rest : list song) (i : nat)
  : list track :=
  match rest with
  | [] => []
  | s :: rest' =>
      match result (uploadSong creds w i s) with
      | Returned k =>
          {| t_title := title s; trackNumber := i + 1; key := k;
             t_duration := duration s; format := "mp3" |} :: loopTracks creds w rest' (i + 1)
      | Thrown _ => loopTracks creds w rest' (i + 1)
      end
  end.

Fixpoint loopErrors (creds : credentials) (w : world) (rest : list song) (i : nat)
  : list track_error :=
  match rest with
  | [] => []
  | s :: rest' =>
      match result (uploadSong creds w i s) with
      | Returned _ => loopErrors creds w rest' (i + 1)
      | Thrown message =>
          {| e_title := title s; e_error := message |} :: loopErrors creds w rest' (i + 1)
      end
  end.

(** How the pipeline of the song at index [i] ends. *)
Definition fails_at (creds : credentials) (w : world) (i : nat) (s : song) : Prop :=
  ∃ message, result (uploadSong creds w i s) = Thrown message.

Definition succeeds_at (creds : credentials) (w : world) (i : nat) (s : song) : Prop :=
  ∃ k, result (uploadSong creds w i s) = Returned k.

(** A run that gets as far as the upload loop: credentials stored, the
    playlist found, every song downloaded. *)
Record ready (playlistId : string) (db : database) (w : world)
    (creds : credentials) (pl : playlist) (songs : list song) : Prop := {
  ready_creds : getStoredCredentials (cred_store db) = Some creds;
  ready_playlist : playlists db !! playlistId = Some pl;
  ready_songs : default [] (playlist_songs db !! playlistId) = songs;
  ready_files : notDownloaded w songs = []
}.

(** The trackNumber sequence 1, 2, ..., n. *)
Definition contiguous (numbers : list nat) : Prop :=
  numbers = seq 1 (length numbers).

End Publish.

(** ** Device-code login: the server routes *)

Module DeviceAuth.
Import Credentials.

(** Intervals are JavaScript numbers; they are kept as rationals so that
    the division and multiplication by 1000 between seconds and
    milliseconds are exact. *)
Record session := {
  createdAt : nat;
  expiresIn : nat;
  interval : Q          (* milliseconds *)
}.

Record state := {
  deviceCodeSessions : gmap string session;
  cred_store : Credentials.store
}.

(** Answer of [YotoClient.requestDeviceCode]. *)
Record deviceAuth := {
  device_code : string;
  user_code : string;
  verification_uri : string;
  verification_uri_complete : string;
  expires_in : nat;
  da_interval : Q       (* seconds *)
}.

(** What [YotoClient.pollForDeviceToken] gives: one of the three statuses
    the route reads, or a thrown error with its optional
    [jsonBody.error_description]. *)
Inductive poll_result :=
  | Success (access_token refresh_token : string)
  | Pending
  | SlowDown (interval : Q)
  | Failure (error_description : option string) (message : string).

(** Calls to the authorization server made through the client library. *)
Inductive remote_call :=
  | RequestDeviceCode
  | PollForDeviceToken (deviceCode : string) (currentInterval : Q).

(** The JSON bodies the two routes answer with, by field. *)
Record body := {
  b_status : option string;
  b_message : option string;
  b_interval : option Q;
  b_error : option string;
  b_details : option string;
  b_session : option deviceAuth      (* the fields of the device-code answer *)
}.

Definition empty_body : body :=
  {| b_status := None; b_message := None; b_interval := None;
     b_error := None; b_details := None; b_session := None |}.

Record reply := {
  http_status : nat;
  http_body : body
}.

(** [session.interval = ms] on the session object held by the table. *)
Definition set_interval (sess : session) (ms : Q) : session :=
  {| createdAt := createdAt sess; expiresIn := expiresIn sess; interval := ms |}.

Definition with_sessions (m : gmap string session) (st : state) : state :=
  {| deviceCodeSessions := m; cred_store := cred_store st |}.

(** The answers after which the poll route forgets the session. *)
Definition ends_session (answer : poll_result) : bool :=
  match answer with
  | Success _ _ | Failure _ _ => true
  | Pending | SlowDown _ => false
  end.

Section Routes.
(** [JSON.parse(Buffer.from(token.split('.')[1], 'base64').toString()).sub],
    [None] when the decoding throws or there is no [sub]. *)
Variable token_sub : string → option string.

(** [router.post('/auth/device-code')] at time [now]. *)
Definition postDeviceCode (now : nat) (answer : outcome deviceAuth) (st : state)
  : reply * state * list remote_call :=
  match answer with
  | Returned da =>
      ({| http_status := 200;
          http_body := {| b_status := None; b_message := None; b_interval := None;
                          b_error := None; b_details := None; b_session := Some da |} |},
       with_sessions (<[device_code da :=
                          {| createdAt := now;
                             expiresIn := expires_in da;
                             interval := (da_interval da * 1000)%Q |}]>
                        (deviceCodeSessions st)) st,
       [RequestDeviceCode])
  | Thrown message =>
      ({| http_status := 500;
          http_body := {| b_status := None; b_message := None; b_interval := None;
                          b_error := Some "Failed to start login";
                          b_details := Some message; b_session := None |} |},
       st, [RequestDeviceCode])
  end.

Definition invalid_session : reply :=
  {| http_status := 400;
     http_body := {| b_status := None; b_message := None; b_interval := None;
                     b_error := Some "Invalid or expired device code session";
                     b_details := None; b_session := None |} |}.

Definition missing_device_code : reply :=
  {| http_status := 400;
     http_body := {| b_status := None; b_message := None; b_interval := None;
                     b_error := Some "deviceCode is required";
                     b_details := None; b_session := None |} |}.

(** [router.post('/auth/poll')]; [answer] is what the library call gives
    if the route gets that far. *)
Definition postPoll (deviceCode : option string) (answer : poll_result) (st : state)
  : reply * state * list remote_call :=
  match deviceCode with
  | None => (missing_device_code, st, [])
  | Some code =>
      if negb (truthy code) then (missing_device_code, st, [])
      else
        match deviceCodeSessions st !! code with
        | None => (invalid_session, st, [])
        | Some sess =>
            let call := PollForDeviceToken code (interval sess) in
            match answer with
            | Success access refresh =>
                let userId := token_sub access in
                ({| http_status := 200;
                    http_body := {| b_status := Some "success";
                                    b_message := Some "Login successful";
                                    b_interval := None; b_error := None;
                                    b_details := None; b_session := None |} |},
                 {| deviceCodeSessions := delete code (deviceCodeSessions st);
                    cred_store := saveCredentials
                                    {| accessToken := access;
                                       refreshToken := refresh;
                                       userId := userId |} (cred_store st) |},
                 [call])
            | Pending =>
                ({| http_status := 200;
                    http_body := {| b_status := Some "pending"; b_message := None;
                                    b_interval := None; b_error := None;
                                    b_details := None; b_session := None |} |},
                 st, [call])
            | SlowDown advertised =>
                ({| http_status := 200;
                    http_body := {| b_status := Some "pending"; b_message := None;
                                    b_interval := Some (advertised / 1000)%Q;
                                    b_error := None; b_details := None;
                                    b_session := None |} |},
                 with_sessions (<[code := set_interval sess advertised]>
                                  (deviceCodeSessions st)) st,
                 [call])
            | Failure description message =>
                ({| http_status := 400;
                    http_body := {| b_status := None; b_message := None;
                                    b_interval := None;
                                    b_error := Some "Authorization failed";
                                    b_details :=
                                      Some (match description with
                                            | Some d => if truthy d then d else message
                                            | None => message
                                            end);
                                    b_session := None |} |},
                 with_sessions (delete code (deviceCodeSessions st)) st,
                 [call])
            end
        end
  end.
End Routes.

End DeviceAuth.

(** ** Device-code login: the browser's poll loop *)

Module Client.
Import DeviceAuth.

(** A number is falsy when it is zero. *)
Definition truthy_num (q : Q) : bool := negb (Qeq_bool q 0).

(** What one round of [poll] does next. *)
Inductive next :=
  | Stop                       (* success, error, or a reply with neither *)
  | SetTimeout (ms : Q).       (* [setTimeout(() => poll(), nextInterval * 1000)] *)

(** The body of [poll] in [pollYotoLogin(deviceCode, interval)], given the
    decoded reply. *)
Definition onReply (interval : Q) (data : body) : next :=
  match b_status data with
  | Some s =>
      if String.eqb s "success" then Stop
      else if String.eqb s "pending" then
        let nextInterval :=
          match b_interval data with
          | Some i => if truthy_num i then i else interval
          | None => interval
          end in
        SetTimeout (nextInterval * 1000)%Q
      else Stop
  | None => Stop
  end.

Section Loop.
Variable token_sub : string → option string.

(** [pollYotoLogin(deviceCode, interval)] against the poll route; the
    library's answers to the successive polls are [answers], and the loop
    is followed for as long as they last. Gives the timer waits, in
    order, and the server state at the end. *)
Fixpoint pollYotoLogin (deviceCode : string) (interval : Q)
    (answers : list poll_result) (st : state) : list Q * state :=
  match answers with
  | [] => ([], st)
  | answer :: answers' =>
      let '(r, st', _) := postPoll token_sub (Some deviceCode) answer st in
      match onReply interval (http_body r) with
      | Stop => ([], st')
      | SetTimeout ms =>
          let '(waits, st'') := pollYotoLogin deviceCode interval answers' st' in
          (ms :: waits, st'')
      end
  end.

(** [startYotoLogin]: request a code, then poll with the interval of the
    device-code reply. *)
Definition startYotoLogin (now : nat) (code : outcome deviceAuth)
    (answers : list poll_result) (st : state) : list Q * state :=
  let '(r, st', _) := postDeviceCode now code st in
  match b_error (http_body r), b_session (http_body r) with
  | None, Some data => pollYotoLogin (device_code data) (da_interval data) answers st'
  | _, _ => ([], st')
  end.
End Loop.

End Client.


(** ** Sample runs *)

Module Examples.
Import Credentials Publish.

Definition ok_json {J} (j : J) : fetch_result J :=
  Delivered {| ok := true; status := 200; text := "{}"; json := Returned j |}.

Definition refused {J} (code : nat) : fetch_result J :=
  Delivered {| ok := false; status := code; text := "denied";
               json := Thrown "Unexpected token d in JSON at position 0" |}.

Definition complete_info (k : string) : Upload.transcodeInfo :=
  {| Upload.ti_progress := Some {| Upload.phase := Some "complete"; Upload.percent := Some 100 |};
     Upload.transcodedAt := None;
     Upload.transcodedSha256 := Some k;
     Upload.ti_key := None;
     Upload.ti_stringify := "{...}" |}.

Definition working_info : Upload.transcodeInfo :=
  {| Upload.ti_progress := Some {| Upload.phase := Some "transcoding"; Upload.percent := Some 40 |};
     Upload.transcodedAt := None;
     Upload.transcodedSha256 := None;
     Upload.ti_key := None;
     Upload.ti_stringify := "{...}" |}.

Definition status_of (info : Upload.transcodeInfo) : fetch_result Upload.statusData :=
  ok_json {| Upload.sd_transcode := Some info; Upload.sd_transcoded := None;
             Upload.sd_self := info |}.

(** The remote already holds the file: an [uploadId], no [uploadUrl]; the
    second status poll reports the asset. *)
Definition deduplicated (k : string) : Upload.script :=
  {| Upload.readFileSync_result := Returned tt;
     Upload.uploadUrl_result :=
       ok_json {| Upload.upload_uploadUrl := None;
                  Upload.upload_uploadId := Some "upload-1";
                  Upload.uploadUrlData_stringify := "{...}" |};
     Upload.s3_result := Rejected "unused";
     Upload.transcoded_result :=
       λ attempt, if (attempt =? 0)%nat then status_of working_info
                  else status_of (complete_info k) |}.

(** A first upload: the bytes are sent and the first status poll reports
    the asset. *)
Definition fresh (k : string) : Upload.script :=
  {| Upload.readFileSync_result := Returned tt;
     Upload.uploadUrl_result :=
       ok_json {| Upload.upload_uploadUrl := Some "https://s3.example/put";
                  Upload.upload_uploadId := Some "upload-2";
                  Upload.uploadUrlData_stringify := "{...}" |};
     Upload.s3_result := ok_json tt;
     Upload.transcoded_result := λ _, status_of (complete_info k) |}.

(** The byte transfer is refused. *)
Definition transfer_fails : Upload.script :=
  {| Upload.readFileSync_result := Returned tt;
     Upload.uploadUrl_result :=
       ok_json {| Upload.upload_uploadUrl := Some "https://s3.example/put";
                  Upload.upload_uploadId := Some "upload-3";
                  Upload.uploadUrlData_stringify := "{...}" |};
     Upload.s3_result := refused 403;
     Upload.transcoded_result := λ _, Rejected "unused" |}.




Definition song_at (t : string) : song :=
  {| title := t; file_path := Some ("/data/" +:+ t +:+ ".mp3"); duration := Some 180 |}.

Definition one : song := song_at "one".
Definition two : song := song_at "two".
Definition three : song := song_at "three".

Definition creds : credentials :=
  {| accessToken := "access"; refreshToken := "refresh"; userId := Some "user-1" |}.

Definition mix : playlist := {| name := "mix"; yoto_card_id := None |}.

Definition db : database :=
  {| cred_store := saveCredentials creds {| settings := ∅; yotoClient := None |};
     playlists := {[ "p1" := mix ]};
     playlist_songs := {[ "p1" := [one; two; three] ]} |}.

Definition accepted : fetch_result cardData :=
  ok_json {| card_cardId := Some "card-9"; cardData_stringify := "{...}" |}.

(** Track 2's transfer fails, tracks 1 and 3 go through. *)
Definition second_fails (answer : fetch_result cardData) : world :=
  {| existsSync := λ _, true;
     upload_script := λ i, if (i =? 1)%nat then transfer_fails
                           else if (i =? 0)%nat then deduplicated "key-1" else fresh "key-3";
     content_result := answer |}.

Definition all_fail : world :=
  {| existsSync := λ _, true;
     upload_script := λ _, transfer_fails;
     content_result := accepted |}.

Definition stringify (c : content) : string := "{" +:+ c_title c +:+ "}".

(** A login: the code is issued with a 5-second interval. *)
Definition issued : DeviceAuth.deviceAuth :=
  {| DeviceAuth.device_code := "device-1";
     DeviceAuth.user_code := "ABCD-EFGH";
     DeviceAuth.verification_uri := "https://login.example/activate";
     DeviceAuth.verification_uri_complete := "https://login.example/activate?user_code=ABCD-EFGH";
     DeviceAuth.expires_in := 300;
     DeviceAuth.da_interval := 5 |}.

Definition no_sessions : DeviceAuth.state :=
  {| DeviceAuth.deviceCodeSessions := ∅;
     DeviceAuth.cred_store := {| settings := ∅; yotoClient := None |} |}.

Definition sub_of (token : string) : option string := Some "user-1".

(** The server state once the code has been issued. *)
Definition code_issued : DeviceAuth.state :=
  (DeviceAuth.postDeviceCode 0 (Returned issued) no_sessions).1.2.

End Examples.

(** ** The other routes of the Yoto router *)

Module Routes.
Import Credentials Publish.

(** The body of [GET /auth/status]. *)
Record auth_status := {
  configured : bool;
  hasToken : bool;
  hasRefreshToken : bool
}.

(** [router.get('/auth/status')] *)
Definition getAuthStatus (st : store) : auth_status :=
  let creds := getStoredCredentials st in
  {| configured := match creds with Some _ => true | None => false end;
     hasToken := match creds with Some c => truthy (accessToken c) | None => false end;
     hasRefreshToken := match creds with Some c => truthy (refreshToken c) | None => false end |}.

(** A JSON answer: the status code, and either the data sent back or the
    [error] and [details] members. *)
Inductive reply (D : Type) : Type :=
  | Json (data : D)                                   (* 200 *)
  | Failed (code : nat) (error : string) (details : option string).
Arguments Json {D} data.
Arguments Failed {D} code error details.

(** [router.get('/cards')] and [router.get('/cards/:cardId')]: they differ
    in the client method called and in the error text; [answer] is what
    that method gives, [failure] the error text of the route. *)
Definition getWithClient {D} (failure : string) (construct : credentials → option client)
    (answer : outcome D) (st : store) : reply D * store * list client :=
  match getYotoClient construct st with
  | (None, st') => (Failed 401 "Yoto not connected. Please login first." None, st', [])
  | (Some c, st') =>
      match answer with
      | Returned data => (Json data, st', [c])
      | Thrown message => (Failed 500 failure (Some message), st', [c])
      end
  end.

Definition getCards {D} := @getWithClient D "Failed to fetch Yoto cards".
Definition getCard {D} := @getWithClient D "Failed to fetch Yoto card".

(** [router.post('/upload-track')]; [row] is the row of [songs] with the
    requested id, if any. Gives the answer and the requests made. *)
Definition postUploadTrack (row : option song) (st : store) (exists_ : string → bool)
    (w : Upload.script) : reply string * list Upload.request :=
  match getStoredCredentials st with
  | None => (Failed 401 "Yoto not connected. Please login first." None, [])
  | Some creds =>
      match row with
      | None => (Failed 404 "Song not found or not downloaded" None, [])
      | Some s =>
          match file_path s with
          | None => (Failed 404 "Song not found or not downloaded" None, [])
          | Some p =>
              if negb (truthy p) then (Failed 404 "Song not found or not downloaded" None, [])
              else if negb (exists_ p) then (Failed 404 "Song file not found on disk" None, [])
              else
                let run := Upload.uploadAudioToYoto p (accessToken creds) w in
                let requests := omap (λ a, match a with
                                           | Upload.Fetch r => Some r
                                           | _ => None
                                           end) (effects run) in
                match result run with
                | Returned k => (Json k, requests)
                | Thrown message => (Failed 500 "Failed to upload track" (Some message), requests)
                end
          end
      end
  end.

(** The key of a 200 answer of the single-track route. *)
Definition answered_key (r : reply string) : option string :=
  match r with Json k => Some k | Failed _ _ _ => None end.

End Routes.

(** ** The non-streaming publish route *)

Module Fallback.
Import Credentials Publish.

(** What [POST /upload-playlist/:playlistId] answers. *)
Inductive answer :=
  | Uploaded (card : cardData) (uploadedTracks : nat) (errors : option (list track_error))
  | Refused (code : nat) (error : string) (details : option string)
            (errors : option (list track_error)) (missing : option (list string)).

(** The upload client run with its default log sink [() => {}]. *)
Definition unlogged (a : Upload.action) : option effect :=
  match a with
  | Upload.Log _ => None
  | Upload.Fetch r => Some (Net (UploadRequest r))
  | Upload.Sleep ms => Some (Wait ms)
  end.

Definition withoutSink {A} (m : prog Upload.action A) : prog effect A :=
  (omap unlogged m.1, m.2).

(** The [for] loop of the route. *)
Fixpoint uploadLoop (creds : credentials) (w : world) (rest : list song) (i : nat)
    (tracks : list track) (errors : list track_error)
  : prog effect (list track * list track_error) :=
  match rest with
  | [] => mret (tracks, errors)
  | song :: rest' =>
      acc ← try_catch
        (result ← withoutSink (uploadSong creds w i song);
         mret ((tracks ++ [ {| t_title := title song;
                               trackNumber := i + 1;
                               key := result;
                               t_duration := duration song;
                               format := "mp3" |} ])%list, errors))
        (λ message,
         mret (tracks, (errors ++ [ {| e_title := title song; e_error := message |} ])%list));
      uploadLoop creds w rest' (i + 1) acc.1 acc.2
  end.

(** The route from [if (tracks.length === 0)] on. *)
Definition finish (playlistId : string) (pl : playlist) (creds : credentials) (w : world)
    (tracks : list track) (errors : list track_error) : prog effect answer :=
  if (length tracks =? 0)%nat then
    mret (Refused 500 "All uploads failed" None (Some errors) None)
  else
    let body := buildContent pl creds tracks in
    persistResponse ← fetchContent (accessToken creds) body (content_result w);
    (if negb (ok persistResponse) then
       throw ("Failed to create card: " +:+ String_of_nat (status persistResponse) +:+
              " - " +:+ text persistResponse)
     else mret tt);;
    card ← lift (json persistResponse);
    match card_cardId card with
    | Some newCardId =>
        if truthy newCardId && bool_decide (Some newCardId ≠ yoto_card_id pl) then
          perform (UpdateCardId newCardId playlistId)
        else mret tt
    | None => mret tt
    end;;
    mret (Uploaded card (length tracks)
            (if (0 <? length errors)%nat then Some errors else None)).

(** [router.post('/upload-playlist/:playlistId')] *)
Definition postUploadPlaylist (playlistId : string) (db : database) (w : world)
  : prog effect answer :=
  match getStoredCredentials (cred_store db) with
  | None => mret (Refused 401 "Yoto not connected. Please login first." None None None)
  | Some creds =>
      match playlists db !! playlistId with
      | None => mret (Refused 404 "Playlist not found" None None None)
      | Some pl =>
          let songs := default [] (playlist_songs db !! playlistId) in
          let missing := notDownloaded w songs in
          if (0 <? length missing)%nat then
            mret (Refused 400 "Some songs not downloaded" None None (Some (title <$> missing)))
          else
            try_catch
              (acc ← uploadLoop creds w songs 0 [] [];
               finish playlistId pl creds w acc.1 acc.2)
              (λ message,
               mret (Refused 500 "Failed to upload playlist" (Some message) None None))
      end
  end.

(** The effects of a run of the streaming route other than its use of the
    channel. *)
Definition off_channel (e : effect) : bool :=
  match e with Write _ | End => false | _ => true end.

Definition side_effects (t : list effect) : list effect :=
  List.filter off_channel t.

(** The terminal event a streaming run ends with. *)
Definition last_event (t : list effect) : option event :=
  last (omap (λ e, match e with Write ev => Some ev | _ => None end) t).

End Fallback.

(** ** Reading the upload client's requests *)

Module UploadTrace.
Import Upload.

(** The key a status answer reports, when it makes the loop [break]. *)
Definition reportedKey (answer : fetch_result statusData) : option string :=
  match answer with
  | Delivered r =>
      if ok r then
        match json r with
        | Returned sd => completedKey (pickInfo sd)
        | Thrown _ => None
        end
      else None
  | Rejected _ => None
  end.

Definition requests (t : list action) : list request :=
  omap (λ a, match a with Fetch r => Some r | _ => None end) t.

Definition waited (t : list action) : nat :=
  sum_list (omap (λ a, match a with Sleep ms => Some ms | _ => None end) t).

End UploadTrace.

(** ** Reading the per-song events of a run *)

Module StreamTrace.
Import Publish.

(** The [upload-start] events of a run: [current], [total] and [title]. *)
Definition started (t : list effect) : list (nat * nat * string) :=
  omap (λ e, match e with
             | Write (ev_upload_start current total title) => Some (current, total, title)
             | _ => None
             end) t.

(** The titles of the [upload-complete] events of a run. *)
Definition completed (t : list effect) : list string :=
  omap (λ e, match e with
             | Write (ev_upload_complete _ _ title) => Some title
             | _ => None
             end) t.

(** The card ids a run writes to the [playlists] table. *)
Definition card_updates (t : list effect) : list (string * string) :=
  omap (λ e, match e with
             | UpdateCardId newCardId playlistId => Some (newCardId, playlistId)
             | _ => None
             end) t.

(** Reading a chapter key back as a number. *)
Definition key_index (k : string) : option nat :=
  Nat.of_uint <$> NilEmpty.uint_of_string k.

End StreamTrace.

(** ** The browser: durations, reordering, upload progress *)

Module Browser.
Import Publish DeviceAuth.

(** [formatDuration(seconds)]; [None] is a missing duration. *)
Definition formatDuration (seconds : option nat) : string :=
  match seconds with
  | None => "--:--"
  | Some 0 => "--:--"
  | Some s =>
      let mins := s / 60 in
      let secs := s mod 60 in
      String_of_nat mins +:+ ":" +:+ padStart0 2 (String_of_nat secs)
  end.

(** The text before the first colon of a string, and the text after it. *)
Fixpoint before_colon (s : string) : string :=
  match s with
  | EmptyString => EmptyString
  | String c s' => if Ascii.eqb c ":" then EmptyString else String c (before_colon s')
  end.

Fixpoint after_colon (s : string) : string :=
  match s with
  | EmptyString => EmptyString
  | String c s' => if Ascii.eqb c ":" then s' else after_colon s'
  end.

(** [const [reordered] = songs.splice(source, 1); songs.splice(destination, 0, reordered)]
    in [handleDragEnd]; [None] is the [undefined] that a source index past
    the end puts into the array. *)
Definition reorderSongs {A} (source destination : nat) (songs : list A) : list (option A) :=
  let reordered := songs !! source in
  let rest := Some <$> delete source songs in
  (take destination rest ++ reordered :: drop destination rest)%list.

(** [songs.map(s => s.id)] in [handleDragEnd]; [None] when an element of
    the array is [undefined], on which [s.id] throws. *)
Definition songIds {A} (id : A → string) (songs : list (option A)) : option (list string) :=
  mapM (fmap id) songs.

(** The progress object of the upload dialog; a member that is [None] is
    [undefined]. *)
Record progress := {
  p_current : option nat;
  p_total : option nat;
  p_title : option string;
  p_logs : list string;
  p_done : option bool;
  p_success : option bool;
  p_uploadedTracks : option nat
}.

Record page := {
  yotoUploadProgress : option progress;
  uploadingToYoto : bool;
  toasts : list (string * string);      (* the toasts shown so far: message, type *)
  closed : bool                         (* [eventSource.close()] was called *)
}.

(** [{ ...p }] and [p?.logs || []] for a possibly [null] progress. *)
Definition spread (p : option progress) : progress :=
  default {| p_current := None; p_total := None; p_title := None; p_logs := [];
             p_done := None; p_success := None; p_uploadedTracks := None |} p.

Definition add_log (line : string) (p : progress) : progress :=
  {| p_current := p_current p; p_total := p_total p; p_title := p_title p;
     p_logs := (p_logs p ++ [line])%list;
     p_done := p_done p; p_success := p_success p; p_uploadedTracks := p_uploadedTracks p |}.

Section Progress.
(** The two marks that start the completed and failed log lines. *)
Variables (tick cross : string).

(** [eventSource.onmessage] of [uploadToYoto]. *)
Definition onmessage (data : event) (pg : page) : page :=
  let p := spread (yotoUploadProgress pg) in
  match data with
  | ev_upload_start current total title =>
      {| yotoUploadProgress :=
           Some {| p_current := Some current; p_total := Some total; p_title := Some title;
                   p_logs := (p_logs p ++ ["Starting: " +:+ title])%list;
                   p_done := p_done p; p_success := p_success p;
                   p_uploadedTracks := p_uploadedTracks p |};
         uploadingToYoto := uploadingToYoto pg; toasts := toasts pg; closed := closed pg |}
  | ev_log message =>
      {| yotoUploadProgress := Some (add_log message p);
         uploadingToYoto := uploadingToYoto pg; toasts := toasts pg; closed := closed pg |}
  | ev_upload_complete _ _ title =>
      {| yotoUploadProgress := Some (add_log (tick +:+ " Completed: " +:+ title) p);
         uploadingToYoto := uploadingToYoto pg; toasts := toasts pg; closed := closed pg |}
  | ev_upload_error _ _ title error =>
      {| yotoUploadProgress :=
           Some (add_log (cross +:+ " Failed: " +:+ title +:+ " - " +:+ error) p);
         uploadingToYoto := uploadingToYoto pg; toasts := toasts pg; closed := closed pg |}
  | ev_error error _ _ =>
      {| yotoUploadProgress :=
           Some {| p_current := p_current p; p_total := p_total p; p_title := p_title p;
                   p_logs := (p_logs p ++ ["Error: " +:+ error])%list;
                   p_done := Some true; p_success := Some false;
                   p_uploadedTracks := p_uploadedTracks p |};
         uploadingToYoto := false;
         toasts := (toasts pg ++ [(if truthy error then error else "Upload failed", "error")])%list;
         closed := true |}
  | ev_done _ uploadedTracks errors =>
      {| yotoUploadProgress :=
           Some {| p_current := p_current p; p_total := p_total p; p_title := p_title p;
                   p_logs := (p_logs p ++ [tick +:+ " Card created successfully!"])%list;
                   p_done := Some true; p_success := Some true;
                   p_uploadedTracks := Some uploadedTracks |};
         uploadingToYoto := false;
         toasts := (toasts pg
                    ++ [("Uploaded " +:+ String_of_nat uploadedTracks +:+ " tracks to Yoto!",
                         "success")]
                    ++ match errors with
                       | Some (e :: es) =>
                           [(String_of_nat (length (e :: es)) +:+ " tracks failed", "error")]
                       | _ => []
                       end)%list;
         closed := true |}
  end.

(** The events of a stream as the page receives them: nothing is delivered
    once the event source is closed. *)
Fixpoint deliver (events : list event) (pg : page) : page :=
  match events with
  | [] => pg
  | data :: events' => if closed pg then pg else deliver events' (onmessage data pg)
  end.
End Progress.

(** [uploadToYoto] up to the opening of the event source, for a playlist of
    [n] songs. *)
Definition uploadStarted (n : nat) (pg : page) : page :=
  {| yotoUploadProgress :=
       Some {| p_current := Some 0; p_total := Some n; p_title := Some "";
               p_logs := []; p_done := None; p_success := None; p_uploadedTracks := None |};
     uploadingToYoto := true; toasts := toasts pg; closed := false |}.

(** The log lines the dialog shows. *)
Definition logs_of (pg : page) : list string := p_logs (spread (yotoUploadProgress pg)).

(** The events written by a run of the streaming route. *)
Definition written (t : list effect) : list event :=
  omap (λ e, match e with Write ev => Some ev | _ => None end) t.

(** The wait the login loop sets after the reply to [answer], when started
    with [issued] seconds. *)
Definition wait_after (issued : Q) (answer : poll_result) : Q :=
  match answer with
  | SlowDown advertised =>
      if Client.truthy_num (advertised / 1000) then (advertised / 1000 * 1000)%Q
      else (issued * 1000)%Q
  | _ => (issued * 1000)%Q
  end.

(** The answers before the first one that ends the session. *)
Fixpoint pending_prefix (answers : list poll_result) : list poll_result :=
  match answers with
  | [] => []
  | a :: rest => if ends_session a then [] else a :: pending_prefix rest
  end.

End Browser.

(** ** The playlist tables and the song-membership routes *)

Module Library.

(** The rows of [playlists], [songs] and [playlist_songs]. A table is the
    list of its rows in insertion order; a timestamp is a clock reading; a
    column that is [None] is NULL. *)
Record playlist_row := {
  p_id : string;
  p_name : string;
  p_description : option string;
  p_color : option string;
  p_created_at : nat;
  p_updated_at : nat;
  p_yoto_card_id : option string
}.

Record song_row := {
  s_id : string;
  s_youtube_id : string;
  s_title : string;
  s_artist : option string;
  s_duration : option Z;
  s_thumbnail : option string;
  s_file_path : option string;
  s_downloaded_at : option nat;
  s_created_at : nat
}.

Record ps_row := {
  ps_id : string;
  playlist_id : string;
  song_id : string;
  position : Z;
  ps_created_at : nat
}.

Record tables := {
  playlists : list playlist_row;
  songs : list song_row;
  playlist_songs : list ps_row
}.

(** What a route answers: a status code with a JSON body, a status code
    with an [error] member, or an exception that leaves the handler. *)
Inductive reply (A : Type) : Type :=
  | Sent (code : nat) (data : A)
  | Refused (code : nat) (error : string)
  | Crashed (message : string).
Arguments Sent {A} code data.
Arguments Refused {A} code error.
Arguments Crashed {A} message.

(** *** Statements *)

(** [SELECT ... FROM playlists WHERE id = ?] *)
Definition playlist_by_id (id : string) (db : tables) : option playlist_row :=
  find (λ p, String.eqb (p_id p) id) (playlists db).

(** [SELECT * FROM songs WHERE youtube_id = ?] and [... WHERE id = ?] *)
Definition song_by_youtube_id (youtubeId : string) (db : tables) : option song_row :=
  find (λ s, String.eqb (s_youtube_id s) youtubeId) (songs db).

Definition song_by_id (id : string) (db : tables) : option song_row :=
  find (λ s, String.eqb (s_id s) id) (songs db).

(** [WHERE playlist_id = ?] and [WHERE playlist_id = ? AND song_id = ?] *)
Definition in_playlist (playlistId : string) (r : ps_row) : bool :=
  String.eqb (playlist_id r) playlistId.

Definition is_entry (playlistId songId : string) (r : ps_row) : bool :=
  String.eqb (playlist_id r) playlistId && String.eqb (song_id r) songId.

Definition rows_of (playlistId : string) (db : tables) : list ps_row :=
  filter (λ r, in_playlist playlistId r = true) (playlist_songs db).

(** [ORDER BY position]: rows in ascending position; rows with equal
    positions, whose order SQLite leaves open, are kept in table order. *)
Fixpoint insert_row (r : ps_row) (l : list ps_row) : list ps_row :=
  match l with
  | [] => [r]
  | y :: l' => if (position r <=? position y)%Z then r :: l else y :: insert_row r l'
  end.

Definition order_by_position (l : list ps_row) : list ps_row :=
  foldr insert_row [] l.

(** [INSERT INTO songs]: [id] is the primary key, [youtube_id] is UNIQUE. *)
Definition insert_song (row : song_row) (db : tables) : outcome tables :=
  if existsb (λ s, String.eqb (s_id s) (s_id row)) (songs db)
  then Thrown "UNIQUE constraint failed: songs.id"
  else if existsb (λ s, String.eqb (s_youtube_id s) (s_youtube_id row)) (songs db)
  then Thrown "UNIQUE constraint failed: songs.youtube_id"
  else Returned {| playlists := playlists db;
                   songs := (songs db ++ [row])%list;
                   playlist_songs := playlist_songs db |}.

(** [INSERT INTO playlist_songs]: [id] is the primary key,
    [(playlist_id, song_id)] is UNIQUE, both are foreign keys. *)
Definition insert_playlist_song (row : ps_row) (db : tables) : outcome tables :=
  if existsb (λ r, String.eqb (ps_id r) (ps_id row)) (playlist_songs db)
  then Thrown "UNIQUE constraint failed: playlist_songs.id"
  else if existsb (is_entry (playlist_id row) (song_id row)) (playlist_songs db)
  then Thrown "UNIQUE constraint failed: playlist_songs.playlist_id, playlist_songs.song_id"
  else if negb (existsb (λ p, String.eqb (p_id p) (playlist_id row)) (playlists db))
          || negb (existsb (λ s, String.eqb (s_id s) (song_id row)) (songs db))
  then Thrown "FOREIGN KEY constraint failed"
  else Returned {| playlists := playlists db;
                   songs := songs db;
                   playlist_songs := (playlist_songs db ++ [row])%list |}.

(** [SELECT COALESCE(MAX(position), -1) FROM playlist_songs WHERE playlist_id = ?] *)
Definition max_pos (playlistId : string) (db : tables) : Z :=
  match position <$> rows_of playlistId db with
  | [] => -1
  | p :: ps => foldr Z.max p ps
  end.

(** [UPDATE playlists SET updated_at = CURRENT_TIMESTAMP WHERE id = ?] *)
Definition touch (now : nat) (id : string) (db : tables) : tables :=
  {| playlists :=
       (λ p, if String.eqb (p_id p) id
             then {| p_id := p_id p; p_name := p_name p;
                     p_description := p_description p; p_color := p_color p;
                     p_created_at := p_created_at p; p_updated_at := now;
                     p_yoto_card_id := p_yoto_card_id p |}
             else p) <$> playlists db;
     songs := songs db;
     playlist_songs := playlist_songs db |}.

(** [UPDATE playlist_songs SET position = ? WHERE ...] *)
Definition set_position (index : nat) (r : ps_row) : ps_row :=
  {| ps_id := ps_id r; playlist_id := playlist_id r; song_id := song_id r;
     position := Z.of_nat index; ps_created_at := ps_created_at r |}.

Definition update_position (where_ : ps_row → bool) (index : nat) (t : list ps_row)
  : list ps_row :=
  (λ r, if where_ r then set_position index r else r) <$> t.

(** The rows [router.get('/:id')] lists: the join of [songs] and
    [playlist_songs] for one playlist, ordered by position; the song, its
    position and the id of the entry. *)
Definition joined (playlistId : string) (db : tables) : list (song_row * Z * string) :=
  r ← order_by_position (rows_of playlistId db);
  (λ s, (s, position r, ps_id r)) <$> filter (λ s, s_id s = song_id r) (songs db).

(** *** [router.post('/:id/songs')] *)

(** The request body; [title] and [youtube_id] are taken as given. *)
Record add_body := {
  b_youtube_id : string;
  b_title : string;
  b_artist : option string;
  b_duration : option Z;
  b_thumbnail : option string
}.

(** [artist || ''] *)
Definition or_empty (a : option string) : string :=
  match a with Some s => s | None => "" end.

(** The route at time [now]; [songId] and [psId] are the values of the two
    [uuidv4()] calls. *)
Definition addSong (now : nat) (songId psId : string) (playlistId : string)
    (body : add_body) (db : tables) : reply (song_row * Z * string) * tables :=
  match playlist_by_id playlistId db with
  | None => (Refused 404 "Playlist not found", db)
  | Some _ =>
      let cached :=
        match song_by_youtube_id (b_youtube_id body) db with
        | Some song => Returned (Some song, db)
        | None =>
            match insert_song {| s_id := songId;
                                 s_youtube_id := b_youtube_id body;
                                 s_title := b_title body;
                                 s_artist := Some (or_empty (b_artist body));
                                 s_duration := Some (default 0%Z (b_duration body));
                                 s_thumbnail := Some (or_empty (b_thumbnail body));
                                 s_file_path := None;
                                 s_downloaded_at := None;
                                 s_created_at := now |} db with
            | Returned db1 => Returned (song_by_id songId db1, db1)
            | Thrown message => Thrown message
            end
        end in
      match cached with
      | Thrown message => (Crashed message, db)
      | Returned (None, db1) =>
          (Crashed "Cannot read properties of undefined (reading 'id')", db1)
      | Returned (Some song, db1) =>
          if existsb (is_entry playlistId (s_id song)) (playlist_songs db1)
          then (Refused 400 "Song already in playlist", db1)
          else
            let pos := (max_pos playlistId db1 + 1)%Z in
            match insert_playlist_song {| ps_id := psId; playlist_id := playlistId;
                                          song_id := s_id song; position := pos;
                                          ps_created_at := now |} db1 with
            | Thrown message => (Crashed message, db1)
            | Returned db2 => (Sent 201 (song, pos, psId), touch now playlistId db2)
            end
      end
  end.

(** *** [router.delete('/:id/songs/:songId')] *)

(** [songs.forEach((s, index) => updateStmt.run(index, s.id))], entered at
    [index]. *)
Fixpoint renumber (selected : list ps_row) (index : nat) (t : list ps_row) : list ps_row :=
  match selected with
  | [] => t
  | s :: rest =>
      renumber rest (S index)
        (update_position (λ r, String.eqb (ps_id r) (ps_id s)) index t)
  end.

Definition removeSong (now : nat) (playlistId songId : string) (db : tables)
  : reply unit * tables :=
  let kept := filter (λ r, is_entry playlistId songId r = false) (playlist_songs db) in
  let changes := length (playlist_songs db) - length kept in
  if (changes =? 0)%nat then (Refused 404 "Song not found in playlist", db)
  else
    let db1 := {| playlists := playlists db; songs := songs db; playlist_songs := kept |} in
    let selected := order_by_position (rows_of playlistId db1) in
    (Sent 204 tt,
     touch now playlistId
       {| playlists := playlists db; songs := songs db;
          playlist_songs := renumber selected 0 kept |}).

(** *** [router.put('/:id/reorder')] *)

(** [songIds.forEach((songId, index) => updateStmt.run(index, playlistId, songId))],
    entered at [index]. *)
Fixpoint reorderLoop (playlistId : string) (songIds : list string) (index : nat)
    (t : list ps_row) : list ps_row :=
  match songIds with
  | [] => t
  | songId :: rest =>
      reorderLoop playlistId rest (S index)
        (update_position (is_entry playlistId songId) index t)
  end.

Definition reorder (now : nat) (playlistId : string) (songIds : list string) (db : tables)
  : reply bool * tables :=
  (Sent 200 true,
   touch now playlistId
     {| playlists := playlists db; songs := songs db;
        playlist_songs := reorderLoop playlistId songIds 0 (playlist_songs db) |}).

(** *** Reading a playlist *)

(** The song ids and the positions of a playlist, in the order
    [router.get('/:id')] lists them. *)
Definition shown (playlistId : string) (db : tables) : list string :=
  song_id <$> order_by_position (rows_of playlistId db).

Definition positions (playlistId : string) (db : tables) : list Z :=
  position <$> order_by_position (rows_of playlistId db).

(** The positions of a playlist of [n] songs are 0, 1, ..., n - 1. *)
Definition dense (playlistId : string) (db : tables) : Prop :=
  positions playlistId db = Z.of_nat <$> seq 0 (length (rows_of playlistId db)).

(** The index of the first occurrence of a string in a list. *)
Fixpoint index_of (x : string) (l : list string) : option nat :=
  match l with
  | [] => None
  | y :: l' => if String.eqb x y then Some 0 else S <$> index_of x l'
  end.

(** What [renumber] does to one row, given the ids of the selected rows. *)
Definition renumbered (ids : list string) (index : nat) (r : ps_row) : ps_row :=
  match index_of (ps_id r) ids with
  | Some i => set_position (index + i) r
  | None => r
  end.

(** What [reorderLoop] does to one row. *)
Definition reordered (playlistId : string) (songIds : list string) (index : nat)
    (r : ps_row) : ps_row :=
  if in_playlist playlistId r then
    match index_of (song_id r) songIds with
    | Some i => set_position (index + i) r
    | None => r
    end
  else r.

Definition by_position (a b : ps_row) : Prop := (position a ≤ position b)%Z.

(** The primary key of [playlist_songs]. *)
Definition keyed (db : tables) : Prop := NoDup (ps_id <$> playlist_songs db).

End Library.

(** ** Downloads *)

Module Downloads.
Import Library.

(** How the [yt-dlp] child process of one download ends: it cannot be
    started, or it closes with an exit code ([None] is [null]), what was
    read from its stderr, and the names then found in the downloads
    directory. *)
Inductive exit :=
  | SpawnFailed (message : string)
  | Closed (code : option nat) (stderr : string) (dir : list string).

(** [f.startsWith(youtubeId)] and [f.endsWith('.mp3')] *)
Definition startsWith (f youtubeId : string) : bool := String.prefix youtubeId f.

Definition endsWith (f suffix : string) : bool :=
  String.eqb (String.substring (String.length f - String.length suffix)
                (String.length suffix) f) suffix
  && (String.length suffix <=? String.length f)%nat.

(** [String(code)] for an exit code. *)
Definition String_of_code (code : option nat) : string :=
  match code with Some n => String_of_nat n | None => "null" end.

Section Audio.
(** [path.join(DOWNLOADS_DIR, name)] *)
Variable join : string → string.

(** [downloadAudio(youtubeId)]: the promise's outcome, by the way the
    child process ends. *)
Definition downloadAudio (youtubeId : string) (e : exit) : outcome string :=
  match e with
  | SpawnFailed message => Thrown ("Failed to start yt-dlp: " +:+ message)
  | Closed code stderr dir =>
      if negb (bool_decide (code = Some 0)) then
        Thrown (if truthy stderr then stderr
                else "yt-dlp exited with code " +:+ String_of_code code)
      else
        let files := filter (λ f, startsWith f youtubeId = true) dir in
        match find (λ f, endsWith f ".mp3") files with
        | Some mp3File => Returned (join mp3File)
        | None =>
            match files with
            | f :: _ => Returned (join f)
            | [] => Thrown "Download completed but file not found"
            end
        end
  end.

(** [UPDATE songs SET file_path = ?, downloaded_at = CURRENT_TIMESTAMP
    WHERE youtube_id = ?] *)
Definition set_file_path (now : nat) (filePath youtubeId : string) (db : tables) : tables :=
  {| playlists := playlists db;
     songs := (λ s, if String.eqb (s_youtube_id s) youtubeId
                    then {| s_id := s_id s; s_youtube_id := s_youtube_id s;
                            s_title := s_title s; s_artist := s_artist s;
                            s_duration := s_duration s; s_thumbnail := s_thumbnail s;
                            s_file_path := Some filePath;
                            s_downloaded_at := Some now;
                            s_created_at := s_created_at s |}
                    else s) <$> songs db;
     playlist_songs := playlist_songs db |}.

(** [router.post('/:youtubeId')]: the answer [{ success: true, song,
    cached }] or 500 [{ error: 'Download failed', details }], the videos
    for which [yt-dlp] was started, and the tables afterwards. *)
Inductive song_answer :=
  | Success (song : option song_row) (cached : bool)
  | DownloadFailed (details : string).

(** [song?.file_path && fs.existsSync(song.file_path)] *)
Definition on_disk (existsSync : string → bool) (song : option song_row) : bool :=
  match song with
  | Some s =>
      match s_file_path s with
      | Some p => truthy p && existsSync p
      | None => false
      end
  | None => false
  end.

Definition downloadSong (now : nat) (existsSync : string → bool) (e : exit)
    (youtubeId : string) (db : tables) : song_answer * list string * tables :=
  let existingSong := song_by_youtube_id youtubeId db in
  if on_disk existsSync existingSong then (Success existingSong true, [], db)
  else
    match downloadAudio youtubeId e with
    | Returned filePath =>
        let db' := set_file_path now filePath youtubeId db in
        (Success (song_by_youtube_id youtubeId db') false, [youtubeId], db')
    | Thrown message => (DownloadFailed message, [youtubeId], db)
    end.

(** The events of the playlist download stream. *)
Inductive event :=
  | ev_progress (current total : nat) (title youtube_id : string)
  | ev_complete (youtube_id : string) (cached : bool)
  | ev_error (youtube_id error : string)
  | ev_done (completed errors total : nat).

Inductive effect :=
  | Write (data : event)       (* [res.write] of one event *)
  | Spawn (youtubeId : string) (* [spawn('yt-dlp', ...)] for one song *)
  | End.                       (* [res.end()] *)

(** The outside world of one run, by the index of the song in the loop:
    the answer of [fs.existsSync(song.file_path)], the way the song's
    download ends, and the clock at its database update. *)
Record world := {
  existsSync : nat → bool;
  exits : nat → exit;
  clock : nat → nat
}.

(** [SELECT s.* FROM songs s JOIN playlist_songs ps ON s.id = ps.song_id
    WHERE ps.playlist_id = ? ORDER BY ps.position] *)
Definition songs_of (playlistId : string) (db : tables) : list song_row :=
  (λ row, row.1.1) <$> joined playlistId db.

(** The [for] loop of the stream route, entered at the song of index [i]
    with the counters [completed] and [errors]. *)
Fixpoint downloadLoop (w : world) (total : nat) (rest : list song_row)
    (i completed errors : nat) (db : tables) : list effect * (nat * nat * tables) :=
  match rest with
  | [] => ([], (completed, errors, db))
  | song :: rest' =>
      let start := Write (ev_progress (completed + 1) total (s_title song)
                            (s_youtube_id song)) in
      if truthy_opt (s_file_path song) && existsSync w i then
        let next := downloadLoop w total rest' (S i) (completed + 1) errors db in
        (start :: Write (ev_complete (s_youtube_id song) true) :: next.1, next.2)
      else
        match downloadAudio (s_youtube_id song) (exits w i) with
        | Returned filePath =>
            let db' := set_file_path (clock w i) filePath (s_youtube_id song) db in
            let next := downloadLoop w total rest' (S i) (completed + 1) errors db' in
            (start :: Spawn (s_youtube_id song)
               :: Write (ev_complete (s_youtube_id song) false) :: next.1, next.2)
        | Thrown message =>
            let next := downloadLoop w total rest' (S i) completed (errors + 1) db in
            (start :: Spawn (s_youtube_id song)
               :: Write (ev_error (s_youtube_id song) message) :: next.1, next.2)
        end
  end.

(** [router.get('/playlist/:playlistId/stream')] *)
Definition downloadPlaylistStream (w : world) (playlistId : string) (db : tables)
  : list effect * tables :=
  let songs := songs_of playlistId db in
  let loop := downloadLoop w (length songs) songs 0 0 0 db in
  ((loop.1 ++ [Write (ev_done loop.2.1.1 loop.2.1.2 (length songs)); End])%list, loop.2.2).
End Audio.

(** *** Reading a run *)

Definition written (t : list effect) : list event :=
  omap (λ e, match e with Write ev => Some ev | _ => None end) t.

Definition spawned (t : list effect) : list string :=
  omap (λ e, match e with Spawn id => Some id | _ => None end) t.

(** The songs reported complete, the songs reported failed, and the
    [current] counters shown, in order. *)
Definition completed_ids (t : list effect) : list string :=
  omap (λ e, match e with Write (ev_complete id _) => Some id | _ => None end) t.

Definition failed_ids (t : list effect) : list string :=
  omap (λ e, match e with Write (ev_error id _) => Some id | _ => None end) t.

Definition started_ids (t : list effect) : list string :=
  omap (λ e, match e with Write (ev_progress _ _ _ id) => Some id | _ => None end) t.

(** The songs reported complete after a download. *)
Definition downloaded_ids (t : list effect) : list string :=
  omap (λ e, match e with Write (ev_complete id false) => Some id | _ => None end) t.

(** How a run may change a row of [songs]: only the file path and the
    download time, only for a downloaded song, and never to no path. *)
Definition updated (ids : list string) (s s' : song_row) : Prop :=
  s_id s' = s_id s ∧ s_youtube_id s' = s_youtube_id s ∧ s_title s' = s_title s
  ∧ s_artist s' = s_artist s ∧ s_duration s' = s_duration s
  ∧ s_thumbnail s' = s_thumbnail s ∧ s_created_at s' = s_created_at s
  ∧ (s_youtube_id s ∉ ids → s' = s)
  ∧ (s_youtube_id s ∈ ids → is_Some (s_file_path s')).

Definition currents (t : list effect) : list nat :=
  omap (λ e, match e with Write (ev_progress current _ _ _) => Some current | _ => None end) t.

(** An effect of the loop: anything but the [done] event and [res.end()]. *)
Definition per_song (e : effect) : bool :=
  match e with
  | Write (ev_done _ _ _) | End => false
  | _ => true
  end.

(** A song the loop does not download again. *)
Definition cached (w : world) (i : nat) (song : song_row) : bool :=
  truthy_opt (s_file_path song) && existsSync w i.

(** What the loop reports for the song of index [i]: complete from the
    cache, complete after a download, or the error of its download. *)
Definition report (join : string → string) (w : world) (i : nat) (song : song_row)
  : event :=
  if cached w i song then ev_complete (s_youtube_id song) true
  else
    match downloadAudio join (s_youtube_id song) (exits w i) with
    | Returned _ => ev_complete (s_youtube_id song) false
    | Thrown message => ev_error (s_youtube_id song) message
    end.

Definition is_complete (ev : event) : bool :=
  match ev with ev_complete _ _ => true | _ => false end.

(** The number of songs reported complete among [l], the songs from index
    [i] on. *)
Fixpoint completed_among (join : string → string) (w : world) (i : nat)
    (l : list song_row) : nat :=
  match l with
  | [] => 0
  | song :: l' =>
      match report join w i song with
      | ev_error _ _ => 0
      | _ => 1
      end + completed_among join w (S i) l'
  end.

(** *** The page during [downloadAll] *)

Record page := {
  downloading : gmap string bool;
  downloadProgress : option (nat * nat * string);
  downloadErrors : gmap string string;
  toasts : list (string * string);
  closed : bool;                       (* [eventSource.close()] was called *)
  refetched : nat                      (* calls of [fetchPlaylist] *)
}.

Section Page.
(** [currentPlaylist.songs] *)
Variable currentSongs : list song_row.

(** [downloadAll] up to the opening of the event source. *)
Definition downloadStarted (pg : page) : page :=
  {| downloading := <["all" := true]> (downloading pg);
     downloadProgress := Some (0, length currentSongs, "");
     downloadErrors := downloadErrors pg;
     toasts := toasts pg;
     closed := false;
     refetched := refetched pg |}.

(** [eventSource.onmessage] of [downloadAll]. *)
Definition onmessage (data : event) (pg : page) : page :=
  match data with
  | ev_progress current total title youtube_id =>
      {| downloading := <[youtube_id := true]> (downloading pg);
         downloadProgress := Some (current, total, title);
         downloadErrors := downloadErrors pg;
         toasts := toasts pg; closed := closed pg; refetched := refetched pg |}
  | ev_complete youtube_id _ =>
      {| downloading := <[youtube_id := false]> (downloading pg);
         downloadProgress := downloadProgress pg;
         downloadErrors := downloadErrors pg;
         toasts := toasts pg; closed := closed pg; refetched := refetched pg |}
  | ev_error youtube_id error =>
      {| downloading := <[youtube_id := false]> (downloading pg);
         downloadProgress := downloadProgress pg;
         downloadErrors :=
           match find (λ s, String.eqb (s_youtube_id s) youtube_id) currentSongs with
           | Some song => <[s_id song := error]> (downloadErrors pg)
           | None => downloadErrors pg
           end;
         toasts := toasts pg; closed := closed pg; refetched := refetched pg |}
  | ev_done completed errors _ =>
      {| downloading := <["all" := false]> (downloading pg);
         downloadProgress := None;
         downloadErrors := downloadErrors pg;
         toasts :=
           (toasts pg
            ++ [if (0 <? errors)%nat
                then ("Downloaded " +:+ String_of_nat completed +:+ " songs, "
                      +:+ String_of_nat errors +:+ " failed", "error")
                else ("Downloaded " +:+ String_of_nat completed +:+ " songs", "success")])%list;
         closed := true;
         refetched := S (refetched pg) |}
  end.

(** The events of a stream as the page receives them: nothing is delivered
    once the event source is closed. *)
Fixpoint deliver (events : list event) (pg : page) : page :=
  match events with
  | [] => pg
  | data :: events' => if closed pg then pg else deliver events' (onmessage data pg)
  end.
End Page.

End Downloads.

(** ** Export *)

Module Exports.
Import Library.

(** [String(n)] for an integer. *)
Definition String_of_Z (z : Z) : string :=
  match z with
  | Zneg p => "-" +:+ String_of_nat (Pos.to_nat p)
  | _ => String_of_nat (Z.to_nat z)
  end.

(** The calls to [fs] that change the disk. *)
Inductive fs_op :=
  | RmSync (path : string)
  | MkdirSync (path : string)
  | CopyFileSync (src dest : string).

(** What the route answers: [{ success: true, playlist, exportPath, files,
    totalTracks }] with the original title and the exported name of each
    file, or a status code with [error] and, for songs that are not
    downloaded, [missing]. *)
Inductive answer :=
  | Exported (playlist exportPath : string) (files : list (string * string))
      (totalTracks : nat)
  | Failed (code : nat) (error : string) (missing : option (list (string * string))).

(** The text before the first space of a string. *)
Fixpoint before_space (s : string) : string :=
  match s with
  | EmptyString => EmptyString
  | String c s' => if Ascii.eqb c " " then EmptyString else String c (before_space s')
  end.

Section Route.
(** [sanitizeFilename] on titles and names, [path.extname],
    [path.join(EXPORTS_DIR, name)] and [path.join(exportPath, name)], and
    the files on disk when the route is entered. The copies are taken to
    succeed. *)
Variables (sanitizeFilename extname : string → string).
Variables (joinExports : string → string) (join : string → string → string).
Variable existsSync : string → bool.

(** [`${trackNum} - ${sanitizedTitle}${ext}`] *)
Definition newFilename (position : Z) (title file_path : string) : string :=
  let trackNum := padStart0 2 (String_of_Z (position + 1)) in
  trackNum +:+ " - " +:+ sanitizeFilename title +:+ extname file_path.

(** [songs.filter(s => !s.file_path || !fs.existsSync(s.file_path))] *)
Definition notDownloaded (songs : list (song_row * Z * string))
  : list (song_row * Z * string) :=
  filter (λ row, match s_file_path row.1.1 with
                 | Some p => negb (truthy p) || negb (existsSync p)
                 | None => true
                 end = true) songs.

(** The copy loop; a [null] path makes [path.extname] throw. *)
Fixpoint copyLoop (exportPath : string) (songs : list (song_row * Z * string))
  : prog fs_op (list (string * string)) :=
  match songs with
  | [] => mret []
  | (song, position, _) :: rest =>
      match s_file_path song with
      | None => throw "The path argument must be of type string"
      | Some p =>
          let name := newFilename position (s_title song) p in
          perform (CopyFileSync p (join exportPath name));;
          copied ← copyLoop exportPath rest;
          mret ((s_title song, name) :: copied)
      end
  end.

(** [router.post('/:playlistId')] of the export routes. *)
Definition exportPlaylist (playlistId : string) (db : tables) : prog fs_op answer :=
  match playlist_by_id playlistId db with
  | None => mret (Failed 404 "Playlist not found" None)
  | Some playlist =>
      let songs := joined playlistId db in
      let missing := notDownloaded songs in
      if (0 <? length missing)%nat then
        mret (Failed 400 "Some songs not downloaded"
                (Some ((λ row, (s_youtube_id row.1.1, s_title row.1.1)) <$> missing)))
      else
        let folder := joinExports (sanitizeFilename (p_name playlist)) in
        (if existsSync folder then perform (RmSync folder) else mret tt);;
        perform (MkdirSync folder);;
        copied ← copyLoop folder songs;
        mret (Exported (p_name playlist) folder copied (length copied))
  end.
End Route.

(** The copies of a run, and the track number a file name starts with. *)
Definition copies (t : list fs_op) : list (string * string) :=
  omap (λ op, match op with CopyFileSync src dest => Some (src, dest) | _ => None end) t.

Definition track_of (name : string) : option nat :=
  StreamTrace.key_index (before_space name).

End Exports.

(** ** File names *)

Module Sanitize.

(** A JavaScript string, as the list of its UTF-16 code units. *)
Definition jsstring : Type := list N.

(** The characters the first replacement removes: less-than, greater-than,
    colon, double quote, slash, backslash, vertical bar, question mark and
    asterisk. *)
Definition is_illegal (c : N) : bool :=
  bool_decide (c ∈ [60; 62; 58; 34; 47; 92; 124; 63; 42]%N).

(** [\s], which is also what [trim] removes: white space and line
    terminators. *)
Definition is_space (c : N) : bool :=
  bool_decide (c ∈ [9; 10; 11; 12; 13; 32; 160; 5760; 8232; 8233; 8239; 8287;
                    12288; 65279]%N)
  || ((8192 <=? c)%N && (c <=? 8202)%N).

(** [.replace(/\s+/g, ' ')]; [in_run] tells that the previous code unit
    was white space. *)
Fixpoint collapse (in_run : bool) (s : jsstring) : jsstring :=
  match s with
  | [] => []
  | c :: s' =>
      if is_space c then
        if in_run then collapse true s' else 32%N :: collapse true s'
      else c :: collapse false s'
  end.

(** [.trim()] *)
Fixpoint trimStart (s : jsstring) : jsstring :=
  match s with
  | [] => []
  | c :: s' => if is_space c then trimStart s' else s
  end.

Fixpoint trimEnd (s : jsstring) : jsstring :=
  match s with
  | [] => []
  | c :: s' =>
      match trimEnd s' with
      | [] => if is_space c then [] else [c]
      | r => c :: r
      end
  end.

Definition trim (s : jsstring) : jsstring := trimEnd (trimStart s).

Definition sanitizeFilename (name : jsstring) : jsstring :=
  take 100 (trim (collapse false (filter (λ c, is_illegal c = false) name))).

(** No two white-space code units in a row. *)
Fixpoint single_spaced (s : jsstring) : Prop :=
  match s with
  | c :: s' =>
      match s' with
      | d :: _ => ¬ (is_space c = true ∧ is_space d = true)
      | [] => True
      end ∧ single_spaced s'
  | [] => True
  end.

End Sanitize.

(** ** Sample tables *)

Module LibraryExamples.
Import Library.

Definition entry (id playlistId songId : string) (pos : Z) : ps_row :=
  {| ps_id := id; playlist_id := playlistId; song_id := songId; position := pos;
     ps_created_at := 0 |}.

Definition cached_song (id youtubeId title : string) (path : option string) : song_row :=
  {| s_id := id; s_youtube_id := youtubeId; s_title := title; s_artist := Some "";
     s_duration := Some 180%Z; s_thumbnail := Some ""; s_file_path := path;
     s_downloaded_at := None; s_created_at := 0 |}.

Definition named (id name : string) : playlist_row :=
  {| p_id := id; p_name := name; p_description := Some ""; p_color := Some "#a8d5ba";
     p_created_at := 0; p_updated_at := 0; p_yoto_card_id := None |}.

(** Two playlists: the first holds three songs, the second shares one of
    them. *)
Definition lib : tables :=
  {| playlists := [named "p1" "Road trip"; named "p2" "Bedtime"];
     songs := [cached_song "s-a" "yt-a" "A" (Some "/dl/yt-a.mp3");
               cached_song "s-b" "yt-b" "B" None;
               cached_song "s-c" "yt-c" "C" None];
     playlist_songs := [entry "e1" "p1" "s-a" 0; entry "e2" "p2" "s-a" 0;
                        entry "e3" "p1" "s-b" 1; entry "e4" "p1" "s-c" 2] |}.

(** The same tables once every song has been downloaded. *)
Definition lib_downloaded : tables :=
  {| playlists := playlists lib;
     songs := [cached_song "s-a" "yt-a" "A" (Some "/dl/yt-a.mp3");
               cached_song "s-b" "yt-b" "B" (Some "/dl/yt-b.mp3");
               cached_song "s-c" "yt-c" "C" (Some "/dl/yt-c.mp3")];
     playlist_songs := playlist_songs lib |}.

Definition all_on_disk (path : string) : bool := true.

Definition new_song : add_body :=
  {| b_youtube_id := "yt-d"; b_title := "D"; b_artist := None; b_duration := Some 200%Z;
     b_thumbnail := None |}.

(** The disk holds the one downloaded file. *)
Definition on_disk_a (path : string) : bool := String.eqb path "/dl/yt-a.mp3".

Definition mp3 (path : string) : string := ".mp3".
Definition in_exports (name : string) : string := "/exports/" +:+ name.
Definition in_folder (folder name : string) : string := folder +:+ "/" +:+ name.
Definition unchanged (name : string) : string := name.

End LibraryExamples.
(** * Properties *)

(** ** Credential store *)

Section CredentialFacts.
Import Credentials.

Lemma like_access_token : like "yoto_%" yoto_access_token = true.
Proof. reflexivity. Qed.

Lemma like_refresh_token : like "yoto_%" yoto_refresh_token = true.
Proof. reflexivity. Qed.

Lemma clear_lookup (st : store) (k : string) :
  like "yoto_%" k = true → settings (clearCredentials st) !! k = None.
Proof.
  intros Hk. unfold clearCredentials; simpl.
  apply map_lookup_filter_None. right. intros v _ Hf.
  change (like "yoto_%" k = false) in Hf. congruence.
Qed.

Lemma clear_keeps (st : store) (k : string) :
  like "yoto_%" k = false → settings (clearCredentials st) !! k = settings st !! k.
Proof.
  intros Hk. unfold clearCredentials; simpl.
  destruct (settings st !! k) as [v|] eqn:E.
  - apply map_lookup_filter_Some. split; [exact E | exact Hk].
  - apply map_lookup_filter_None. left. exact E.
Qed.

Lemma save_lookup_access (c : credentials) (st : store) :
  settings (saveCredentials c st) !! yoto_access_token = Some (accessToken c).
Proof.
  unfold saveCredentials, upsert; simpl.
  destruct (userId c) as [u|]; simpl; [destruct (truthy u)|];
    repeat (rewrite lookup_insert_ne by discriminate);
    apply lookup_insert_eq.
Qed.

Lemma save_lookup_refresh (c : credentials) (st : store) :
  settings (saveCredentials c st) !! yoto_refresh_token = Some (refreshToken c).
Proof.
  unfold saveCredentials, upsert; simpl.
  destruct (userId c) as [u|]; simpl; [destruct (truthy u)|];
    repeat (rewrite lookup_insert_ne by discriminate);
    apply lookup_insert_eq.
Qed.

Lemma client_keeps_settings construct (st : store) :
  settings (getYotoClient construct st).2 = settings st.
Proof.
  unfold getYotoClient.
  destruct (yotoClient st); [reflexivity|].
  destruct (getStoredCredentials st); [|reflexivity].
  destruct (construct _); reflexivity.
Qed.

Lemma reachable_paired (st : store) :
  reachable st → (has_access st ↔ has_refresh st).
Proof.
  unfold has_access, has_refresh.
  induction 1 as [|c st _ _|st _ _|construct st _ IH].
  - simpl. rewrite !lookup_empty. split; intros [? ?]; discriminate.
  - rewrite save_lookup_access, save_lookup_refresh. split; eauto.
  - rewrite !clear_lookup by reflexivity. split; intros [? ?]; discriminate.
  - rewrite client_keeps_settings. exact IH.
Qed.

Lemma get_needs_access (st : store) :
  settings st !! yoto_access_token = None → getStoredCredentials st = None.
Proof. intros H. unfold getStoredCredentials. rewrite H. reflexivity. Qed.

Lemma get_needs_refresh (st : store) :
  settings st !! yoto_refresh_token = None → getStoredCredentials st = None.
Proof.
  intros H. unfold getStoredCredentials. rewrite H. simpl.
  rewrite orb_true_r. reflexivity.
Qed.

Lemma get_after_clear (st : store) : getStoredCredentials (clearCredentials st) = None.
Proof. apply get_needs_access, clear_lookup. reflexivity. Qed.

(** Row by row: in every state of the credential store reached from the
    empty table by saves and clears, the access-token row and the
    refresh-token row are both there or both missing, whatever their
    values; a save writes both rows, a clear removes both, and reading a
    store that lacks one of the two rows gives no credentials. *)
Lemma credentials_both_or_neither (st : store) :
  reachable st →
  (has_access st ↔ has_refresh st)
  ∧ (∀ c, settings (saveCredentials c st) !! yoto_access_token = Some (accessToken c)
          ∧ settings (saveCredentials c st) !! yoto_refresh_token = Some (refreshToken c))
  ∧ (settings (clearCredentials st) !! yoto_access_token = None
     ∧ settings (clearCredentials st) !! yoto_refresh_token = None)
  ∧ (∀ st', ¬ (has_access st' ∧ has_refresh st') → getStoredCredentials st' = None).
Proof.
  intros Hr. split; [|split; [|split]].
  - apply reachable_paired, Hr.
  - intros c. split; [apply save_lookup_access | apply save_lookup_refresh].
  - split; apply clear_lookup; reflexivity.
  - intros st' Hnot. unfold has_access, has_refresh in Hnot.
    destruct (settings st' !! yoto_access_token) as [a|] eqn:Ea;
      [|apply get_needs_access, Ea].
    destruct (settings st' !! yoto_refresh_token) as [r|] eqn:Er;
      [|apply get_needs_refresh, Er].
    exfalso. apply Hnot. split; eauto.
Qed.
End CredentialFacts.

(** ** The effect monad *)

Section ProgFacts.
Context {E : Type}.

Lemma bind_returned {A B} (m : prog E A) (k : A → prog E B) a :
  m.2 = Returned a → m ≫= k = ((m.1 ++ (k a).1)%list, (k a).2).
Proof. intros H. unfold mbind, prog_bind. rewrite H. reflexivity. Qed.

Lemma bind_thrown {A B} (m : prog E A) (k : A → prog E B) e :
  m.2 = Thrown e → m ≫= k = (m.1, Thrown e).
Proof. intros H. unfold mbind, prog_bind. rewrite H. reflexivity. Qed.
End ProgFacts.

(** ** Transcode upload client *)

Section UploadFacts.
Import Upload.

Lemma completedKey_truthy info k : completedKey info = Some k → truthy k = true.
Proof.
  unfold completedKey. destruct (isComplete info); simpl; [|discriminate].
  destruct (truthy_opt _) eqn:T; [|discriminate].
  intros H. rewrite H in T. exact T.
Qed.

Lemma logProgress_spec info :
  ∃ logs, logProgress info = (logs, Returned tt) ∧ timeline logs = [].
Proof.
  unfold logProgress. destruct (ti_progress info); eexists; split; reflexivity.
Qed.

(** One round: a 2-second wait, one status request, then only log lines;
    how it ends is decided by [reportsKey] and [answered]. *)
Lemma statusRound_spec u t a :
  timeline (statusRound u t a).1 = round u t ∧
  match (statusRound u t a).2 with
  | Returned (Some k) => reportsKey a = true ∧ truthy k = true
  | Returned None => reportsKey a = false ∧ answered a = true
  | Thrown _ => reportsKey a = false ∧ answered a = false
  end.
Proof.
  destruct a as [msg|[[] st tx [sd|msg]]]; cbn; auto.
  destruct (completedKey (pickInfo sd)) as [k|] eqn:K; cbn.
  - split; [reflexivity|]. split; [reflexivity|]. eapply completedKey_truthy, K.
  - destruct (logProgress_spec (pickInfo sd)) as (logs & -> & Hl). cbn.
    rewrite app_nil_r. fold (timeline logs). rewrite Hl. auto.
Qed.

Lemma statusLoop_step u t answers (remaining attempt : nat) :
  statusLoop u t answers (S remaining) attempt =
  found ← statusRound u t (answers attempt);
  match found with
  | Some k => mret (Some k)
  | None =>
      log ("Transcoding... (" +:+ String_of_nat (attempt + 1) +:+ "/30)");;
      statusLoop u t answers remaining (attempt + 1)
  end.
Proof. reflexivity. Qed.

Lemma timeline_app (l1 l2 : list action) :
  timeline (l1 ++ l2) = (timeline l1 ++ timeline l2)%list.
Proof. apply List.filter_app. Qed.

(** The loop makes at most [remaining] rounds, whatever the answers. *)
Lemma statusLoop_bounded u t answers (remaining attempt : nat) :
  ∃ n : nat, (n ≤ remaining)%nat ∧
       timeline (statusLoop u t answers remaining attempt).1 = rounds n u t.
Proof.
  revert attempt. induction remaining as [|remaining IH]; intros attempt.
  - exists 0. split; [lia | reflexivity].
  - rewrite statusLoop_step.
    destruct (statusRound_spec u t (answers attempt)) as [Ht Hr].
    destruct (statusRound u t (answers attempt)) as [eff [[k|]|msg]]; simpl in Ht, Hr.
    + exists 1. split; [lia|].
      erewrite bind_returned by reflexivity. simpl.
      rewrite app_nil_r, Ht. reflexivity.
    + destruct (IH (attempt + 1)) as (n & Hn & Hrec).
      exists (S n). split; [lia|].
      erewrite bind_returned by reflexivity. cbn [fst snd].
      rewrite timeline_app, Ht.
      erewrite bind_returned by reflexivity. cbn [fst snd log perform].
      rewrite timeline_app, Hrec. reflexivity.
    + exists 1. split; [lia|].
      erewrite bind_thrown by reflexivity. simpl. rewrite Ht. reflexivity.
Qed.







Lemma answered_no_error a : answered a = true → pollError a = None.
Proof.
  destruct a as [msg|[[] st tx [sd|msg]]]; cbn; try discriminate; reflexivity.
Qed.



End UploadFacts.

Section UploadTheorems.
Import Upload.

Lemma pollTranscoding_unfold u t answers :
  pollTranscoding u t answers =
  let loop := statusLoop u t answers 30 0 in
  (Log "Waiting for transcoding..." :: loop.1,
   match loop.2 with
   | Returned (Some k) =>
       if truthy k then Returned k else Thrown "Transcoding timed out or failed"
   | Returned None => Thrown "Transcoding timed out or failed"
   | Thrown e => Thrown e
   end).
Proof.
  unfold pollTranscoding. cbn zeta.
  destruct (statusLoop u t answers 30 0) as [eff [[k|]|e]]; cbn;
    [destruct (truthy k); cbn|..]; rewrite ?app_nil_r; reflexivity.
Qed.

Lemma pollTranscoding_bounded u t answers :
  ∃ n : nat, (n ≤ 30)%nat ∧ timeline (effects (pollTranscoding u t answers)) = rounds n u t.
Proof.
  destruct (statusLoop_bounded u t answers 30 0) as (n & Hn & Ht).
  exists n. split; [exact Hn|]. rewrite pollTranscoding_unfold. exact Ht.
Qed.










End UploadTheorems.

(** ** Publish orchestrator *)

Section PublishFacts.
Import Credentials Publish.
Variable JSON_stringify : content → string.

Lemma try_catch_bind {E A B} (m : prog E A) (k : A → prog E B) h a :
  m.2 = Returned a →
  try_catch (m ≫= k) h = ((m.1 ++ (try_catch (k a) h).1)%list, (try_catch (k a) h).2).
Proof.
  intros H. rewrite (bind_returned m k a H). unfold try_catch. cbn [fst snd].
  destruct (k a) as [t [b|e]]; cbn [fst snd]; [reflexivity|].
  rewrite app_assoc. reflexivity.
Qed.

Lemma in_loop_sink (t : list Upload.action) :
  Forall (λ e, in_loop e = true) (as_effect <$> t).
Proof.
  apply Forall_fmap, Forall_forall. intros [msg|r|ms] _; reflexivity.
Qed.

(** One turn of the loop, by how the song's pipeline ends. *)
Lemma uploadLoop_cons creds w total s rest i tracks errors :
  uploadLoop creds w total (s :: rest) i tracks errors =
  match result (uploadSong creds w i s) with
  | Returned k =>
      let next := uploadLoop creds w total rest (i + 1)
                    (tracks ++ [ {| t_title := title s; trackNumber := i + 1; key := k;
                                    t_duration := duration s; format := "mp3" |} ])
                    errors in
      ((Write (ev_upload_start (i + 1) total (title s))
          :: (as_effect <$> effects (uploadSong creds w i s))
          ++ Write (ev_upload_complete (i + 1) total (title s)) :: next.1)%list,
       next.2)
  | Thrown message =>
      let next := uploadLoop creds w total rest (i + 1) tracks
                    (errors ++ [ {| e_title := title s; e_error := message |} ]) in
      ((Write (ev_upload_start (i + 1) total (title s))
          :: (as_effect <$> effects (uploadSong creds w i s))
          ++ Write (ev_upload_error (i + 1) total (title s) message) :: next.1)%list,
       next.2)
  end.
Proof.
  cbn [uploadLoop]. unfold result, effects.
  destruct (uploadSong creds w i s) as [eff [k|message]]; cbn.
  - rewrite <- app_assoc. reflexivity.
  - rewrite <- app_assoc. reflexivity.
Qed.

Lemma uploadLoop_result creds w total rest i tracks errors :
  (uploadLoop creds w total rest i tracks errors).2 =
  Returned ((tracks ++ loopTracks creds w rest i)%list,
            (errors ++ loopErrors creds w rest i)%list).
Proof.
  revert i tracks errors. induction rest as [|s rest IH]; intros i tracks errors.
  - cbn. rewrite !app_nil_r. reflexivity.
  - rewrite uploadLoop_cons. cbn [loopTracks loopErrors].
    destruct (result (uploadSong creds w i s)) as [k|message]; cbn [snd];
      rewrite IH, <- app_assoc; reflexivity.
Qed.

Lemma uploadLoop_in_loop creds w total rest i tracks errors :
  Forall (λ e, in_loop e = true) (uploadLoop creds w total rest i tracks errors).1.
Proof.
  revert i tracks errors. induction rest as [|s rest IH]; intros i tracks errors.
  - constructor.
  - rewrite uploadLoop_cons.
    destruct (result (uploadSong creds w i s)) as [k|message]; cbn [fst];
      (constructor; [reflexivity|]; apply Forall_app; split; [apply in_loop_sink|];
       constructor; [reflexivity | apply IH]).
Qed.

(** The failures the loop reports on the channel are the ones it collects. *)
Lemma reported_sink (t : list Upload.action) : reported_failures (as_effect <$> t) = [].
Proof. induction t as [|[msg|r|ms] t IH]; cbn; auto. Qed.

Lemma reported_app (t1 t2 : list effect) :
  reported_failures (t1 ++ t2) = (reported_failures t1 ++ reported_failures t2)%list.
Proof. apply omap_app. Qed.

Lemma reported_cons (e : effect) (t : list effect) :
  reported_failures (e :: t) =
  match e with
  | Write (ev_upload_error _ _ title error) =>
      {| e_title := title; e_error := error |} :: reported_failures t
  | _ => reported_failures t
  end.
Proof. destruct e as [[]| | | |]; reflexivity. Qed.

Lemma uploadLoop_reported creds w total rest i tracks errors :
  reported_failures (uploadLoop creds w total rest i tracks errors).1 =
  loopErrors creds w rest i.
Proof.
  revert i tracks errors. induction rest as [|s rest IH]; intros i tracks errors.
  - reflexivity.
  - rewrite uploadLoop_cons. cbn [loopErrors].
    destruct (result (uploadSong creds w i s)) as [k|message]; cbn [fst];
      rewrite reported_cons, reported_app, reported_sink, reported_cons, IH;
      reflexivity.
Qed.

Lemma manifests_app (t1 t2 : list effect) :
  manifests (t1 ++ t2) = (manifests t1 ++ manifests t2)%list.
Proof. apply omap_app. Qed.

Lemma manifests_in_loop (t : list effect) :
  Forall (λ e, in_loop e = true) t → manifests t = [].
Proof.
  induction 1 as [|e t He _ IH]; [reflexivity|].
  destruct e as [ev| |[r|tok b]|ms|c p]; try discriminate; exact IH.
Qed.

(** A run that reaches the loop is the loop followed by [finish]. *)
Lemma stream_ready playlistId db w creds pl songs :
  ready playlistId db w creds pl songs →
  let loop := uploadLoop creds w (length songs) songs 0 [] [] in
  let tail := try_catch
                (finish JSON_stringify playlistId pl creds w
                   (loopTracks creds w songs 0) (loopErrors creds w songs 0))
                catchAll in
  uploadPlaylistStream JSON_stringify playlistId db w = ((loop.1 ++ tail.1)%list, tail.2).
Proof.
  intros [Hc Hp Hs Hf]. unfold uploadPlaylistStream.
  rewrite Hc, Hp, Hs, Hf. cbn [length Nat.ltb Nat.leb].
  erewrite try_catch_bind by apply uploadLoop_result. reflexivity.
Qed.
End PublishFacts.

(** ** What the loop collects *)

Section LoopFacts.
Import Credentials Publish.
Variables (creds : credentials) (w : world).

Lemma shift_index {P : nat → song → Prop} (s : song) (rest : list song) (i : nat) :
  (∀ p x, (s :: rest) !! p = Some x → P (i + p) x) →
  P i s ∧ (∀ p x, rest !! p = Some x → P (i + 1 + p) x).
Proof.
  intros H. split.
  - specialize (H 0 s eq_refl). rewrite Nat.add_0_r in H. exact H.
  - intros p x Hp. specialize (H (S p) x Hp).
    replace (i + 1 + p) with (i + S p) by lia. exact H.
Qed.

Lemma loopTracks_all_failed (rest : list song) (i : nat) :
  (∀ p s, rest !! p = Some s → fails_at creds w (i + p) s) → loopTracks creds w rest i = [].
Proof.
  revert i. induction rest as [|s rest IH]; intros i H; [reflexivity|].
  apply shift_index in H as [[message Hs] Hrest].
  cbn [loopTracks]. rewrite Hs. apply IH, Hrest.
Qed.

Lemma loopErrors_all_failed (rest : list song) (i : nat) :
  (∀ p s, rest !! p = Some s → fails_at creds w (i + p) s) →
  length (loopErrors creds w rest i) = length rest
  ∧ ∀ p s, rest !! p = Some s →
      ∃ message, result (uploadSong creds w (i + p) s) = Thrown message
                 ∧ loopErrors creds w rest i !! p
                   = Some {| e_title := title s; e_error := message |}.
Proof.
  revert i. induction rest as [|s rest IH]; intros i H.
  - split; [reflexivity|]. intros p s Hp. discriminate.
  - apply shift_index in H as [[message Hs] Hrest].
    destruct (IH _ Hrest) as [Hlen Hall].
    cbn [loopErrors]. rewrite Hs. split; [simpl; congruence|].
    intros [|p] x Hp.
    + injection Hp as <-. exists message. rewrite Nat.add_0_r. auto.
    + destruct (Hall p x Hp) as (m & Hm & Hl). exists m.
      replace (i + S p) with (i + 1 + p) by lia. auto.
Qed.

(** Every collected track carries the 1-based position of a song whose
    pipeline returned that track's key. *)
Lemma loopTracks_origin (rest : list song) (i : nat) :
  Forall (λ t, ∃ p s, rest !! p = Some s
                      ∧ trackNumber t = i + p + 1
                      ∧ t_title t = title s
                      ∧ result (uploadSong creds w (i + p) s) = Returned (key t))
         (loopTracks creds w rest i).
Proof.
  revert i. induction rest as [|s rest IH]; intros i; [constructor|].
  assert (Hrest : Forall (λ t, ∃ p x, (s :: rest) !! p = Some x
                      ∧ trackNumber t = i + p + 1
                      ∧ t_title t = title x
                      ∧ result (uploadSong creds w (i + p) x) = Returned (key t))
                    (loopTracks creds w rest (i + 1))).
  { eapply Forall_impl; [apply IH|]. intros t (p & x & Hp & Hn & Ht & Hr).
    exists (S p), x. replace (i + S p) with (i + 1 + p) by lia.
    repeat split; auto; lia. }
  cbn [loopTracks]. destruct (result (uploadSong creds w i s)) as [k|message] eqn:Hs;
    [|exact Hrest].
  constructor; [|exact Hrest].
  exists 0, s. rewrite Nat.add_0_r. repeat split; auto.
Qed.

Lemma loopTracks_above (rest : list song) (i : nat) :
  Forall (λ n, i < n) (trackNumber <$> loopTracks creds w rest i).
Proof.
  rewrite Forall_fmap. eapply Forall_impl; [apply loopTracks_origin|].
  intros t (p & s & _ & Hn & _). simpl. lia.
Qed.

Lemma loopTracks_increasing (rest : list song) (i : nat) :
  StronglySorted lt (trackNumber <$> loopTracks creds w rest i).
Proof.
  revert i. induction rest as [|s rest IH]; intros i; [constructor|].
  cbn [loopTracks]. destruct (result (uploadSong creds w i s)) as [k|message];
    [|apply IH].
  rewrite fmap_cons. constructor; [apply IH|].
  eapply Forall_impl; [apply loopTracks_above|]. simpl. intros n Hn. lia.
Qed.

Lemma loopTracks_complete (rest : list song) (i p : nat) (s : song) (k : string) :
  rest !! p = Some s → result (uploadSong creds w (i + p) s) = Returned k →
  ∃ t, t ∈ loopTracks creds w rest i ∧ trackNumber t = i + p + 1 ∧ key t = k.
Proof.
  revert i p. induction rest as [|x rest IH]; intros i p Hp Hr; [discriminate|].
  destruct p as [|p].
  - injection Hp as ->. rewrite Nat.add_0_r in Hr. cbn [loopTracks]. rewrite Hr.
    eexists. split; [apply list_elem_of_here|]. simpl. split; [lia | reflexivity].
  - replace (i + S p) with (i + 1 + p) in Hr by lia.
    destruct (IH (i + 1) p Hp Hr) as (t & Hin & Hn & Hk).
    exists t. split; [|split; [lia | exact Hk]].
    cbn [loopTracks]. destruct (result (uploadSong creds w i x));
      [apply list_elem_of_further|]; exact Hin.
Qed.

(** The collected tracks are exactly the records pushed for the songs
    whose pipeline returns. *)
Lemma loopTracks_member (rest : list song) (i p : nat) (s : song) (k : string) :
  rest !! p = Some s → result (uploadSong creds w (i + p) s) = Returned k →
  {| t_title := title s; trackNumber := i + p + 1; key := k;
     t_duration := duration s; format := "mp3" |} ∈ loopTracks creds w rest i.
Proof.
  revert i p. induction rest as [|x rest IH]; intros i p Hp Hr; [discriminate|].
  destruct p as [|p].
  - injection Hp as ->. rewrite Nat.add_0_r in *. cbn [loopTracks]. rewrite Hr.
    apply list_elem_of_here.
  - replace (i + S p) with (i + 1 + p) in * by lia.
    pose proof (IH (i + 1) p Hp Hr) as Hin.
    cbn [loopTracks]. destruct (result (uploadSong creds w i x));
      [apply list_elem_of_further|]; exact Hin.
Qed.

Lemma loopTracks_records (rest : list song) (i : nat) (t : track) :
  t ∈ loopTracks creds w rest i →
  ∃ p s k, rest !! p = Some s
           ∧ result (uploadSong creds w (i + p) s) = Returned k
           ∧ t = {| t_title := title s; trackNumber := i + p + 1; key := k;
                    t_duration := duration s; format := "mp3" |}.
Proof.
  revert i. induction rest as [|x rest IH]; intros i Hin.
  - by apply elem_of_nil in Hin.
  - assert (Hrest : t ∈ loopTracks creds w rest (i + 1) →
                    ∃ p s k, (x :: rest) !! p = Some s
                             ∧ result (uploadSong creds w (i + p) s) = Returned k
                             ∧ t = {| t_title := title s; trackNumber := i + p + 1; key := k;
                                      t_duration := duration s; format := "mp3" |}).
    { intros H. destruct (IH _ H) as (p & s & k & Hp & Hr & ->).
      exists (S p), s, k. replace (i + S p) with (i + 1 + p) by lia. auto. }
    cbn [loopTracks] in Hin.
    destruct (result (uploadSong creds w i x)) as [k|message] eqn:Hx; [|auto].
    apply elem_of_cons in Hin as [->|Hin]; [|auto].
    exists 0, x, k. rewrite Nat.add_0_r. auto.
Qed.

Lemma loopTracks_all_succeeded (rest : list song) (i : nat) :
  (∀ p s, rest !! p = Some s → succeeds_at creds w (i + p) s) →
  trackNumber <$> loopTracks creds w rest i = seq (i + 1) (length rest).
Proof.
  revert i. induction rest as [|s rest IH]; intros i H; [reflexivity|].
  apply shift_index in H as [[k Hs] Hrest].
  cbn [loopTracks]. rewrite Hs, fmap_cons, (IH _ Hrest). simpl.
  replace (i + 1 + 1) with (S (i + 1)) by lia. reflexivity.
Qed.
End LoopFacts.

Section PublishTheorems.
Import Credentials Publish.
Variable JSON_stringify : content → string.

Lemma in_loop_keeps_open (e : effect) : in_loop e = true → keeps_open e = true.
Proof. destruct e as [ev| |[r|tok b]|ms|c p]; simpl; auto. Qed.

Lemma ends_properly_app (pre t : list effect) :
  Forall (λ e, keeps_open e = true) pre → ends_properly (pre ++ t) = ends_properly t.
Proof.
  induction 1 as [|e pre He _ IH]; [reflexivity|].
  destruct e as [ev| |r|ms|c p]; simpl in *; try discriminate; try exact IH.
  rewrite He. exact IH.
Qed.

Lemma ends_properly_sound (t : list effect) :
  ends_properly t = true →
  ∃ pre last, t = (pre ++ [Write last; End])%list
              ∧ Forall (λ e, keeps_open e = true) pre
              ∧ terminal last = true.
Proof.
  induction t as [|e t IH]; [discriminate|].
  destruct e as [ev| |r|ms|c p]; simpl; try discriminate.
  - destruct (per_file ev) eqn:P.
    + intros H. destruct (IH H) as (pre & last & -> & Hpre & Hlast).
      exists (Write ev :: pre), last. repeat split; auto.
    + destruct t as [|[| | | |] [|? ?]]; try discriminate. intros _.
      exists [], ev. repeat split; auto. unfold terminal. rewrite P. reflexivity.
  - intros H. destruct (IH H) as (pre & last & -> & Hpre & Hlast).
    exists (Net r :: pre), last. repeat split; auto.
  - intros H. destruct (IH H) as (pre & last & -> & Hpre & Hlast).
    exists (Wait ms :: pre), last. repeat split; auto.
  - intros H. destruct (IH H) as (pre & last & -> & Hpre & Hlast).
    exists (UpdateCardId c p :: pre), last. repeat split; auto.
Qed.

(** However the submission goes, the route's last part writes exactly one
    terminal event, closes the channel and returns. *)
Lemma finish_ends_properly playlistId pl creds w tracks errors :
  let tail := try_catch (finish JSON_stringify playlistId pl creds w tracks errors) catchAll in
  ends_properly tail.1 = true ∧ tail.2 = Returned tt.
Proof.
  unfold finish. destruct (length tracks =? 0)%nat; [split; reflexivity|].
  destruct (content_result w) as [msg|[[] st tx [card|msg]]]; try (split; reflexivity).
  destruct card as [[c|] cs]; [|split; reflexivity].
  cbn. destruct (truthy c && bool_decide (Some c ≠ yoto_card_id pl)); split; reflexivity.
Qed.

Lemma not_ready_length w songs :
  (0 <? length (notDownloaded w songs))%nat = false → notDownloaded w songs = [].
Proof. destruct (notDownloaded w songs); [reflexivity | discriminate]. Qed.

Lemma stream_ends_properly playlistId db w :
  let run := uploadPlaylistStream JSON_stringify playlistId db w in
  ends_properly (effects run) = true ∧ result run = Returned tt.
Proof.
  cbn zeta. unfold uploadPlaylistStream.
  destruct (getStoredCredentials (cred_store db)) as [creds|] eqn:Hc; [|split; reflexivity].
  destruct (playlists db !! playlistId) as [pl|] eqn:Hp; [|split; reflexivity].
  destruct (0 <? length _)%nat eqn:Hm; [split; reflexivity|].
  erewrite try_catch_bind by apply uploadLoop_result.
  unfold effects, result. cbn [fst snd].
  rewrite ends_properly_app.
  - apply finish_ends_properly.
  - eapply Forall_impl; [apply uploadLoop_in_loop | apply in_loop_keeps_open].
Qed.

(** C4. Whatever the stored state and the answers of the outside world,
    the effects of a publish run are some effects that leave the channel
    open (among the writes, only per-file events), then the write of
    exactly one terminal event, then the closing of the channel, and
    nothing after it; the route returns without an uncaught error. *)
Theorem stream_one_terminal_event_then_closed playlistId db w :
  let run := uploadPlaylistStream JSON_stringify playlistId db w in
  ∃ pre last,
    effects run = (pre ++ [Write last; End])%list
    ∧ Forall (λ e, keeps_open e = true) pre
    ∧ terminal last = true
    ∧ result run = Returned tt.
Proof.
  cbn zeta. destruct (stream_ends_properly playlistId db w) as [He Hr].
  destruct (ends_properly_sound _ He) as (pre & last & Heq & Hpre & Hlast).
  exists pre, last. auto.
Qed.

(** C9. After a logout, whatever was stored before, a publish call writes
    the not-connected error as its only event, closes the channel, and
    performs no network request at all. *)
Theorem publish_after_logout_fails_fast playlistId db w :
  let run := uploadPlaylistStream JSON_stringify playlistId (logout db) w in
  effects run = [Write (ev_error "Yoto not connected. Please login first." None None); End]
  ∧ network_calls (effects run) = []
  ∧ result run = Returned tt.
Proof.
  cbn zeta. unfold uploadPlaylistStream, logout. cbn [cred_store].
  rewrite get_after_clear. repeat split; reflexivity.
Qed.
End PublishTheorems.

Section ManifestTheorems.
Import Credentials Publish.
Variable JSON_stringify : content → string.

Lemma done_not_in_loop (t : list effect) card n errs :
  Forall (λ e, in_loop e = true) t → Write (ev_done card n errs) ∉ t.
Proof.
  intros Hall Hin. rewrite Forall_forall in Hall.
  specialize (Hall _ Hin). discriminate.
Qed.

(** What [finish] does with at least one uploaded track, by the answer of
    the content endpoint. *)
Lemma finish_submits playlistId pl creds w t tracks errors :
  let body := buildContent pl creds (t :: tracks) in
  let tail := try_catch (finish JSON_stringify playlistId pl creds w (t :: tracks) errors)
                catchAll in
  manifests tail.1 = [body]
  ∧ (∀ card n errs, Write (ev_done card n errs) ∈ tail.1 →
       n = length (t :: tracks)
       ∧ errs = (if (0 <? length errors)%nat then Some errors else None))
  ∧ (∀ r card, content_result w = Delivered r → ok r = true → json r = Returned card →
       ∃ pre, tail.1 = (pre ++ [Write (ev_done card (length (t :: tracks))
                                   (if (0 <? length errors)%nat then Some errors else None));
                                End])%list).
Proof.
  cbn zeta. unfold finish. cbn [length Nat.eqb].
  destruct (content_result w) as [msg|[[] st tx [card|msg]]]; cbn.
  2: { destruct card as [[c|] cs]; cbn;
         [destruct (truthy c && bool_decide (Some c ≠ yoto_card_id pl)); cbn|].
       all: split; [reflexivity|]; split.
       all: try (intros card' n errs Hin;
                 repeat (apply elem_of_cons in Hin as [Hin|Hin]; [try discriminate|]);
                 [injection Hin as -> -> ->; split; reflexivity
                 | by apply elem_of_nil in Hin]).
       all: intros r card' Hr _ Hj; injection Hr as <-; cbn in Hj; injection Hj as <-.
       - eexists [_; _; _; _; _]. reflexivity.
       - eexists [_; _; _]. reflexivity.
       - eexists [_; _; _]. reflexivity. }
  all: split; [reflexivity|]; split.
  all: try (intros card' n errs Hin;
            repeat (apply elem_of_cons in Hin as [Hin|Hin]; [discriminate|]);
            by apply elem_of_nil in Hin).
  all: intros r card' Hr Hok Hj; try discriminate; injection Hr as <-; discriminate.
Qed.




End ManifestTheorems.

Section OutcomeTheorems.
Import Credentials Publish.
Variable JSON_stringify : content → string.

(** C2. In a run that reaches the upload loop and in which the pipeline
    of every song throws, the effects are those of the loop (per-file
    events and upload requests only, so no manifest submission) followed
    by the terminal event [error: 'All uploads failed'] and the closing of
    the channel; the [errors] of that event hold, song by song and in
    playlist order, the title and message of every failure, which are also
    the failures reported by the per-file error events. *)
Theorem all_failed_ends_in_error playlistId db w creds pl songs :
  ready playlistId db w creds pl songs →
  (∀ i s, songs !! i = Some s → fails_at creds w i s) →
  let run := uploadPlaylistStream JSON_stringify playlistId db w in
  ∃ pre errors,
    effects run
      = (pre ++ [Write (ev_error "All uploads failed" (Some errors) None); End])%list
    ∧ Forall (λ e, in_loop e = true) pre
    ∧ errors = reported_failures (effects run)
    ∧ length errors = length songs
    ∧ (∀ i s, songs !! i = Some s →
         ∃ message, result (uploadSong creds w i s) = Thrown message
                    ∧ errors !! i = Some {| e_title := title s; e_error := message |})
    ∧ manifests (effects run) = []
    ∧ result run = Returned tt.
Proof.
  intros Hready Hfail. cbn zeta.
  rewrite (stream_ready JSON_stringify _ _ _ _ _ _ Hready). unfold effects, result.
  cbn [fst snd].
  rewrite (loopTracks_all_failed creds w songs 0 Hfail).
  destruct (loopErrors_all_failed creds w songs 0 Hfail) as [Hlen Hall].
  exists (uploadLoop creds w (length songs) songs 0 [] []).1, (loopErrors creds w songs 0).
  cbn. repeat split.
  - apply uploadLoop_in_loop.
  - rewrite reported_app, uploadLoop_reported. cbn. rewrite app_nil_r. reflexivity.
  - exact Hlen.
  - exact Hall.
  - rewrite manifests_app, (manifests_in_loop _ (uploadLoop_in_loop _ _ _ _ _ _ _)).
    reflexivity.
Qed.

Lemma submitted_manifest playlistId db w creds pl songs body :
  ready playlistId db w creds pl songs →
  body ∈ manifests (effects (uploadPlaylistStream JSON_stringify playlistId db w)) →
  body = buildContent pl creds (loopTracks creds w songs 0).
Proof.
  intros Hready. rewrite (stream_ready JSON_stringify _ _ _ _ _ _ Hready).
  unfold effects. cbn [fst].
  rewrite manifests_app, (manifests_in_loop _ (uploadLoop_in_loop _ _ _ _ _ _ _)).
  cbn [app]. destruct (loopTracks creds w songs 0) as [|t tracks].
  - cbn. intros H. by apply elem_of_nil in H.
  - destruct (finish_submits JSON_stringify playlistId pl creds w t tracks
                (loopErrors creds w songs 0)) as (-> & _).
    intros H. apply list_elem_of_singleton in H. exact H.
Qed.

(** C3, as the code has it. In a run that submits a manifest, the
    manifest is built from the tracks the upload loop returns: chapter [j]
    (from 0) has for key [String(j)] padded to two digits and carries the
    title, key and duration of the [j]-th track. The tracks are exactly
    the records pushed for the songs whose pipeline returned a key, each
    with the 1-based position of its song in the playlist as trackNumber,
    in increasing order of trackNumber. So the position of a song whose
    pipeline throws is no trackNumber; the trackNumbers are 1, 2, ..., n
    when every song was uploaded, and they are not when a failed song is
    followed by an uploaded one. *)
Theorem manifest_numbering_by_position playlistId db w creds pl songs body :
  ready playlistId db w creds pl songs →
  body ∈ manifests (effects (uploadPlaylistStream JSON_stringify playlistId db w)) →
  ∃ tracks errors,
    result (uploadLoop creds w (length songs) songs 0 [] []) = Returned (tracks, errors)
    ∧ manifests (effects (uploadPlaylistStream JSON_stringify playlistId db w)) = [body]
    ∧ length (chapters body) = length tracks
    ∧ (∀ j t, tracks !! j = Some t →
         chapters body !! j
         = Some {| ch_key := padStart0 2 (String_of_nat j);
                   ch_title := t_title t;
                   ch_tracks := [ {| ct_key := "01";
                                     ct_title := t_title t;
                                     ct_format := "aac";
                                     trackUrl := "yoto:#" +:+ key t;
                                     ct_type := "audio";
                                     ct_duration := default 0 (t_duration t) |} ] |})
    ∧ StronglySorted lt (trackNumber <$> tracks)
    ∧ (∀ t, t ∈ tracks ↔
            ∃ i s k, songs !! i = Some s
                     ∧ result (uploadSong creds w i s) = Returned k
                     ∧ t = {| t_title := title s; trackNumber := i + 1; key := k;
                              t_duration := duration s; format := "mp3" |})
    ∧ (∀ i s, songs !! i = Some s → fails_at creds w i s →
         i + 1 ∉ trackNumber <$> tracks)
    ∧ ((∀ i s, songs !! i = Some s → succeeds_at creds w i s) →
         contiguous (trackNumber <$> tracks))
    ∧ (∀ i j s s', (i < j)%nat →
         songs !! i = Some s → fails_at creds w i s →
         songs !! j = Some s' → succeeds_at creds w j s' →
         ¬ contiguous (trackNumber <$> tracks)).
Proof.
  intros Hready Hbody.
  exists (loopTracks creds w songs 0), (loopErrors creds w songs 0).
  pose proof (submitted_manifest _ _ _ _ _ _ _ Hready Hbody) as Heq.
  assert (Hiff : ∀ t, t ∈ loopTracks creds w songs 0 ↔
            ∃ i s k, songs !! i = Some s
                     ∧ result (uploadSong creds w i s) = Returned k
                     ∧ t = {| t_title := title s; trackNumber := i + 1; key := k;
                              t_duration := duration s; format := "mp3" |}).
  { intros t. split.
    - intros Hin. destruct (loopTracks_records creds w songs 0 t Hin)
        as (p & s & k & Hp & Hr & ->). exists p, s, k. auto.
    - intros (i & s & k & Hi & Hr & ->).
      apply (loopTracks_member creds w songs 0 i s k Hi Hr). }
  assert (Hgap : ∀ i s, songs !! i = Some s → fails_at creds w i s →
                   i + 1 ∉ trackNumber <$> loopTracks creds w songs 0).
  { intros i s Hi [message Hfail] Hin.
    apply list_elem_of_fmap in Hin as (t & Hn & Ht).
    apply Hiff in Ht as (i' & s' & k & Hi' & Hr & ->). cbn [trackNumber] in Hn.
    assert (i' = i) as -> by lia. rewrite Hi in Hi'. injection Hi' as <-.
    congruence. }
  split; [|split; [|split; [|split; [|split; [|split; [exact Hiff|split;
    [exact Hgap|split]]]]]]].
  - unfold result. rewrite uploadLoop_result. reflexivity.
  - destruct (manifests _) as [|b [|b' l]] eqn:Hm.
    + by apply elem_of_nil in Hbody.
    + apply list_elem_of_singleton in Hbody. congruence.
    + exfalso. revert Hm.
      rewrite (stream_ready JSON_stringify _ _ _ _ _ _ Hready). unfold effects. cbn [fst].
      rewrite manifests_app, (manifests_in_loop _ (uploadLoop_in_loop _ _ _ _ _ _ _)).
      cbn [app]. destruct (loopTracks creds w songs 0) as [|t tracks]; [discriminate|].
      destruct (finish_submits JSON_stringify playlistId pl creds w t tracks
                  (loopErrors creds w songs 0)) as (-> & _). discriminate.
  - rewrite Heq. cbn [chapters buildContent]. apply length_imap.
  - intros j t Hj. rewrite Heq. cbn [chapters buildContent].
    rewrite list_lookup_imap, Hj. reflexivity.
  - apply loopTracks_increasing.
  - intros Hall. unfold contiguous.
    rewrite (loopTracks_all_succeeded creds w songs 0 Hall), length_seq. reflexivity.
  - intros i j s s' Hij Hi Hfail Hj [k Hk] Hc. unfold contiguous in Hc.
    assert (Hin : j + 1 ∈ trackNumber <$> loopTracks creds w songs 0).
    { apply list_elem_of_fmap.
      exists {| t_title := title s'; trackNumber := j + 1; key := k;
                t_duration := duration s'; format := "mp3" |}.
      split; [reflexivity|]. apply Hiff. exists j, s', k. auto. }
    apply (Hgap i s Hi Hfail).
    rewrite Hc in Hin |- *. apply elem_of_seq in Hin. apply elem_of_seq. lia.
Qed.

End OutcomeTheorems.

Section DedupTheorem.
Import Credentials Publish.
Variable JSON_stringify : content → string.

End DedupTheorem.

(** ** Device-code login *)

Section DeviceTheorems.
Import Credentials DeviceAuth Client.
Variable token_sub : string → option string.

Lemma postPoll_no_session (st : state) (code : string) (answer : poll_result) :
  truthy code = true → deviceCodeSessions st !! code = None →
  postPoll token_sub (Some code) answer st = (invalid_session, st, []).
Proof. intros Hc Hs. unfold postPoll. rewrite Hc, Hs. reflexivity. Qed.

Lemma postPoll_ends_session (st : state) (code : string) (answer : poll_result) :
  truthy code = true → ends_session answer = true →
  deviceCodeSessions (postPoll token_sub (Some code) answer st).1.2 !! code = None.
Proof.
  intros Hc He. unfold postPoll. rewrite Hc. cbn [negb].
  destruct (deviceCodeSessions st !! code) as [sess|] eqn:Hs; [|exact Hs].
  destruct answer; try discriminate; cbn; apply lookup_delete_eq.
Qed.

(** C10. A poll request whose device code has no session in the table is
    answered with a 400 error, with no call to the authorization server
    and the state left as it was: 'Invalid or expired device code session'
    when the request carries a code, 'deviceCode is required' when the code
    is missing or empty. So, once a poll of a code has succeeded or failed
    for good, every later poll of that code is answered 'Invalid or expired
    device code session'. *)
Theorem poll_without_session_is_rejected (st : state) :
  (∀ deviceCode answer,
     (∀ code, deviceCode = Some code → deviceCodeSessions st !! code = None) →
     postPoll token_sub deviceCode answer st
     = (if truthy_opt deviceCode then invalid_session else missing_device_code, st, [])
     ∧ http_status invalid_session = 400 ∧ http_status missing_device_code = 400)
  ∧ (∀ code answer,
       truthy code = true → ends_session answer = true →
       let st' := (postPoll token_sub (Some code) answer st).1.2 in
       ∀ answer', postPoll token_sub (Some code) answer' st' = (invalid_session, st', [])).
Proof.
  split.
  - intros [code|] answer Hs; [|repeat split].
    specialize (Hs code eq_refl). cbn [truthy_opt].
    destruct (truthy code) eqn:Hc.
    + rewrite (postPoll_no_session st code answer Hc Hs). repeat split.
    + unfold postPoll. rewrite Hc. repeat split.
  - intros code answer Hc He st' answer'. apply postPoll_no_session; [exact Hc|].
    apply postPoll_ends_session; assumption.
Qed.

Lemma postPoll_slow_down_eq (st : state) (code : string) (sess : session) (advertised : Q) :
  truthy code = true → deviceCodeSessions st !! code = Some sess →
  postPoll token_sub (Some code) (SlowDown advertised) st
  = ({| http_status := 200;
        http_body := {| b_status := Some "pending"; b_message := None;
                        b_interval := Some (advertised / 1000)%Q;
                        b_error := None; b_details := None; b_session := None |} |},
     with_sessions (<[code := set_interval sess advertised]> (deviceCodeSessions st)) st,
     [PollForDeviceToken code (interval sess)]).
Proof. intros Hc Hs. unfold postPoll. rewrite Hc, Hs. reflexivity. Qed.

Lemma postPoll_pending_eq (st : state) (code : string) (sess : session) :
  truthy code = true → deviceCodeSessions st !! code = Some sess →
  postPoll token_sub (Some code) Pending st
  = ({| http_status := 200;
        http_body := {| b_status := Some "pending"; b_message := None;
                        b_interval := None;
                        b_error := None; b_details := None; b_session := None |} |},
     st, [PollForDeviceToken code (interval sess)]).
Proof. intros Hc Hs. unfold postPoll. rewrite Hc, Hs. reflexivity. Qed.

Lemma postPoll_calls (st : state) (code : string) (sess : session) (answer : poll_result) :
  truthy code = true → deviceCodeSessions st !! code = Some sess →
  (postPoll token_sub (Some code) answer st).2 = [PollForDeviceToken code (interval sess)].
Proof. intros Hc Hs. unfold postPoll. rewrite Hc, Hs. destruct answer; reflexivity. Qed.

Lemma slowed_session (st : state) (code : string) (sess : session) (advertised : Q) :
  deviceCodeSessions
    (with_sessions (<[code := set_interval sess advertised]> (deviceCodeSessions st)) st)
    !! code = Some (set_interval sess advertised).
Proof. unfold with_sessions. cbn [deviceCodeSessions]. apply lookup_insert_eq. Qed.

(** C6, as the code has it. When a poll of a live session is answered
    [slow_down] with a non-zero advertised interval and the next one
    [pending], the route has stored the advertised interval in the
    session and makes its next library call with it, and the browser
    waits the advertised interval after the first reply but the interval
    it was started with after the second. *)
Theorem slow_down_interval_is_not_kept (st : state) (code : string) (sess : session)
    (issued advertised : Q) :
  truthy code = true → deviceCodeSessions st !! code = Some sess →
  truthy_num (advertised / 1000) = true →
  let run := pollYotoLogin token_sub code issued [SlowDown advertised; Pending] st in
  interval <$> deviceCodeSessions run.2 !! code = Some advertised
  ∧ (∀ answer, (postPoll token_sub (Some code) answer run.2).2
               = [PollForDeviceToken code advertised])
  ∧ run.1 = [(advertised / 1000 * 1000)%Q; (issued * 1000)%Q].
Proof.
  intros Hc Hs Ha. cbn zeta. cbn [pollYotoLogin].
  rewrite (postPoll_slow_down_eq st code sess advertised Hc Hs).
  cbn [onReply http_body b_status b_interval String.eqb Ascii.eqb Bool.eqb].
  rewrite Ha.
  rewrite (postPoll_pending_eq _ code _ Hc (slowed_session st code sess advertised)).
  cbn [onReply http_body b_status b_interval String.eqb Ascii.eqb Bool.eqb fst snd].
  split; [|split; [|reflexivity]].
  - rewrite slowed_session. reflexivity.
  - intros answer.
    apply (postPoll_calls _ code _ answer Hc (slowed_session st code sess advertised)).
Qed.
(** C8. The pairing of the two tokens is broken by the poll route. When
    the library answers a poll of a live session with success, an access
    token and an empty refresh token, the route tells the browser that
    the login succeeded and saves both values as they are: the store,
    still a reachable one, then holds the access token next to an empty
    refresh token, and reading it gives no credentials. The refresh
    callback of the client, given the same two values, falls back to the
    refresh token it was built with, and the store it leaves is read as
    credentials. *)
Theorem poll_saves_an_empty_refresh_token (st : state) (code : string) (sess : session)
    (access : string) :
  truthy code = true → deviceCodeSessions st !! code = Some sess →
  truthy access = true →
  let answer := postPoll token_sub (Some code) (Success access EmptyString) st in
  let after := cred_store answer.1.2 in
  (http_status answer.1.1 = 200 ∧ b_status (http_body answer.1.1) = Some "success")
  ∧ settings after !! yoto_access_token = Some access
  ∧ settings after !! yoto_refresh_token = Some EmptyString
  ∧ getStoredCredentials after = None
  ∧ (reachable (cred_store st) → reachable after)
  ∧ (∀ creds, truthy (refreshToken creds) = true →
       let kept := onTokenRefresh creds access (Some EmptyString) (cred_store st) in
       settings kept !! yoto_access_token = Some access
       ∧ settings kept !! yoto_refresh_token = Some (refreshToken creds)
       ∧ ∃ u, getStoredCredentials kept
              = Some {| accessToken := access; refreshToken := refreshToken creds;
                        userId := u |}).
Proof.
  intros Hcode Hsess Haccess. cbn zeta. unfold postPoll. rewrite Hcode, Hsess.
  cbn [negb fst snd http_status http_body b_status cred_store].
  split; [split; reflexivity|]. split; [apply save_lookup_access|].
  split; [apply save_lookup_refresh|]. split; [|split].
  - unfold getStoredCredentials.
    rewrite save_lookup_access, save_lookup_refresh. cbn [truthy_opt accessToken refreshToken].
    rewrite Haccess. reflexivity.
  - intros Hr. apply reach_save, Hr.
  - intros creds Hrefresh. cbn zeta. unfold onTokenRefresh.
    cbn [truthy]. split; [rewrite save_lookup_access; reflexivity|].
    split; [rewrite save_lookup_refresh; reflexivity|].
    unfold getStoredCredentials.
    rewrite save_lookup_access, save_lookup_refresh.
    cbn [truthy_opt accessToken refreshToken]. rewrite Haccess, Hrefresh.
    eexists. reflexivity.
Qed.
End DeviceTheorems.

(** ** The properties on the sample runs *)

Section Samples.
Import Credentials Publish Examples.

Lemma sample_ready answer :
  ready "p1" db (second_fails answer) creds mix [one; two; three].
Proof. split; reflexivity. Defined.

Lemma sample_all_fail_ready : ready "p1" db all_fail creds mix [one; two; three].
Proof. split; reflexivity. Defined.

Lemma credentials_both_or_neither_witness :
  let st := saveCredentials creds {| settings := ∅; yotoClient := None |} in
  reachable st ∧ (has_access st ↔ has_refresh st)
  ∧ getStoredCredentials (clearCredentials st) = None.
Proof.
  pose proof (reach_save creds _ reach_init) as Hr.
  split; [exact Hr|]. split.
  - exact (proj1 (credentials_both_or_neither _ Hr)).
  - apply (proj2 (proj2 (proj2 (credentials_both_or_neither _ Hr)))).
    vm_compute. intros [[x Hx] _]. discriminate.
Defined.



Lemma sample_all_fail (i : nat) (s : song) :
  [one; two; three] !! i = Some s → fails_at creds all_fail i s.
Proof.
  destruct i as [|[|[|i]]]; intros H; try discriminate; injection H as <-;
    exists "Failed to upload to S3: 403"; reflexivity.
Defined.

Lemma all_failed_ends_in_error_witness :
  ∃ pre errors,
    effects (uploadPlaylistStream stringify "p1" db all_fail)
      = (pre ++ [Write (ev_error "All uploads failed" (Some errors) None); End])%list
    ∧ length errors = 3
    ∧ manifests (effects (uploadPlaylistStream stringify "p1" db all_fail)) = [].
Proof.
  destruct (all_failed_ends_in_error stringify "p1" db all_fail creds mix
              [one; two; three] sample_all_fail_ready sample_all_fail)
    as (pre & errors & Heff & _ & _ & Hlen & _ & Hm & _).
  exists pre, errors. split; [exact Heff|]. split; [exact Hlen | exact Hm].
Defined.

(** C3, as stated, fails: in the run where the transfer of track 2 is
    refused, the upload loop returns the tracks numbered 1 and 3, and the
    manifest built from them is submitted. *)
Lemma trackNumbers_skip_a_failed_track :
  let w := second_fails accepted in
  let run := uploadPlaylistStream stringify "p1" db w in
  let t1 := {| t_title := "one"; trackNumber := 1; key := "key-1";
               t_duration := Some 180; format := "mp3" |} in
  let t3 := {| t_title := "three"; trackNumber := 3; key := "key-3";
               t_duration := Some 180; format := "mp3" |} in
  result (uploadLoop creds w 3 [one; two; three] 0 [] [])
    = Returned ([t1; t3], [ {| e_title := "two";
                               e_error := "Failed to upload to S3: 403" |} ])
  ∧ manifests (effects run) = [buildContent mix creds [t1; t3]]
  ∧ (λ c, (ch_key c, ch_title c)) <$> chapters (buildContent mix creds [t1; t3])
    = [("00", "one"); ("01", "three")]
  ∧ trackNumber <$> [t1; t3] = [1; 3]
  ∧ ¬ contiguous (trackNumber <$> [t1; t3]).
Proof.
  cbn zeta. split; [reflexivity|]. split; [reflexivity|]. split; [reflexivity|].
  split; [reflexivity|]. intros H. discriminate H.
Qed.

Lemma manifest_numbering_by_position_witness :
  let w := second_fails accepted in
  ∃ tracks errors,
    result (uploadLoop creds w 3 [one; two; three] 0 [] []) = Returned (tracks, errors)
    ∧ StronglySorted lt (trackNumber <$> tracks)
    ∧ (2 ∉ trackNumber <$> tracks)
    ∧ ¬ contiguous (trackNumber <$> tracks).
Proof.
  cbn zeta.
  assert (Hin : buildContent mix creds
                  (loopTracks creds (second_fails accepted) [one; two; three] 0)
                ∈ manifests (effects (uploadPlaylistStream stringify "p1" db
                                        (second_fails accepted)))).
  { vm_compute. apply list_elem_of_here. }
  destruct (manifest_numbering_by_position stringify "p1" db (second_fails accepted)
              creds mix [one; two; three] _ (sample_ready accepted) Hin)
    as (tracks & errors & Hloop & _ & _ & _ & Hsorted & _ & Hgap & _ & Hskip).
  exists tracks, errors. split; [exact Hloop|]. split; [exact Hsorted|]. split.
  - apply (Hgap 1 two eq_refl). exists "Failed to upload to S3: 403". reflexivity.
  - apply (Hskip 1 2 two three); [lia | reflexivity | | reflexivity |].
    + exists "Failed to upload to S3: 403". reflexivity.
    + exists "key-3". reflexivity.
Defined.




End Samples.

Section LoginSamples.
Import Credentials DeviceAuth Client Examples.

Lemma poll_without_session_is_rejected_witness :
  postPoll sub_of (Some "device-2") Pending code_issued = (invalid_session, code_issued, [])
  ∧ let st' := (postPoll sub_of (Some "device-1") (Success "access" "refresh") code_issued).1.2 in
    postPoll sub_of (Some "device-1") Pending st' = (invalid_session, st', []).
Proof.
  split.
  - apply (proj1 (poll_without_session_is_rejected sub_of code_issued)
             (Some "device-2") Pending).
    intros code H. injection H as <-. reflexivity.
  - apply (proj2 (poll_without_session_is_rejected sub_of code_issued)
             "device-1" (Success "access" "refresh") eq_refl eq_refl).
Defined.

Lemma poll_saves_an_empty_refresh_token_witness :
  let answer := postPoll sub_of (Some "device-1") (Success "access" EmptyString) code_issued in
  reachable (cred_store answer.1.2)
  ∧ settings (cred_store answer.1.2) !! yoto_access_token = Some "access"
  ∧ settings (cred_store answer.1.2) !! yoto_refresh_token = Some EmptyString
  ∧ getStoredCredentials (cred_store answer.1.2) = None.
Proof.
  destruct (poll_saves_an_empty_refresh_token sub_of code_issued "device-1"
              {| createdAt := 0; expiresIn := 300; interval := (5 * 1000)%Q |} "access"
              eq_refl eq_refl eq_refl) as (_ & Ha & Hr & Hg & Hreach & _).
  split; [apply Hreach, reach_init|]. split; [exact Ha|]. split; [exact Hr | exact Hg].
Defined.

Lemma slow_down_interval_is_not_kept_witness :
  let run := pollYotoLogin sub_of "device-1" 5 [SlowDown 10000; Pending] code_issued in
  interval <$> deviceCodeSessions run.2 !! "device-1" = Some 10000%Q
  ∧ Qred <$> run.1 = [10000%Q; 5000%Q].
Proof.
  destruct (slow_down_interval_is_not_kept sub_of code_issued "device-1"
              {| createdAt := 0; expiresIn := 300; interval := (5 * 1000)%Q |} 5 10000
              eq_refl eq_refl eq_refl) as (Hs & _ & Hw).
  split; [exact Hs|]. rewrite Hw. reflexivity.
Defined.

(** The whole login on one input: the code is issued with a 5-second
    interval; the polls are answered [slow_down] (10 seconds), [pending],
    [pending]. The session ends with the 10-second interval, and the
    browser has waited 10, 5 and 5 seconds. *)
Example login_waits :
  let run := startYotoLogin sub_of 0 (Returned issued)
               [SlowDown 10000; Pending; Pending] no_sessions in
  Qred <$> run.1 = [10000%Q; 5000%Q; 5000%Q]
  ∧ Qred <$> (interval <$> deviceCodeSessions run.2 !! "device-1") = Some 10000%Q.
Proof. split; reflexivity. Qed.
End LoginSamples.

(** * Further properties *)

(** ** Credentials, status and the cached client *)

Section StoreProperties.
Import Credentials Routes.

Lemma save_lookup_user (c : credentials) (st : store) :
  settings (saveCredentials c st) !! yoto_user_id
  = if truthy_opt (userId c) then userId c else settings st !! yoto_user_id.
Proof.
  unfold saveCredentials, upsert; simpl.
  destruct (userId c) as [u|]; simpl; [destruct (truthy u) eqn:Hu|].
  - apply lookup_insert_eq.
  - rewrite !lookup_insert_ne by discriminate. reflexivity.
  - rewrite !lookup_insert_ne by discriminate. reflexivity.
Qed.

(** X1. What was saved is what is read back, provided both tokens are
    non-empty; with an empty token the store reads as holding no
    credentials. A save without a user id leaves the stored one in place. *)
Theorem saved_credentials_are_read_back (c : credentials) (st : store) :
  getStoredCredentials (saveCredentials c st)
  = if truthy (accessToken c) && truthy (refreshToken c)
    then Some {| accessToken := accessToken c;
                 refreshToken := refreshToken c;
                 userId := if truthy_opt (userId c) then userId c
                           else settings st !! yoto_user_id |}
    else None.
Proof.
  unfold getStoredCredentials.
  rewrite save_lookup_access, save_lookup_refresh, save_lookup_user. cbn [truthy_opt].
  destruct (truthy (accessToken c)), (truthy (refreshToken c)); reflexivity.
Qed.

Lemma stored_tokens_truthy (st : store) (c : credentials) :
  getStoredCredentials st = Some c →
  truthy (accessToken c) = true ∧ truthy (refreshToken c) = true.
Proof.
  unfold getStoredCredentials.
  destruct (settings st !! yoto_access_token) as [a|]; [|discriminate].
  destruct (settings st !! yoto_refresh_token) as [r|];
    [|cbn; rewrite orb_true_r; discriminate].
  cbn [truthy_opt]. destruct (truthy a) eqn:Ha, (truthy r) eqn:Hr; try discriminate.
  cbn. intros H. injection H as <-. auto.
Qed.

(** X2. The three flags of the status route are always equal: the stored
    credentials count as configured exactly when both tokens are there. *)
Theorem status_flags_agree (st : store) :
  hasToken (getAuthStatus st) = configured (getAuthStatus st)
  ∧ hasRefreshToken (getAuthStatus st) = configured (getAuthStatus st)
  ∧ (configured (getAuthStatus st) = true ↔
       truthy_opt (settings st !! yoto_access_token) = true
       ∧ truthy_opt (settings st !! yoto_refresh_token) = true).
Proof.
  unfold getAuthStatus. cbn [configured hasToken hasRefreshToken].
  destruct (getStoredCredentials st) as [c|] eqn:Hc.
  - destruct (stored_tokens_truthy st c Hc) as [-> ->]. repeat split; auto.
    + unfold getStoredCredentials in Hc.
      destruct (truthy_opt (settings st !! yoto_access_token)); [reflexivity|discriminate].
    + unfold getStoredCredentials in Hc.
      destruct (truthy_opt (settings st !! yoto_access_token)),
               (truthy_opt (settings st !! yoto_refresh_token)); try reflexivity;
        discriminate.
  - repeat split; auto; try discriminate.
    intros [Ha Hr]. unfold getStoredCredentials in Hc. rewrite Ha, Hr in Hc. cbn in Hc.
    destruct (settings st !! yoto_access_token), (settings st !! yoto_refresh_token);
      discriminate.
Qed.

(** X3. The cached client never outlives the credentials it was built from:
    after a save the next client is built from what the save stored, after
    a clear there is none and the card routes answer 401 without a call;
    between such changes the client built once is the one handed out. *)
Theorem cached_client_follows_credentials
    (construct : credentials → option client) (st : store) :
  (∀ c, (getYotoClient construct (saveCredentials c st)).1
        = getStoredCredentials (saveCredentials c st) ≫= construct)
  ∧ (getYotoClient construct (clearCredentials st)).1 = None
  ∧ (∀ (answer : outcome string),
       getCards construct answer (clearCredentials st)
       = (Failed 401 "Yoto not connected. Please login first." None, clearCredentials st, [])
       ∧ getCard construct answer (clearCredentials st)
         = (Failed 401 "Yoto not connected. Please login first." None, clearCredentials st, []))
  ∧ (∀ cl construct',
       (getYotoClient construct st).1 = Some cl →
       getYotoClient construct' (getYotoClient construct st).2
       = (Some cl, (getYotoClient construct st).2)).
Proof.
  split; [|split; [|split]].
  - intros c. unfold getYotoClient. cbn [yotoClient saveCredentials].
    destruct (getStoredCredentials (saveCredentials c st)) as [creds|]; [|reflexivity].
    cbn. destruct (construct creds); reflexivity.
  - unfold getYotoClient. cbn [yotoClient clearCredentials].
    rewrite get_after_clear. reflexivity.
  - intros answer. unfold getCards, getCard, getWithClient, getYotoClient.
    cbn [yotoClient clearCredentials]. rewrite get_after_clear. split; reflexivity.
  - intros cl construct'. unfold getYotoClient.
    destruct (yotoClient st) as [c0|] eqn:Hy.
    + cbn. intros H. injection H as ->. rewrite Hy. reflexivity.
    + destruct (getStoredCredentials st) as [creds|]; [|discriminate].
      destruct (construct creds) as [c1|]; [|discriminate].
      cbn. intros H. injection H as ->. reflexivity.
Qed.
End StoreProperties.

(** ** Device-code sessions *)

Section SessionProperties.
Import Credentials DeviceAuth Routes.
Variable token_sub : string → option string.

(** X4. Asking for a device code records a session for that code, with the
    interval in milliseconds, and leaves every other session and the
    credentials as they were: an earlier login attempt can still be
    polled. When the request fails nothing is recorded. *)
Theorem device_code_adds_one_session (now : nat) (da : deviceAuth) (st : state) :
  let st' := (postDeviceCode now (Returned da) st).1.2 in
  deviceCodeSessions st' !! device_code da
    = Some {| createdAt := now; expiresIn := expires_in da;
              interval := (da_interval da * 1000)%Q |}
  ∧ (∀ code, code ≠ device_code da →
       deviceCodeSessions st' !! code = deviceCodeSessions st !! code)
  ∧ cred_store st' = cred_store st
  ∧ (truthy (device_code da) = true →
     ∀ answer, (postPoll token_sub (Some (device_code da)) answer st').2
               = [PollForDeviceToken (device_code da) (da_interval da * 1000)%Q])
  ∧ (∀ message, (postDeviceCode now (Thrown message) st).1.2 = st).
Proof.
  cbn zeta. cbn [postDeviceCode fst snd with_sessions deviceCodeSessions cred_store].
  split; [apply lookup_insert_eq|]. split; [|split; [reflexivity|split; [|reflexivity]]].
  - intros code Hne. apply lookup_insert_ne. congruence.
  - intros Hc answer. unfold postPoll. rewrite Hc.
    cbn [negb with_sessions deviceCodeSessions].
    rewrite lookup_insert_eq. destruct answer; reflexivity.
Qed.

(** X5. A poll touches nothing but its own session, and the credentials only
    when it succeeds: a pending answer changes nothing at all, and the
    sessions of other codes are never changed. *)
Theorem poll_touches_only_its_session (deviceCode : option string) (answer : poll_result)
    (st : state) :
  let st' := (postPoll token_sub deviceCode answer st).1.2 in
  (∀ other, deviceCode ≠ Some other →
     deviceCodeSessions st' !! other = deviceCodeSessions st !! other)
  ∧ (cred_store st' ≠ cred_store st →
       ∃ code sess access refresh,
         deviceCode = Some code ∧ deviceCodeSessions st !! code = Some sess
         ∧ answer = Success access refresh
         ∧ cred_store st' = saveCredentials {| accessToken := access;
                                               refreshToken := refresh;
                                               userId := token_sub access |} (cred_store st))
  ∧ (answer = Pending → st' = st).
Proof.
  cbn zeta. unfold postPoll.
  destruct deviceCode as [code|]; [|cbn; repeat split; auto; congruence].
  destruct (truthy code); cbn [negb]; [|cbn; repeat split; auto; congruence].
  destruct (deviceCodeSessions st !! code) as [sess|] eqn:Hs;
    [|cbn; repeat split; auto; congruence].
  destruct answer as [access refresh| |advertised|description message];
    cbn [fst snd with_sessions deviceCodeSessions cred_store].
  - split; [|split; [|discriminate]].
    + intros other Hne. apply lookup_delete_ne. congruence.
    + intros _. exists code, sess, access, refresh. auto.
  - destruct st. repeat split; auto; congruence.
  - split; [|split; [congruence|discriminate]].
    intros other Hne. apply lookup_insert_ne. congruence.
  - split; [|split; [congruence|discriminate]].
    intros other Hne. apply lookup_delete_ne. congruence.
Qed.

(** X6. From login to logout: a successful poll of a live session with
    non-empty tokens makes the status route report a configured store,
    holding the tokens of the answer; a logout after it makes the status
    route report nothing configured. *)
Theorem login_then_logout (st : state) (code : string) (sess : session)
    (access refresh : string) :
  truthy code = true → deviceCodeSessions st !! code = Some sess →
  truthy access = true → truthy refresh = true →
  let st' := (postPoll token_sub (Some code) (Success access refresh) st).1.2 in
  getAuthStatus (cred_store st')
    = {| configured := true; hasToken := true; hasRefreshToken := true |}
  ∧ (accessToken <$> getStoredCredentials (cred_store st') = Some access
     ∧ refreshToken <$> getStoredCredentials (cred_store st') = Some refresh)
  ∧ getAuthStatus (clearCredentials (cred_store st'))
    = {| configured := false; hasToken := false; hasRefreshToken := false |}.
Proof.
  intros Hc Hs Ha Hr. cbn zeta. unfold postPoll. rewrite Hc, Hs.
  cbn [negb fst snd cred_store]. unfold getAuthStatus.
  rewrite get_after_clear. unfold getStoredCredentials.
  rewrite save_lookup_access, save_lookup_refresh, save_lookup_user.
  cbn [accessToken refreshToken truthy_opt]. rewrite Ha, Hr. cbn. rewrite Ha, Hr. auto.
Qed.
End SessionProperties.

(** ** The upload client, step by step *)

Section ClientProperties.
Import Upload UploadTrace.

Lemma reportedKey_reportsKey (a : fetch_result statusData) :
  reportsKey a = match reportedKey a with Some _ => true | None => false end.
Proof.
  destruct a as [m|[[] st tx [sd|m]]]; cbn; try reflexivity.
Qed.

Lemma statusRound_key u t a k :
  (statusRound u t a).2 = Returned (Some k) → reportedKey a = Some k.
Proof.
  destruct a as [m|[[] st tx [sd|m]]]; cbn; try discriminate.
  destruct (completedKey (pickInfo sd)) as [k'|] eqn:K; cbn.
  - congruence.
  - destruct (logProgress_spec (pickInfo sd)) as (logs & -> & _). cbn. discriminate.
Qed.

Lemma rounds_S n u t : rounds (S n) u t = (round u t ++ rounds n u t)%list.
Proof. reflexivity. Qed.

(** The loop returns the key of the first answer that reports one. *)
Lemma statusLoop_found u t answers (remaining attempt n : nat) k :
  (n < remaining)%nat →
  (∀ i : nat, (attempt ≤ i < attempt + n)%nat →
     answered (answers i) = true ∧ reportsKey (answers i) = false) →
  reportedKey (answers (attempt + n)) = Some k →
  (statusLoop u t answers remaining attempt).2 = Returned (Some k)
  ∧ timeline (statusLoop u t answers remaining attempt).1 = rounds (S n) u t.
Proof.
  revert attempt n. induction remaining as [|remaining IH]; intros attempt n Hn Hbefore Hk;
    [lia|].
  rewrite statusLoop_step.
  destruct (statusRound_spec u t (answers attempt)) as [Ht Hr].
  pose proof (statusRound_key u t (answers attempt)) as Hkey.
  destruct (statusRound u t (answers attempt)) as [eff [[k'|]|msg]]; simpl in Ht, Hr.
  - destruct Hr as [Hr _]. destruct n as [|n].
    + rewrite Nat.add_0_r in Hk. rewrite (Hkey k' eq_refl) in Hk. injection Hk as ->.
      erewrite bind_returned by reflexivity. cbn [fst snd mret prog_ret].
      rewrite app_nil_r, Ht. split; reflexivity.
    + destruct (Hbefore attempt ltac:(lia)) as [_ Hno]. congruence.
  - destruct n as [|n].
    + rewrite Nat.add_0_r in Hk. destruct Hr as [Hr _].
      rewrite reportedKey_reportsKey, Hk in Hr. discriminate.
    + assert (Hn' : (n < remaining)%nat) by lia.
      assert (Hb' : ∀ i : nat, (attempt + 1 ≤ i < attempt + 1 + n)%nat →
                answered (answers i) = true ∧ reportsKey (answers i) = false).
      { intros i Hi. apply Hbefore. lia. }
      assert (Hk' : reportedKey (answers (attempt + 1 + n)) = Some k).
      { rewrite <- Hk. f_equal. f_equal. lia. }
      destruct (IH (attempt + 1) n Hn' Hb' Hk') as [Hres Htl].
      erewrite bind_returned by reflexivity. cbn [fst snd].
      erewrite bind_returned by reflexivity. cbn [fst snd log perform].
      rewrite !timeline_app, Ht, Htl. split; [exact Hres | reflexivity].
  - destruct n as [|n].
    + rewrite Nat.add_0_r in Hk. destruct Hr as [Hr _].
      rewrite reportedKey_reportsKey, Hk in Hr. discriminate.
    + destruct (Hbefore attempt ltac:(lia)) as [Ha _]. destruct Hr as [_ Hr]. congruence.
Qed.

Lemma statusLoop_returned u t answers (remaining attempt : nat) k :
  (statusLoop u t answers remaining attempt).2 = Returned (Some k) →
  ∃ n : nat, (n < remaining)%nat
    ∧ reportedKey (answers (attempt + n)) = Some k
    ∧ ∀ i : nat, (i < n)%nat → reportsKey (answers (attempt + i)) = false.
Proof.
  revert attempt. induction remaining as [|remaining IH]; intros attempt; [discriminate|].
  rewrite statusLoop_step.
  destruct (statusRound_spec u t (answers attempt)) as [_ Hr].
  pose proof (statusRound_key u t (answers attempt)) as Hkey.
  destruct (statusRound u t (answers attempt)) as [eff [[k'|]|msg]]; simpl in Hr.
  - erewrite bind_returned by reflexivity. cbn [fst snd mret prog_ret].
    intros H. injection H as ->. exists 0. rewrite Nat.add_0_r.
    split; [lia|]. split; [apply Hkey; reflexivity|]. intros i Hi. lia.
  - erewrite bind_returned by reflexivity. cbn [fst snd].
    erewrite bind_returned by reflexivity. cbn [fst snd].
    intros H. destruct (IH _ H) as (n & Hn & Hk & Hno).
    exists (S n). split; [lia|]. split.
    + replace (attempt + S n) with (attempt + 1 + n) by lia. exact Hk.
    + intros [|i] Hi.
      * rewrite Nat.add_0_r. apply Hr.
      * replace (attempt + S i) with (attempt + 1 + i) by lia. apply Hno. lia.
  - erewrite bind_thrown by reflexivity. discriminate.
Qed.

(** X7. The polling step returns the key of the first status answer that
    reports completion with a key, after one round per answer up to that
    one; a key it returns is never empty, and is such a first key. *)
Theorem polling_returns_first_key (uploadId token : string)
    (answers : nat → fetch_result statusData) :
  let polling := pollTranscoding uploadId token answers in
  (∀ (n : nat) k,
     (n < 30)%nat →
     (∀ i : nat, (i < n)%nat → answered (answers i) = true ∧ reportsKey (answers i) = false) →
     reportedKey (answers n) = Some k →
     result polling = Returned k
     ∧ timeline (effects polling) = rounds (S n) uploadId token)
  ∧ (∀ k, result polling = Returned k →
       truthy k = true
       ∧ ∃ n : nat, (n < 30)%nat ∧ reportedKey (answers n) = Some k
           ∧ ∀ i : nat, (i < n)%nat → reportsKey (answers i) = false).
Proof.
  cbn zeta. rewrite pollTranscoding_unfold. unfold effects, result. cbn [fst snd]. split.
  - intros n k Hn Hbefore Hk.
    destruct (statusLoop_found uploadId token answers 30 0 n k Hn) as [Hres Htl].
    { intros i Hi. apply Hbefore. lia. }
    { exact Hk. }
    rewrite Hres. split; [|exact Htl].
    assert (Ht : truthy k = true).
    { destruct (answers n) as [m|[[] st tx [sd|m]]]; cbn in Hk; try discriminate.
      eapply completedKey_truthy, Hk. }
    rewrite Ht. reflexivity.
  - intros k Hres.
    pose proof (statusLoop_returned uploadId token answers 30 0) as Hret.
    destruct (statusLoop uploadId token answers 30 0).2 as [[k'|]|e]; try discriminate.
    destruct (truthy k') eqn:Ht; [|discriminate].
    injection Hres as <-. split; [exact Ht|]. apply (Hret k' eq_refl).
Qed.
End ClientProperties.

Section RequestPlan.
Import Upload UploadTrace.

Lemma requests_app (t1 t2 : list action) :
  requests (t1 ++ t2) = (requests t1 ++ requests t2)%list.
Proof. apply omap_app. Qed.

Lemma waited_app (t1 t2 : list action) : waited (t1 ++ t2) = waited t1 + waited t2.
Proof. unfold waited. rewrite omap_app, sum_list_with_app. reflexivity. Qed.

Lemma requests_timeline (t : list action) : requests (timeline t) = requests t.
Proof.
  unfold requests, timeline. induction t as [|[m|r|ms] t IH]; cbn; rewrite ?IH; reflexivity.
Qed.

Lemma waited_timeline (t : list action) : waited (timeline t) = waited t.
Proof.
  unfold waited, timeline. induction t as [|[m|r|ms] t IH]; cbn; rewrite ?IH; reflexivity.
Qed.

Lemma requests_rounds n u t : requests (rounds n u t) = replicate n (GetTranscoded u t).
Proof. induction n as [|n IH]; [reflexivity|]. rewrite rounds_S. cbn. rewrite <- IH. reflexivity. Qed.

Lemma waited_rounds n u t : waited (rounds n u t) = n * 2000.
Proof.
  induction n as [|n IH]; [reflexivity|]. rewrite rounds_S, waited_app, IH. reflexivity.
Qed.

Lemma getUploadUrl_spec filePath token w :
  requests (getUploadUrl filePath token w).1 = [GetUploadUrl filePath token]
  ∧ waited (getUploadUrl filePath token w).1 = 0
  ∧ ∀ url id, (getUploadUrl filePath token w).2 = Returned (url, id) →
      ∃ r data, uploadUrl_result w = Delivered r ∧ ok r = true ∧ json r = Returned data
                ∧ upload_uploadUrl data = url ∧ upload_uploadId data = Some id
                ∧ truthy id = true.
Proof.
  unfold getUploadUrl.
  destruct (uploadUrl_result w) as [m|[[] st tx [data|m]]]; cbn;
    try (repeat split; intros; discriminate).
  destruct (upload_uploadId data) as [id|] eqn:Hid; cbn;
    [destruct (truthy id) eqn:Ht; cbn|]; repeat split; try (intros; discriminate).
  intros url id' H. injection H as <- <-. eexists _, data. repeat split; eauto.
Qed.

Lemma uploadToS3_spec url filePath w :
  waited (uploadToS3 url filePath w).1 = 0
  ∧ (truthy_opt url = false →
       requests (uploadToS3 url filePath w).1 = [] ∧ (uploadToS3 url filePath w).2 = Returned tt)
  ∧ (truthy_opt url = true →
       ∃ u, url = Some u ∧ requests (uploadToS3 url filePath w).1 = [PutFile u filePath]
            ∧ ((uploadToS3 url filePath w).2 = Returned tt →
               ∃ r, s3_result w = Delivered r ∧ ok r = true)).
Proof.
  unfold uploadToS3. destruct url as [u|]; cbn [truthy_opt].
  - destruct (truthy u); cbn.
    + destruct (s3_result w) as [m|[[] st tx js]]; cbn; repeat split; try discriminate;
        intros _; exists u; repeat split; try discriminate; eauto.
    + repeat split; discriminate.
  - repeat split; discriminate.
Qed.

(** X8. The requests of one file's pipeline, by whether the file can be
    read. When reading it throws, the pipeline does nothing at all (no
    log line, no request, no wait) and throws that error. When it is
    read, the requests are, in order: the slot request, then at most one
    PUT, then at most 30 status polls for the [uploadId] of the slot
    answer, with 2 seconds of waiting per poll and none elsewhere. Status
    polls are made only after a slot answer carrying an [uploadId] and,
    when there was a PUT, after it was answered ok. *)
Theorem upload_request_plan (filePath token : string) (w : script) :
  let run := uploadAudioToYoto filePath token w in
  (∀ message, readFileSync_result w = Thrown message →
     effects run = [] ∧ requests (effects run) = [] ∧ waited (effects run) = 0
     ∧ result run = Thrown message)
  ∧ (readFileSync_result w = Returned tt →
     ∃ (puts : list request) (n : nat) (id : string),
       requests (effects run)
         = (GetUploadUrl filePath token :: puts ++ replicate n (GetTranscoded id token))%list
       ∧ (puts = [] ∨ ∃ url, puts = [PutFile url filePath])
       ∧ (n ≤ 30)%nat
       ∧ waited (effects run) = n * 2000
       ∧ ((0 < n)%nat →
            (∃ r data, uploadUrl_result w = Delivered r ∧ ok r = true
                       ∧ json r = Returned data ∧ upload_uploadId data = Some id)
            ∧ (puts ≠ [] → ∃ r, s3_result w = Delivered r ∧ ok r = true))).
Proof.
  cbn zeta. unfold uploadAudioToYoto, effects, result. split.
  { intros message ->. erewrite bind_thrown by reflexivity. cbn. auto. }
  intros ->.
  erewrite (bind_returned (lift (Returned tt))) by reflexivity. cbn [fst snd lift app].
  destruct (getUploadUrl_spec filePath token w) as (Hreq1 & Hw1 & Hslot).
  destruct (getUploadUrl filePath token w) as [e1 [[url id]|m1]]; cbn [fst snd] in *.
  2: { erewrite bind_thrown by reflexivity. cbn [fst].
       exists [], 0, "". rewrite Hreq1, Hw1.
       split; [reflexivity|]. split; [auto|]. split; [lia|]. split; [reflexivity|]. lia. }
  destruct (Hslot url id eq_refl) as (r & data & Hr & Hok & Hj & Hurl & Hid & Htid).
  erewrite (bind_returned (e1, _)) by reflexivity. cbn [fst snd].
  destruct (uploadToS3_spec url filePath w) as (Hw2 & Hskip & Hput).
  destruct (pollTranscoding_bounded id token (transcoded_result w)) as (n & Hn & Htl).
  assert (Hpr : requests (pollTranscoding id token (transcoded_result w)).1
                = replicate n (GetTranscoded id token)).
  { rewrite <- requests_timeline. unfold effects in Htl. rewrite Htl. apply requests_rounds. }
  assert (Hpw : waited (pollTranscoding id token (transcoded_result w)).1 = n * 2000).
  { rewrite <- waited_timeline. unfold effects in Htl. rewrite Htl. apply waited_rounds. }
  destruct (truthy_opt url) eqn:Hu.
  - destruct (Hput eq_refl) as (u & -> & Hreq2 & Hs3).
    destruct (uploadToS3 (Some u) filePath w) as [e2 [[]|m2]]; cbn [fst snd] in *.
    + erewrite (bind_returned (e2, _)) by reflexivity. cbn [fst snd].
      exists [PutFile u filePath], n, id.
      rewrite !requests_app, !waited_app, Hreq1, Hreq2, Hpr, Hw1, Hw2, Hpw.
      split; [reflexivity|]. split; [eauto|]. split; [exact Hn|]. split; [lia|].
      intros _. split; [exists r, data; auto|]. intros _. apply Hs3. reflexivity.
    + erewrite bind_thrown by reflexivity. cbn [fst].
      exists [PutFile u filePath], 0, id.
      rewrite !requests_app, !waited_app, Hreq1, Hreq2, Hw1, Hw2.
      split; [reflexivity|]. split; [eauto|]. split; [lia|]. split; [lia|]. lia.
  - destruct (Hskip eq_refl) as [Hreq2 Hres2].
    destruct (uploadToS3 url filePath w) as [e2 res2]; cbn [fst snd] in *. subst res2.
    erewrite (bind_returned (e2, _)) by reflexivity. cbn [fst snd].
    exists [], n, id.
    rewrite !requests_app, !waited_app, Hreq1, Hreq2, Hpr, Hw1, Hw2, Hpw.
    split; [reflexivity|]. split; [auto|]. split; [exact Hn|]. split; [lia|].
    intros _. split; [exists r, data; auto|]. congruence.
Qed.
End RequestPlan.

(** ** The two publish routes *)

Section FallbackProperties.
Import Credentials Publish.
Variable JSON_stringify : content → string.

Lemma side_effects_app (t1 t2 : list effect) :
  Fallback.side_effects (t1 ++ t2) = (Fallback.side_effects t1 ++ Fallback.side_effects t2)%list.
Proof. apply List.filter_app. Qed.

Lemma side_effects_sink (t : list Upload.action) :
  Fallback.side_effects (as_effect <$> t) = omap Fallback.unlogged t.
Proof.
  unfold Fallback.side_effects. induction t as [|[m|r|ms] t IH]; cbn; rewrite ?IH; reflexivity.
Qed.

Lemma fallback_loop_cons creds w s rest i tracks errors :
  Fallback.uploadLoop creds w (s :: rest) i tracks errors =
  match result (uploadSong creds w i s) with
  | Returned k =>
      let next := Fallback.uploadLoop creds w rest (i + 1)
                    (tracks ++ [ {| t_title := title s; trackNumber := i + 1; key := k;
                                    t_duration := duration s; format := "mp3" |} ])
                    errors in
      ((omap Fallback.unlogged (effects (uploadSong creds w i s)) ++ next.1)%list, next.2)
  | Thrown message =>
      let next := Fallback.uploadLoop creds w rest (i + 1) tracks
                    (errors ++ [ {| e_title := title s; e_error := message |} ]) in
      ((omap Fallback.unlogged (effects (uploadSong creds w i s)) ++ next.1)%list, next.2)
  end.
Proof.
  cbn [Fallback.uploadLoop]. unfold result, effects.
  destruct (uploadSong creds w i s) as [eff [k|message]]; cbn;
    rewrite ?app_nil_r; reflexivity.
Qed.

(** The two loops make the same requests and collect the same tracks and
    errors. *)
Lemma loops_agree creds w total rest i tracks errors :
  (Fallback.uploadLoop creds w rest i tracks errors).1
  = Fallback.side_effects (uploadLoop creds w total rest i tracks errors).1
  ∧ (Fallback.uploadLoop creds w rest i tracks errors).2
    = (uploadLoop creds w total rest i tracks errors).2.
Proof.
  revert i tracks errors. induction rest as [|s rest IH]; intros i tracks errors.
  - split; reflexivity.
  - rewrite fallback_loop_cons, uploadLoop_cons.
    destruct (result (uploadSong creds w i s)) as [k|message]; cbn [fst snd];
      destruct (IH (i + 1)) with (tracks := tracks) (errors := errors) as [_ _];
      match goal with |- context [Fallback.uploadLoop creds w rest (i + 1) ?t ?e] =>
        destruct (IH (i + 1) t e) as [-> ->] end;
      (split; [|reflexivity]);
      change (Write ?e :: ?l) with ([Write e] ++ l)%list;
      rewrite !side_effects_app, side_effects_sink; reflexivity.
Qed.

Lemma last_event_app (t1 t2 : list effect) e :
  Fallback.last_event t2 = Some e → Fallback.last_event (t1 ++ t2) = Some e.
Proof.
  unfold Fallback.last_event. rewrite omap_app.
  destruct (omap _ t2) as [|x l] using rev_ind; [discriminate|].
  rewrite app_assoc, !last_snoc. auto.
Qed.

(** The two routes after their loops, on the same tracks and errors. *)
Lemma finishes_agree playlistId pl creds w tracks errors :
  let stream := try_catch (finish JSON_stringify playlistId pl creds w tracks errors)
                  catchAll in
  let direct := try_catch (Fallback.finish playlistId pl creds w tracks errors)
                  (λ message, mret (Fallback.Refused 500 "Failed to upload playlist"
                                      (Some message) None None)) in
  direct.1 = Fallback.side_effects stream.1
  ∧ match direct.2 with
    | Returned (Fallback.Uploaded card n errs) =>
        Fallback.last_event stream.1 = Some (ev_done card n errs)
    | Returned (Fallback.Refused code error details errs missing) =>
        ∃ e, Fallback.last_event stream.1 = Some (ev_error e errs missing)
             ∧ (details = None ∧ e = error
                ∨ details = Some e ∧ error = "Failed to upload playlist")
    | Thrown _ => False
    end.
Proof.
  cbn zeta. unfold finish, Fallback.finish.
  destruct (length tracks =? 0)%nat.
  { split; [reflexivity|]. cbn. eexists. split; [reflexivity|]. auto. }
  destruct (content_result w) as [msg|[[] st tx [card|msg]]]; cbn.
  2: { destruct card as [[c|] cs]; cbn;
         [destruct (truthy c && bool_decide (Some c ≠ yoto_card_id pl)); cbn|];
         split; reflexivity. }
  all: split; [reflexivity|]; eexists; split; [reflexivity|]; auto.
Qed.

(** X9. The non-streaming route is the streaming one without the channel: on
    the same database and the same answers of the outside world it makes
    the same requests, waits and database updates in the same order; it
    answers success exactly when the stream ends in [done], with the same
    card, track count and errors, and otherwise it answers an error whose
    text (or whose [details]) is the text of the stream's terminal error,
    with the same [errors] and [missing]. *)
Theorem fallback_agrees_with_stream playlistId db w :
  let stream := uploadPlaylistStream JSON_stringify playlistId db w in
  let direct := Fallback.postUploadPlaylist playlistId db w in
  effects direct = Fallback.side_effects (effects stream)
  ∧ match result direct with
    | Returned (Fallback.Uploaded card n errs) =>
        Fallback.last_event (effects stream) = Some (ev_done card n errs)
    | Returned (Fallback.Refused code error details errs missing) =>
        ∃ e, Fallback.last_event (effects stream) = Some (ev_error e errs missing)
             ∧ (details = None ∧ e = error
                ∨ details = Some e ∧ error = "Failed to upload playlist")
    | Thrown _ => False
    end.
Proof.
  cbn zeta. unfold uploadPlaylistStream, Fallback.postUploadPlaylist, effects, result.
  destruct (getStoredCredentials (cred_store db)) as [creds|];
    [|split; [reflexivity|]; eexists; split; [reflexivity|]; auto].
  destruct (playlists db !! playlistId) as [pl|];
    [|split; [reflexivity|]; eexists; split; [reflexivity|]; auto].
  destruct (0 <? length _)%nat;
    [split; [reflexivity|]; eexists; split; [reflexivity|]; auto|].
  set (songs := default [] (playlist_songs db !! playlistId)).
  destruct (loops_agree creds w (length songs) songs 0 [] []) as [Hl1 Hl2].
  erewrite (try_catch_bind (uploadLoop _ _ _ _ _ _ _)) by apply uploadLoop_result.
  erewrite (try_catch_bind (Fallback.uploadLoop _ _ _ _ _ _))
    by (rewrite Hl2; apply uploadLoop_result).
  cbn [fst snd app].
  destruct (finishes_agree playlistId pl creds w (loopTracks creds w songs 0)
              (loopErrors creds w songs 0)) as [Hf1 Hf2].
  rewrite side_effects_app, Hl1, Hf1. split; [reflexivity|].
  destruct (try_catch (Fallback.finish _ _ _ _ _ _) _).2 as [[card n errs|code error details errs missing]|m];
    [| |exact Hf2].
  - apply last_event_app, Hf2.
  - destruct Hf2 as (e & He & Hd). exists e. split; [apply last_event_app, He | exact Hd].
Qed.
End FallbackProperties.

(** ** Every song of a run *)

Section AccountingProperties.
Import Credentials Publish StreamTrace.
Variable JSON_stringify : content → string.

Lemma started_app (t1 t2 : list effect) :
  started (t1 ++ t2) = (started t1 ++ started t2)%list.
Proof. apply omap_app. Qed.

Lemma completed_app (t1 t2 : list effect) :
  completed (t1 ++ t2) = (completed t1 ++ completed t2)%list.
Proof. apply omap_app. Qed.

Lemma started_sink (t : list Upload.action) : started (as_effect <$> t) = [].
Proof. induction t as [|[m|r|ms] t IH]; cbn; auto. Qed.

Lemma completed_sink (t : list Upload.action) : completed (as_effect <$> t) = [].
Proof. induction t as [|[m|r|ms] t IH]; cbn; auto. Qed.

Lemma started_cons (e : effect) (t : list effect) :
  started (e :: t) = (started [e] ++ started t)%list.
Proof. apply (started_app [e] t). Qed.

Lemma completed_cons (e : effect) (t : list effect) :
  completed (e :: t) = (completed [e] ++ completed t)%list.
Proof. apply (completed_app [e] t). Qed.

Lemma loop_started creds w total rest i tracks errors :
  started (uploadLoop creds w total rest i tracks errors).1
  = imap (λ j s, (i + j + 1, total, title s)) rest.
Proof.
  revert i tracks errors. induction rest as [|s rest IH]; intros i tracks errors;
    [reflexivity|].
  rewrite uploadLoop_cons, imap_cons.
  destruct (result (uploadSong creds w i s)) as [k|message]; cbn [fst];
    rewrite (started_cons _ (_ ++ _)), started_app, started_sink,
      (started_cons _ (uploadLoop _ _ _ _ _ _ _).1), IH;
    cbn [started omap list_omap app];
    rewrite Nat.add_0_r; f_equal; apply imap_ext; intros j x _; cbn; f_equal; f_equal; lia.
Qed.

Lemma loop_completed creds w total rest i tracks errors :
  completed (uploadLoop creds w total rest i tracks errors).1
  = t_title <$> loopTracks creds w rest i.
Proof.
  revert i tracks errors. induction rest as [|s rest IH]; intros i tracks errors;
    [reflexivity|].
  rewrite uploadLoop_cons. cbn [loopTracks].
  destruct (result (uploadSong creds w i s)) as [k|message]; cbn [fst];
    rewrite (completed_cons _ (_ ++ _)), completed_app, completed_sink,
      (completed_cons _ (uploadLoop _ _ _ _ _ _ _).1), IH;
    reflexivity.
Qed.

Lemma loop_lengths creds w rest i :
  length (loopTracks creds w rest i) + length (loopErrors creds w rest i) = length rest.
Proof.
  revert i. induction rest as [|s rest IH]; intros i; [reflexivity|].
  cbn [loopTracks loopErrors]. specialize (IH (i + 1)).
  destruct (result (uploadSong creds w i s)); cbn [length]; lia.
Qed.

(** After the loop no per-song event is written, and a [done] event carries
    the number of tracks and the errors the loop collected. *)
Lemma finish_per_song playlistId pl creds w tracks errors :
  let tail := try_catch (finish JSON_stringify playlistId pl creds w tracks errors) catchAll in
  started tail.1 = [] ∧ completed tail.1 = [] ∧ reported_failures tail.1 = []
  ∧ ∀ card n errs, Write (ev_done card n errs) ∈ tail.1 →
      n = length tracks ∧ default [] errs = errors.
Proof.
  cbn zeta. destruct tracks as [|t tracks].
  - cbn. split; [reflexivity|split; [reflexivity|split; [reflexivity|]]].
    intros card n errs Hin.
    repeat (apply elem_of_cons in Hin as [Hin|Hin]; [discriminate|]).
    by apply elem_of_nil in Hin.
  - split; [|split; [|split]].
    4: { intros card n errs Hin.
         destruct (finish_submits JSON_stringify playlistId pl creds w t tracks errors)
           as (_ & Hd & _).
         destruct (Hd card n errs Hin) as [-> ->]. split; [reflexivity|].
         destruct errors; reflexivity. }
    all: unfold finish; cbn [length Nat.eqb];
      destruct (content_result w) as [msg|[[] st tx [card|msg]]]; cbn; try reflexivity;
      destruct card as [[c|] cs]; cbn; try reflexivity;
      destruct (truthy c && bool_decide (Some c ≠ yoto_card_id pl)); reflexivity.
Qed.

(** X10. In a run that reaches the loop every song is accounted for once: the
    [upload-start] events are one per song, in playlist order, numbered
    from 1 with the playlist's length as total; each song then gets either
    an [upload-complete] event (and a track) or an [upload-error] event
    (and an entry of [errors]); and in a [done] event [uploadedTracks] plus
    the number of [errors] is the number of songs. *)
Theorem every_song_is_accounted_for playlistId db w creds pl songs :
  ready playlistId db w creds pl songs →
  let run := uploadPlaylistStream JSON_stringify playlistId db w in
  started (effects run) = imap (λ i s, (i + 1, length songs, title s)) songs
  ∧ completed (effects run) = t_title <$> loopTracks creds w songs 0
  ∧ reported_failures (effects run) = loopErrors creds w songs 0
  ∧ length (completed (effects run)) + length (reported_failures (effects run))
    = length songs
  ∧ ∀ card n errs, Write (ev_done card n errs) ∈ effects run →
      n = length (completed (effects run))
      ∧ default [] errs = reported_failures (effects run)
      ∧ n + length (default [] errs) = length songs.
Proof.
  intros Hready. cbn zeta.
  rewrite (stream_ready JSON_stringify _ _ _ _ _ _ Hready). unfold effects. cbn [fst].
  destruct (finish_per_song playlistId pl creds w (loopTracks creds w songs 0)
              (loopErrors creds w songs 0)) as (Hs & Hc & Hf & Hd).
  rewrite started_app, completed_app, reported_app, Hs, Hc, Hf, !app_nil_r.
  rewrite loop_started, loop_completed, uploadLoop_reported.
  pose proof (loop_lengths creds w songs 0) as Hlen.
  split; [reflexivity|]. split; [reflexivity|]. split; [reflexivity|].
  rewrite length_fmap. split; [exact Hlen|].
  intros card n errs Hin. apply elem_of_app in Hin as [Hin|Hin].
  - exfalso. eapply done_not_in_loop; [apply uploadLoop_in_loop | exact Hin].
  - destruct (Hd card n errs Hin) as [-> ->]. auto.
Qed.
End AccountingProperties.

(** ** The manifest of a run *)

Section ManifestProperties.
Import Credentials Publish StreamTrace.
Variable JSON_stringify : content → string.

Lemma loopTracks_sublist creds w rest i :
  t_title <$> loopTracks creds w rest i `sublist_of` title <$> rest.
Proof.
  revert i. induction rest as [|s rest IH]; intros i; [constructor|].
  cbn [loopTracks]. destruct (result (uploadSong creds w i s)); rewrite !fmap_cons.
  - apply sublist_skip, IH.
  - apply sublist_cons, IH.
Qed.

Lemma chapter_titles (tracks : list track) :
  ch_title <$> imap toChapter tracks = t_title <$> tracks.
Proof.
  rewrite fmap_imap. change (λ n, ch_title ∘ toChapter n) with (λ (n : nat), t_title).
  apply imap_const.
Qed.

(** X11. The chapters of a submitted manifest follow the playlist: their titles
    are the titles of the uploaded songs, in playlist order with the failed
    ones left out; each chapter holds exactly one track, with the chapter's
    title, format 'aac', and the URL 'yoto:#' followed by the key its
    song's pipeline returned. *)
Theorem chapters_keep_playlist_order playlistId db w creds pl songs body :
  ready playlistId db w creds pl songs →
  body ∈ manifests (effects (uploadPlaylistStream JSON_stringify playlistId db w)) →
  ch_title <$> chapters body `sublist_of` title <$> songs
  ∧ ch_title <$> chapters body
    = completed (effects (uploadPlaylistStream JSON_stringify playlistId db w))
  ∧ (0 < length (chapters body) ≤ length songs)%nat
  ∧ ∀ ch, ch ∈ chapters body →
      ∃ ct i s k, ch_tracks ch = [ct] ∧ ct_title ct = ch_title ch ∧ ct_format ct = "aac"
                  ∧ ct_key ct = "01" ∧ ct_type ct = "audio"
                  ∧ songs !! i = Some s ∧ ch_title ch = title s
                  ∧ ct_duration ct = default 0 (duration s)
                  ∧ result (uploadSong creds w i s) = Returned k
                  ∧ trackUrl ct = "yoto:#" +:+ k.
Proof.
  intros Hready Hbody.
  pose proof (submitted_manifest JSON_stringify _ _ _ _ _ _ _ Hready Hbody) as ->.
  cbn [chapters buildContent]. rewrite chapter_titles.
  split; [apply loopTracks_sublist|]. split; [|split].
  - rewrite (stream_ready JSON_stringify _ _ _ _ _ _ Hready). unfold effects. cbn [fst].
    destruct (finish_per_song JSON_stringify playlistId pl creds w
                (loopTracks creds w songs 0) (loopErrors creds w songs 0)) as (_ & Hc & _).
    rewrite completed_app, Hc, app_nil_r, loop_completed. reflexivity.
  - rewrite length_imap. pose proof (loop_lengths creds w songs 0) as Hlen.
    split; [|lia].
    rewrite (stream_ready JSON_stringify _ _ _ _ _ _ Hready) in Hbody.
    unfold effects in Hbody. cbn [fst] in Hbody.
    rewrite manifests_app, (manifests_in_loop _ (uploadLoop_in_loop _ _ _ _ _ _ _)) in Hbody.
    destruct (loopTracks creds w songs 0); [|simpl; lia].
    cbn in Hbody. by apply elem_of_nil in Hbody.
  - intros ch Hch. apply elem_of_lookup_imap in Hch as (j & t & -> & Ht).
    pose proof (loopTracks_origin creds w songs 0) as Ho. rewrite Forall_forall in Ho.
    destruct (Ho t (list_elem_of_lookup_2 _ _ _ Ht)) as (p & s & Hp & Hn & Htitle & Hr).
    cbn [Nat.add] in Hr.
    eexists _, p, s, (key t). cbn. repeat split; auto.
    assert (Hd : t_duration t = duration s); [|rewrite Hd; reflexivity].
    clear -Ht Hp Hn. revert Ht Hp Hn. generalize 0 at 1 2. revert j p.
    induction songs as [|x rest IH]; intros j p i Ht Hp Hn; [discriminate|].
    cbn [loopTracks] in Ht. destruct p as [|p].
    + injection Hp as ->.
      destruct (result (uploadSong creds w i s)).
      * destruct j as [|j]; [injection Ht as <-; reflexivity|].
        cbn in Ht. pose proof (loopTracks_above creds w rest (i + 1)) as Ha.
        rewrite Forall_fmap, Forall_forall in Ha.
        specialize (Ha t (list_elem_of_lookup_2 _ _ _ Ht)). cbn in Ha. lia.
      * pose proof (loopTracks_above creds w rest (i + 1)) as Ha.
        rewrite Forall_fmap, Forall_forall in Ha.
        specialize (Ha t (list_elem_of_lookup_2 _ _ _ Ht)). cbn in Ha. lia.
    + destruct (result (uploadSong creds w i x)).
      * destruct j as [|j]; [injection Ht as <-; cbn in Hn; lia|].
        apply (IH j p (i + 1) Ht Hp). lia.
      * apply (IH j p (i + 1) Ht Hp). lia.
Qed.
End ManifestProperties.

Section CardProperties.
Import Credentials Publish StreamTrace.
Variable JSON_stringify : content → string.

Lemma card_updates_app (t1 t2 : list effect) :
  card_updates (t1 ++ t2) = (card_updates t1 ++ card_updates t2)%list.
Proof. apply omap_app. Qed.

Lemma card_updates_in_loop (t : list effect) :
  Forall (λ e, in_loop e = true) t → card_updates t = [].
Proof.
  induction 1 as [|e t He _ IH]; [reflexivity|].
  destruct e as [ev| |[r|tok b]|ms|c p]; try discriminate; exact IH.
Qed.

Lemma network_calls_app (t1 t2 : list effect) :
  network_calls (t1 ++ t2) = (network_calls t1 ++ network_calls t2)%list.
Proof. apply omap_app. Qed.

(** The card id written by [finish], by the answer of the content
    endpoint. *)
Lemma finish_card_updates playlistId pl creds w t tracks errors :
  card_updates
    (try_catch (finish JSON_stringify playlistId pl creds w (t :: tracks) errors) catchAll).1
  = match content_result w with
    | Delivered r =>
        if ok r then
          match json r with
          | Returned card =>
              match card_cardId card with
              | Some new => if truthy new && bool_decide (Some new ≠ yoto_card_id pl)
                            then [(new, playlistId)] else []
              | None => []
              end
          | Thrown _ => []
          end
        else []
    | Rejected _ => []
    end.
Proof.
  unfold finish. cbn [length Nat.eqb].
  destruct (content_result w) as [msg|[[] st tx [card|msg]]]; cbn; try reflexivity.
  destruct card as [[c|] cs]; cbn; try reflexivity.
  destruct (truthy c && bool_decide (Some c ≠ yoto_card_id pl)); reflexivity.
Qed.

(** X12. Create or update. The manifest of a run carries the card id stored
    with the playlist when there is one, and no card id otherwise. The run
    writes a card id to the playlist only when the content endpoint accepted
    the manifest and returned a non-empty id different from the stored one:
    never after a refusal, and not when the stored id comes back. *)
Theorem card_id_is_sent_and_kept playlistId db w creds pl songs :
  ready playlistId db w creds pl songs →
  let run := uploadPlaylistStream JSON_stringify playlistId db w in
  (∀ body, body ∈ manifests (effects run) →
     cardId body = (if truthy_opt (yoto_card_id pl) then yoto_card_id pl else None)
     ∧ c_userId body = userId creds ∧ c_title body = name pl)
  ∧ (∀ new id, (new, id) ∈ card_updates (effects run) →
       id = playlistId ∧ truthy new = true ∧ Some new ≠ yoto_card_id pl
       ∧ ∃ r card, content_result w = Delivered r ∧ ok r = true
                   ∧ json r = Returned card ∧ card_cardId card = Some new)
  ∧ (∀ r card, content_result w = Delivered r → ok r = true → json r = Returned card →
       loopTracks creds w songs 0 ≠ [] →
       card_updates (effects run)
       = match card_cardId card with
         | Some new => if truthy new && bool_decide (Some new ≠ yoto_card_id pl)
                       then [(new, playlistId)] else []
         | None => []
         end)
  ∧ (length (card_updates (effects run)) ≤ 1)%nat.
Proof.
  intros Hready. cbn zeta. split.
  { intros body Hbody.
    rewrite (submitted_manifest JSON_stringify _ _ _ _ _ _ _ Hready Hbody). auto. }
  rewrite (stream_ready JSON_stringify _ _ _ _ _ _ Hready). unfold effects. cbn [fst].
  rewrite card_updates_app, (card_updates_in_loop _ (uploadLoop_in_loop _ _ _ _ _ _ _)).
  cbn [app].
  destruct (loopTracks creds w songs 0) as [|t tracks].
  { cbn. split; [|split; [congruence|lia]].
    intros new id Hin. by apply elem_of_nil in Hin. }
  rewrite finish_card_updates.
  destruct (content_result w) as [msg|[okr st tx js]]; cbn [ok json].
  { split; [|split; [discriminate|cbn; lia]]. intros new id Hin. by apply elem_of_nil in Hin. }
  destruct okr.
  2: { split; [|split; [|cbn; lia]].
       - intros new id Hin. by apply elem_of_nil in Hin.
       - intros r card Hr Hok. injection Hr as <-. discriminate. }
  destruct js as [card|msg].
  2: { split; [|split; [|cbn; lia]].
       - intros new id Hin. by apply elem_of_nil in Hin.
       - intros r card Hr _ Hj. injection Hr as <-. discriminate. }
  split; [|split].
  - intros new id Hin. destruct (card_cardId card) as [c|] eqn:Hcard;
      [|by apply elem_of_nil in Hin].
    destruct (truthy c) eqn:Ht; cbn [andb] in Hin; [|by apply elem_of_nil in Hin].
    destruct (bool_decide (Some c ≠ yoto_card_id pl)) eqn:Hb; [|by apply elem_of_nil in Hin].
    apply list_elem_of_singleton in Hin. injection Hin as -> ->.
    apply bool_decide_eq_true in Hb. repeat split; auto. eauto 10.
  - intros r card' Hr _ Hj _. injection Hr as <-. cbn in Hj. injection Hj as <-. reflexivity.
  - destruct (card_cardId card) as [c|]; [|cbn; lia].
    destruct (truthy c && bool_decide (Some c ≠ yoto_card_id pl)); cbn; lia.
Qed.

(** X13. Nothing leaves the server unless the run reaches the loop: a run that
    makes a request or writes a card id has stored credentials, an existing
    playlist and every song's file on disk. *)
Theorem requests_need_a_ready_run playlistId db w :
  let run := uploadPlaylistStream JSON_stringify playlistId db w in
  network_calls (effects run) ≠ [] ∨ card_updates (effects run) ≠ [] →
  ∃ creds pl,
    ready playlistId db w creds pl (default [] (playlist_songs db !! playlistId))
    ∧ ∀ s, s ∈ default [] (playlist_songs db !! playlistId) →
        ∃ p, file_path s = Some p ∧ truthy p = true ∧ existsSync w p = true.
Proof.
  cbn zeta. unfold uploadPlaylistStream.
  destruct (getStoredCredentials (cred_store db)) as [creds|] eqn:Hc;
    [|cbn; intros [H|H]; congruence].
  destruct (playlists db !! playlistId) as [pl|] eqn:Hp;
    [|cbn; intros [H|H]; congruence].
  destruct (0 <? length _)%nat eqn:Hm; [cbn; intros [H|H]; congruence|].
  intros _. exists creds, pl. assert (Hnd := not_ready_length _ _ Hm).
  split; [split; auto|].
  intros s Hs.
  destruct (file_path s) as [p|] eqn:Hpath.
  - exists p. split; [reflexivity|].
    destruct (truthy p) eqn:Ht, (existsSync w p) eqn:He; auto; exfalso;
      apply (filter_nil_not_elem_of _ _ s Hnd); auto; rewrite Hpath, Ht, ?He; reflexivity.
  - exfalso. apply (filter_nil_not_elem_of _ _ s Hnd); auto. rewrite Hpath. reflexivity.
Qed.
End CardProperties.

(** ** Chapter keys *)

Section KeyProperties.
Import Credentials Publish StreamTrace.
Variable JSON_stringify : content → string.

Lemma key_index_String_of_nat (n : nat) : key_index (String_of_nat n) = Some n.
Proof.
  unfold key_index, String_of_nat, NilZero.string_of_uint.
  pose proof (Unsigned.of_to n) as Hn.
  destruct (Nat.to_uint n) as [|d|d|d|d|d|d|d|d|d|d] eqn:E;
    [cbn in *; congruence|..]; rewrite NilEmpty.usu; cbn [fmap option_fmap option_map];
    congruence.
Qed.

Lemma key_index_zeros (k : nat) (s : string) (n : nat) :
  key_index s = Some n → key_index (zeros k +:+ s) = Some n.
Proof.
  intros Hs. induction k as [|k IH]; [exact Hs|].
  unfold key_index in *.
  change (zeros (S k) +:+ s) with (String "0"%char (zeros k +:+ s)).
  cbn [NilEmpty.uint_of_string].
  destruct (NilEmpty.uint_of_string (zeros k +:+ s)) as [d|]; [|discriminate].
  exact IH.
Qed.

Lemma key_index_padStart (n : nat) : key_index (padStart0 2 (String_of_nat n)) = Some n.
Proof. apply key_index_zeros, key_index_String_of_nat. Qed.

Lemma length_zeros (k : nat) : String.length (zeros k) = k.
Proof. induction k; cbn; auto. Qed.

Lemma length_append (s1 s2 : string) :
  String.length (s1 +:+ s2) = String.length s1 + String.length s2.
Proof.
  induction s1 as [|c s1 IH]; [reflexivity|].
  change (String c s1 +:+ s2) with (String c (s1 +:+ s2)).
  cbn [String.length]. rewrite IH. reflexivity.
Qed.

(** X14. The key of chapter [j] of a submitted manifest reads back as the number
    [j]: the keys are the chapters' indexes from 0, all different, written
    with at least two digits. *)
Theorem chapter_keys_are_the_indexes playlistId db w creds pl songs body :
  ready playlistId db w creds pl songs →
  body ∈ manifests (effects (uploadPlaylistStream JSON_stringify playlistId db w)) →
  (∀ j ch, chapters body !! j = Some ch →
     key_index (ch_key ch) = Some j ∧ (2 ≤ String.length (ch_key ch))%nat)
  ∧ NoDup (ch_key <$> chapters body).
Proof.
  intros Hready Hbody.
  pose proof (submitted_manifest JSON_stringify _ _ _ _ _ _ _ Hready Hbody) as ->.
  cbn [chapters buildContent].
  assert (Hkey : ∀ j ch, imap toChapter (loopTracks creds w songs 0) !! j = Some ch →
                         key_index (ch_key ch) = Some j).
  { intros j ch Hj. rewrite list_lookup_imap in Hj.
    destruct (loopTracks creds w songs 0 !! j); [|discriminate].
    injection Hj as <-. apply key_index_padStart. }
  split.
  - intros j ch Hj. split; [apply Hkey, Hj|].
    rewrite list_lookup_imap in Hj.
    destruct (loopTracks creds w songs 0 !! j); [|discriminate]. injection Hj as <-.
    cbn [ch_key toChapter]. unfold padStart0. rewrite length_append, length_zeros. lia.
  - apply NoDup_alt. intros i j k Hi Hj.
    rewrite list_lookup_fmap in Hi, Hj.
    destruct (imap toChapter _ !! i) as [ci|] eqn:Ei; [|discriminate].
    destruct (imap toChapter _ !! j) as [cj|] eqn:Ej; [|discriminate].
    cbn in Hi, Hj. injection Hi as Hi. injection Hj as Hj.
    pose proof (Hkey i ci Ei) as H1. pose proof (Hkey j cj Ej) as H2.
    rewrite Hi in H1. rewrite Hj in H2. congruence.
Qed.
End KeyProperties.

(** ** The browser *)

Section DurationProperties.
Import StreamTrace Browser.

Lemma digits_no_colon (d : Decimal.uint) (r : string) :
  before_colon (NilEmpty.string_of_uint d +:+ ":" +:+ r) = NilEmpty.string_of_uint d
  ∧ after_colon (NilEmpty.string_of_uint d +:+ ":" +:+ r) = r.
Proof.
  induction d as [|d [IH1 IH2]|d [IH1 IH2]|d [IH1 IH2]|d [IH1 IH2]|d [IH1 IH2]
                  |d [IH1 IH2]|d [IH1 IH2]|d [IH1 IH2]|d [IH1 IH2]|d [IH1 IH2]];
    [split; reflexivity|..];
    cbn [NilEmpty.string_of_uint];
    match goal with |- context [String ?c ?s +:+ ?t] =>
      change (String c s +:+ t) with (String c (s +:+ t)) end;
    cbn [before_colon after_colon Ascii.eqb Bool.eqb]; rewrite IH1, IH2; split; reflexivity.
Qed.

Lemma String_of_nat_no_colon (n : nat) (r : string) :
  before_colon (String_of_nat n +:+ ":" +:+ r) = String_of_nat n
  ∧ after_colon (String_of_nat n +:+ ":" +:+ r) = r.
Proof.
  unfold String_of_nat, NilZero.string_of_uint.
  destruct (Nat.to_uint n) eqn:E; try apply digits_no_colon. split; reflexivity.
Qed.

Lemma two_digits (n : nat) :
  (n < 60)%nat → String.length (padStart0 2 (String_of_nat n)) = 2.
Proof. intros H. do 60 (destruct n as [|n]; [reflexivity|]). lia. Qed.

(** X15. A duration of at least one second is shown as minutes, a colon and
    seconds on exactly two digits, and reads back as the same number of
    seconds; so two different durations are never shown alike. A missing
    duration and zero are both shown as '--:--', and nothing else is. *)
Theorem formatDuration_reads_back :
  (∀ s : nat, (0 < s)%nat →
     let shown := formatDuration (Some s) in
     ∃ m r : nat,
       key_index (before_colon shown) = Some m ∧ key_index (after_colon shown) = Some r
       ∧ String.length (after_colon shown) = 2 ∧ (r < 60)%nat ∧ 60 * m + r = s)
  ∧ (∀ x y, formatDuration x = formatDuration y →
       x = y ∨ (formatDuration x = "--:--" ∧ formatDuration y = "--:--"))
  ∧ (∀ x, formatDuration x = "--:--" ↔ x = None ∨ x = Some 0).
Proof.
  assert (Hpos : ∀ s : nat, (0 < s)%nat →
     key_index (before_colon (formatDuration (Some s))) = Some (s / 60)
     ∧ key_index (after_colon (formatDuration (Some s))) = Some (s mod 60)
     ∧ String.length (after_colon (formatDuration (Some s))) = 2).
  { intros s Hs. destruct s as [|s]; [lia|]. cbn [formatDuration].
    destruct (String_of_nat_no_colon (S s / 60) (padStart0 2 (String_of_nat (S s mod 60))))
      as [-> ->].
    split; [apply key_index_String_of_nat|]. split; [apply key_index_padStart|].
    apply two_digits, Nat.mod_upper_bound. lia. }
  assert (Hdash : ∀ x, formatDuration x = "--:--" → x = None ∨ x = Some 0).
  { intros [[|s]|]; auto. intros H.
    destruct (Hpos (S s) ltac:(lia)) as (Hb & _). rewrite H in Hb. discriminate. }
  split; [|split].
  - intros s Hs. cbn zeta. destruct (Hpos s Hs) as (Hb & Ha & Hl).
    exists (s / 60), (s mod 60). repeat split; auto.
    + apply Nat.mod_upper_bound. lia.
    + symmetry. apply Nat.div_mod_eq.
  - intros x y Heq.
    destruct x as [[|a]|], y as [[|b]|]; auto;
      try (right; split; [reflexivity|]; symmetry; exact Heq; fail);
      try (destruct (Hdash _ (eq_sym Heq)) as [H|H]; discriminate);
      try (destruct (Hdash _ Heq) as [H|H]; discriminate).
    left. destruct (Hpos (S a) ltac:(lia)) as (Hb1 & Ha1 & _).
    destruct (Hpos (S b) ltac:(lia)) as (Hb2 & Ha2 & _).
    rewrite Heq in Hb1, Ha1. f_equal.
    rewrite (Nat.div_mod_eq (S a) 60), (Nat.div_mod_eq (S b) 60). congruence.
  - intros x. split; [apply Hdash|]. intros [->| ->]; reflexivity.
Qed.
End DurationProperties.

Section ReorderProperties.
Import Browser.
Context {A : Type}.

(** X16. Dragging the song at index [source] to index [destination] gives the
    same songs in a new order: the dragged song sits at [destination] (at
    the end when [destination] is past it), the other songs keep their
    order, and dropping a song where it was changes nothing. *)
Theorem reorder_moves_one_song (source destination : nat) (songs : list A) (x : A) :
  songs !! source = Some x →
  ∃ moved : list A,
    reorderSongs source destination songs = Some <$> moved
    ∧ moved ≡ₚ songs
    ∧ length moved = length songs
    ∧ moved !! (destination `min` (length songs - 1)) = Some x
    ∧ delete (destination `min` (length songs - 1)) moved = delete source songs
    ∧ (destination = source → moved = songs).
Proof.
  intros Hx. unfold reorderSongs. rewrite Hx.
  set (rest := delete source songs).
  assert (Hlen : length rest = length songs - 1).
  { unfold rest. rewrite length_delete by eauto. reflexivity. }
  exists (take destination rest ++ x :: drop destination rest)%list.
  assert (Htake : length (take destination rest) = destination `min` (length songs - 1)).
  { rewrite length_take, Hlen. reflexivity. }
  split; [|split; [|split; [|split; [|split]]]].
  - rewrite <- fmap_take, <- fmap_drop, fmap_app, fmap_cons. reflexivity.
  - rewrite <- Permutation_middle, take_drop. symmetry. apply delete_Permutation, Hx.
  - rewrite length_app, length_cons, Htake, length_drop, Hlen.
    pose proof (lookup_lt_Some _ _ _ Hx). lia.
  - rewrite <- Htake. apply list_lookup_middle. reflexivity.
  - rewrite <- Htake, delete_middle, take_drop. reflexivity.
  - intros ->. unfold rest. rewrite delete_take_drop.
    pose proof (lookup_lt_Some _ _ _ Hx) as Hlt.
    rewrite take_app_le by (rewrite length_take; lia).
    rewrite take_take, Nat.min_id.
    rewrite drop_app_ge by (rewrite length_take; lia).
    rewrite length_take.
    replace (source - source `min` length songs) with 0 by lia.
    cbn [drop]. apply take_drop_middle, Hx.
Qed.
End ReorderProperties.

Section ProgressProperties.
Import Credentials Publish Browser.
Variable JSON_stringify : content → string.
Variables (tick cross : string).

Lemma deliver_closed (events : list event) (pg : page) :
  closed pg = true → deliver tick cross events pg = pg.
Proof. intros H. destruct events; cbn; rewrite ?H; reflexivity. Qed.

Lemma deliver_app (l1 l2 : list event) (pg : page) :
  deliver tick cross (l1 ++ l2) pg = deliver tick cross l2 (deliver tick cross l1 pg).
Proof.
  revert pg. induction l1 as [|e l1 IH]; intros pg; [reflexivity|].
  cbn. destruct (closed pg) eqn:Hc; [|apply IH].
  rewrite deliver_closed by exact Hc. reflexivity.
Qed.

(** While per-file events arrive the page stays connected and adds one log
    line per event. *)
Lemma deliver_per_file (events : list event) (pg : page) :
  Forall (λ ev, per_file ev = true) events → closed pg = false →
  let pg' := deliver tick cross events pg in
  closed pg' = false ∧ uploadingToYoto pg' = uploadingToYoto pg
  ∧ toasts pg' = toasts pg
  ∧ length (logs_of pg') = length (logs_of pg) + length events.
Proof.
  intros Hall. revert pg. induction Hall as [|ev events Hev _ IH]; intros pg Hc.
  - cbn. repeat split; auto.
  - cbn zeta. cbn [deliver]. rewrite Hc.
    assert (Hstep : closed (onmessage tick cross ev pg) = false
                    ∧ uploadingToYoto (onmessage tick cross ev pg) = uploadingToYoto pg
                    ∧ toasts (onmessage tick cross ev pg) = toasts pg
                    ∧ length (logs_of (onmessage tick cross ev pg))
                      = length (logs_of pg) + 1).
    { unfold logs_of. destruct ev; try discriminate; cbn;
        rewrite length_app; repeat split; auto. }
    destruct Hstep as (H1 & H2 & H3 & H4).
    destruct (IH _ H1) as (I1 & I2 & I3 & I4).
    repeat split; try congruence. rewrite I4, H4. cbn [length]. lia.
Qed.

Lemma written_app (t1 t2 : list effect) :
  written (t1 ++ t2) = (written t1 ++ written t2)%list.
Proof. apply omap_app. Qed.

Lemma written_keeps_open (t : list effect) :
  Forall (λ e, keeps_open e = true) t → Forall (λ ev, per_file ev = true) (written t).
Proof.
  induction 1 as [|e t He _ IH]; [constructor|].
  destruct e as [ev| |r|ms|c p]; cbn; try exact IH; try discriminate.
  constructor; assumption.
Qed.

(** X17. The upload dialog against the streaming route. Whatever the run, the
    page receives every event the route writes (one log line each), closes
    the event source on the last one, and ends no longer uploading, with
    the dialog marked done; it is marked successful exactly when the run
    ended in [done], and then shows that event's track count. The toasts
    added are, after an [error] event, one error toast with the event's
    message (or 'Upload failed' when it is empty); after a [done] event,
    one success toast with the track count, followed by one error toast
    with the number of failures exactly when [done] carries a non-empty
    errors list. *)
Theorem page_follows_the_stream playlistId db w (n : nat) (pg0 : page) :
  let events := written (effects (uploadPlaylistStream JSON_stringify playlistId db w)) in
  let pg := deliver tick cross events (uploadStarted n pg0) in
  closed pg = true ∧ uploadingToYoto pg = false
  ∧ ∃ p last,
      yotoUploadProgress pg = Some p ∧ List.last events (ev_log "") = last
      ∧ terminal last = true
      ∧ p_done p = Some true
      ∧ length (p_logs p) = length events
      ∧ p_success p = Some (match last with ev_done _ _ _ => true | _ => false end)
      ∧ (∀ card k errs, last = ev_done card k errs → p_uploadedTracks p = Some k)
      ∧ (length (toasts pg0) < length (toasts pg) ≤ length (toasts pg0) + 2)%nat
      ∧ toasts pg
        = (toasts pg0
           ++ match last with
              | ev_error error _ _ =>
                  [(if truthy error then error else "Upload failed", "error")]
              | ev_done _ k errs =>
                  ("Uploaded " +:+ String_of_nat k +:+ " tracks to Yoto!", "success")
                    :: match errs with
                       | Some (e :: es) =>
                           [(String_of_nat (length (e :: es)) +:+ " tracks failed", "error")]
                       | _ => []
                       end
              | _ => []
              end)%list.
Proof.
  cbn zeta.
  destruct (stream_ends_properly JSON_stringify playlistId db w) as [He _].
  destruct (ends_properly_sound _ He) as (pre & last & -> & Hpre & Hlast).
  rewrite written_app. cbn [written omap list_omap app].
  change (omap _ pre) with (written pre).
  rewrite deliver_app.
  destruct (deliver_per_file (written pre) (uploadStarted n pg0)
              (written_keeps_open _ Hpre) eq_refl) as (Hc & Hu & Ht & Hl).
  set (pg1 := deliver tick cross (written pre) (uploadStarted n pg0)) in *.
  cbn [deliver]. rewrite Hc. unfold logs_of in Hl. cbn in Hl.
  rewrite last_last, length_app. cbn [length].
  destruct last as [| | | |error errs missing|card k errs]; try discriminate; cbn.
  - repeat split. eexists _, _. repeat split; try reflexivity.
    + cbn [p_logs]. rewrite length_app, Hl. cbn. lia.
    + discriminate.
    + rewrite length_app, Ht. cbn. lia.
    + rewrite length_app, Ht. cbn. lia.
    + rewrite Ht. reflexivity.
  - repeat split. eexists _, _. repeat split; try reflexivity.
    + cbn [p_logs]. rewrite length_app, Hl. cbn. lia.
    + intros c k' e H. injection H as _ -> _. reflexivity.
    + rewrite !length_app, Ht. cbn. lia.
    + rewrite !length_app, Ht. cbn. destruct errs as [[|e es]|]; cbn; lia.
    + rewrite Ht. destruct errs as [[|e es]|]; reflexivity.
Qed.
End ProgressProperties.

Section LoginLoopProperties.
Import Credentials DeviceAuth Client Browser.
Variable token_sub : string → option string.

Lemma pollYotoLogin_continue (code : string) (issued : Q) (a : poll_result)
    (answers : list poll_result) (st : state) (sess : session) :
  truthy code = true → deviceCodeSessions st !! code = Some sess →
  ends_session a = false →
  let st' := (postPoll token_sub (Some code) a st).1.2 in
  pollYotoLogin token_sub code issued (a :: answers) st
  = (wait_after issued a :: (pollYotoLogin token_sub code issued answers st').1,
     (pollYotoLogin token_sub code issued answers st').2)
  ∧ is_Some (deviceCodeSessions st' !! code) ∧ cred_store st' = cred_store st.
Proof.
  intros Hc Hs Ha. destruct a as [| |advertised|]; try discriminate; cbn zeta.
  - cbn [pollYotoLogin]. rewrite (postPoll_pending_eq _ st code sess Hc Hs).
    cbn [onReply http_body b_status b_interval String.eqb Ascii.eqb Bool.eqb fst snd].
    destruct (pollYotoLogin token_sub code issued answers st) as [waits st''].
    split; [reflexivity|]. split; [eauto|reflexivity].
  - cbn [pollYotoLogin]. rewrite (postPoll_slow_down_eq _ st code sess advertised Hc Hs).
    cbn [onReply http_body b_status b_interval String.eqb Ascii.eqb Bool.eqb fst snd].
    destruct (pollYotoLogin token_sub code issued answers _) as [waits st''].
    split; [unfold wait_after; destruct (truthy_num _); reflexivity|].
    split; [|reflexivity].
    rewrite slowed_session. eauto.
Qed.

(** X18. The browser's login loop against the poll route, for a live session.
    The loop makes one timer wait per answer that leaves the login pending
    and stops at the first answer that ends it. Each wait depends on that
    one answer only: the advertised interval when the answer is a
    slow-down advertising a non-zero one, else the interval issued with the
    code. The session is still in the table afterwards exactly when no
    answer ended the login, and the stored credentials are those saved from
    the tokens of a first ending answer that is a success, else unchanged. *)
Theorem login_loop_waits (code : string) (issued : Q) (answers : list poll_result)
    (st : state) (sess : session) :
  truthy code = true → deviceCodeSessions st !! code = Some sess →
  let run := pollYotoLogin token_sub code issued answers st in
  let pending := pending_prefix answers in
  run.1 = wait_after issued <$> pending
  ∧ (is_Some (deviceCodeSessions run.2 !! code) ↔ pending = answers)
  ∧ cred_store run.2
    = match answers !! length pending with
      | Some (Success access refresh) =>
          saveCredentials {| accessToken := access; refreshToken := refresh;
                             userId := token_sub access |} (cred_store st)
      | _ => cred_store st
      end.
Proof.
  intros Hc. revert st sess. induction answers as [|a answers IH]; intros st sess Hs.
  - cbn. split; [reflexivity|]. split; [|reflexivity]. split; eauto.
  - cbn zeta. cbn [pending_prefix]. destruct (ends_session a) eqn:Ha.
    + cbn [pollYotoLogin]. unfold postPoll. rewrite Hc, Hs. cbn [negb].
      destruct a as [access refresh| | |description message]; try discriminate; cbn.
      * split; [reflexivity|]. split; [|reflexivity].
        rewrite lookup_delete_eq. split; [intros [? ?]|]; discriminate.
      * split; [reflexivity|]. split; [|reflexivity].
        rewrite lookup_delete_eq. split; [intros [? ?]|]; discriminate.
    + destruct (pollYotoLogin_continue code issued a answers st sess Hc Hs Ha)
        as (-> & [sess' Hs'] & Hcred).
      destruct (IH _ _ Hs') as (I1 & I2 & I3).
      cbn [fst snd fmap list_fmap length lookup list_lookup].
      split; [f_equal; exact I1|]. split.
      * rewrite I2. split; [intros ->; reflexivity|]. intros H. injection H. auto.
      * rewrite I3, Hcred. reflexivity.
Qed.
End LoginLoopProperties.

(** ** The single-track route inside the playlist route *)

Section TrackRouteProperties.
Import Credentials Publish Routes UploadTrace.
Variable JSON_stringify : content → string.

Lemma downloaded_song (w : world) (songs : list song) (s : song) :
  notDownloaded w songs = [] → s ∈ songs →
  ∃ p, file_path s = Some p ∧ truthy p = true ∧ existsSync w p = true.
Proof.
  intros Hnd Hs. destruct (file_path s) as [p|] eqn:Hpath.
  - exists p. split; [reflexivity|].
    destruct (truthy p) eqn:Ht, (existsSync w p) eqn:He; auto; exfalso;
      apply (filter_nil_not_elem_of _ _ s Hnd); auto; rewrite Hpath, Ht, ?He; reflexivity.
  - exfalso. apply (filter_nil_not_elem_of _ _ s Hnd); auto. rewrite Hpath. reflexivity.
Qed.

Lemma postUploadTrack_run (st : store) (creds : credentials) (w : world) (i : nat)
    (s : song) (p : string) :
  getStoredCredentials st = Some creds → file_path s = Some p →
  truthy p = true → existsSync w p = true →
  postUploadTrack (Some s) st (existsSync w) (upload_script w i)
  = (match result (uploadSong creds w i s) with
     | Returned k => Json k
     | Thrown message => Failed 500 "Failed to upload track" (Some message)
     end,
     requests (effects (uploadSong creds w i s))).
Proof.
  intros Hc Hp Ht He. unfold postUploadTrack, uploadSong. rewrite Hc, Hp, Ht, He.
  cbn [negb]. destruct (result _); reflexivity.
Qed.

Lemma network_calls_sink (t : list Upload.action) :
  network_calls (as_effect <$> t) = UploadRequest <$> requests t.
Proof. induction t as [|[msg|r|ms] t IH]; cbn; [reflexivity|exact IH|f_equal; exact IH|exact IH]. Qed.

Lemma loop_network_calls creds w total rest i tracks errors :
  network_calls (uploadLoop creds w total rest i tracks errors).1
  = UploadRequest <$> mjoin (imap (λ j s, requests (effects (uploadSong creds w (i + j) s))) rest).
Proof.
  revert i tracks errors. induction rest as [|s rest IH]; intros i tracks errors;
    [reflexivity|].
  rewrite uploadLoop_cons, imap_cons. cbn [mjoin list_join]. rewrite fmap_app, Nat.add_0_r.
  assert (Hext : imap ((λ j s0, requests (effects (uploadSong creds w (i + j) s0))) ∘ S) rest
                 = imap (λ j s0, requests (effects (uploadSong creds w (i + 1 + j) s0))) rest).
  { apply imap_ext. intros j x _. cbn. do 3 f_equal. lia. }
  rewrite Hext.
  destruct (result (uploadSong creds w i s)) as [k|message]; cbn [fst];
    change (network_calls (Write ?e :: ?l)) with (network_calls l);
    rewrite network_calls_app, network_calls_sink; f_equal;
    change (network_calls (Write ?e :: ?l)) with (network_calls l);
    apply IH.
Qed.

Lemma loop_keys creds w rest i :
  key <$> loopTracks creds w rest i
  = omap (λ r, match r with Returned k => Some k | Thrown _ => None end)
      (imap (λ j s, result (uploadSong creds w (i + j) s)) rest).
Proof.
  revert i. induction rest as [|s rest IH]; intros i; [reflexivity|].
  rewrite imap_cons. cbn [loopTracks omap list_omap]. rewrite Nat.add_0_r.
  assert (Hext : imap ((λ j s0, result (uploadSong creds w (i + j) s0)) ∘ S) rest
                 = imap (λ j s0, result (uploadSong creds w (i + 1 + j) s0)) rest).
  { apply imap_ext. intros j x _. cbn. do 2 f_equal. lia. }
  rewrite Hext, <- IH.
  destruct (result (uploadSong creds w i s)); reflexivity.
Qed.

Lemma finish_network_calls playlistId pl creds w tracks errors :
  let tail := try_catch (finish JSON_stringify playlistId pl creds w tracks errors) catchAll in
  network_calls tail.1 = PostContent (accessToken creds) <$> manifests tail.1.
Proof.
  cbn zeta. unfold finish. destruct tracks as [|t tracks]; [reflexivity|].
  cbn [length Nat.eqb].
  destruct (content_result w) as [msg|[[] st tx [card|msg]]]; cbn; try reflexivity.
  destruct (card_cardId card) as [c|]; [|reflexivity].
  destruct (truthy c && bool_decide (Some c ≠ yoto_card_id pl)); reflexivity.
Qed.

Lemma chapter_urls (g : nat → nat) (tracks : list track) :
  trackUrl <$> (imap (λ i, toChapter (g i)) tracks ≫= ch_tracks)
  = (λ k, "yoto:#" +:+ k) <$> (key <$> tracks).
Proof.
  revert g. induction tracks as [|t tracks IH]; intros g; [reflexivity|].
  rewrite imap_cons. cbn. f_equal. apply (IH (g ∘ S)).
Qed.

Lemma answered_keys creds w (g : nat → nat) (songs : list song) :
  omap answered_key
    (imap (λ i s, match result (uploadSong creds w (g i) s) with
                  | Returned k => Json k
                  | Thrown message => Failed 500 "Failed to upload track" (Some message)
                  end) songs)
  = omap (λ r, match r with Returned k => Some k | Thrown _ => None end)
      (imap (λ j s, result (uploadSong creds w (g j) s)) songs).
Proof.
  revert g. induction songs as [|s rest IH]; intros g; [reflexivity|].
  rewrite !imap_cons. cbn [omap list_omap]. pose proof (IH (g ∘ S)) as IH'.
  destruct (result (uploadSong creds w (g 0) s)); cbn [answered_key];
    [f_equal|]; exact IH'.
Qed.

(** X19. The playlist route runs the single-track route's pipeline once per
    song. For a run that reaches the loop, its network requests are, song
    by song in playlist order, the requests the single-track route makes
    for that song, followed by the submission of the manifest if there is
    one; and the track URLs of a submitted manifest are 'yoto:#' followed
    by the keys of the songs the single-track route answers with a key, in
    playlist order. *)
Theorem playlist_route_runs_track_route playlistId db w creds pl songs :
  ready playlistId db w creds pl songs →
  let run := uploadPlaylistStream JSON_stringify playlistId db w in
  let single i s :=
    postUploadTrack (Some s) (cred_store db) (existsSync w) (upload_script w i) in
  network_calls (effects run)
  = ((UploadRequest <$> mjoin (imap (λ i s, (single i s).2) songs))
     ++ (PostContent (accessToken creds) <$> manifests (effects run)))%list
  ∧ ∀ body, body ∈ manifests (effects run) →
      trackUrl <$> (chapters body ≫= ch_tracks)
      = (λ k, "yoto:#" +:+ k) <$> omap answered_key (imap (λ i s, (single i s).1) songs).
Proof.
  intros Hready. cbn zeta.
  assert (Hsingle : ∀ i s, songs !! i = Some s →
            postUploadTrack (Some s) (cred_store db) (existsSync w) (upload_script w i)
            = (match result (uploadSong creds w i s) with
               | Returned k => Json k
               | Thrown message => Failed 500 "Failed to upload track" (Some message)
               end,
               requests (effects (uploadSong creds w i s)))).
  { intros i s Hs.
    destruct (downloaded_song w songs s (ready_files _ _ _ _ _ _ Hready)
                (list_elem_of_lookup_2 _ _ _ Hs)) as (p & Hp & Ht & He).
    exact (postUploadTrack_run _ creds w i s p (ready_creds _ _ _ _ _ _ Hready) Hp Ht He). }
  split.
  - rewrite (stream_ready JSON_stringify _ _ _ _ _ _ Hready).
    unfold effects. cbn [fst].
    rewrite network_calls_app, manifests_app,
      (manifests_in_loop _ (uploadLoop_in_loop _ _ _ _ _ _ _)).
    cbn [app]. rewrite loop_network_calls, finish_network_calls. do 3 f_equal.
    apply imap_ext. intros i s Hs. cbn. rewrite (Hsingle i s Hs). reflexivity.
  - intros body Hbody.
    rewrite (submitted_manifest JSON_stringify _ _ _ _ _ _ _ Hready Hbody).
    cbn [chapters buildContent].
    rewrite (chapter_urls id), loop_keys. f_equal. clear Hbody.
    assert (Hext : imap (λ i s, (postUploadTrack (Some s) (cred_store db) (existsSync w)
                                   (upload_script w i)).1) songs
                   = imap (λ i s, match result (uploadSong creds w i s) with
                                  | Returned k => Json k
                                  | Thrown message =>
                                      Failed 500 "Failed to upload track" (Some message)
                                  end) songs).
    { apply imap_ext. intros i s Hs. cbn. rewrite (Hsingle i s Hs). reflexivity. }
    rewrite Hext. symmetry. apply (answered_keys creds w id).
Qed.
End TrackRouteProperties.

(** ** The playlist tables *)

Section LibraryProperties.
Import Library.

Lemma insert_row_perm (r : ps_row) (l : list ps_row) : insert_row r l ≡ₚ r :: l.
Proof.
  induction l as [|y l IH]; [reflexivity|]. cbn.
  destruct (position r <=? position y)%Z; [reflexivity|].
  rewrite IH. apply perm_swap.
Qed.

Lemma order_perm (l : list ps_row) : order_by_position l ≡ₚ l.
Proof.
  induction l as [|x l IH]; [reflexivity|]. cbn.
  rewrite insert_row_perm, IH. reflexivity.
Qed.

Lemma insert_row_sorted (r : ps_row) (l : list ps_row) :
  StronglySorted by_position l → StronglySorted by_position (insert_row r l).
Proof.
  induction 1 as [|y l Hl IH Hy]; [repeat constructor|]. cbn.
  destruct (position r <=? position y)%Z eqn:E.
  - apply Z.leb_le in E. constructor; [constructor; assumption|].
    constructor; [exact E|].
    eapply Forall_impl; [exact Hy|]. intros z Hz. unfold by_position in *. lia.
  - apply Z.leb_gt in E. constructor; [exact IH|].
    rewrite insert_row_perm. constructor; [unfold by_position; lia | exact Hy].
Qed.

Lemma order_sorted (l : list ps_row) : StronglySorted by_position (order_by_position l).
Proof.
  induction l as [|x l IH]; [constructor|]. cbn. apply insert_row_sorted, IH.
Qed.

(** Rows with pairwise distinct positions have one ascending order. *)
Lemma sorted_unique (l1 l2 : list ps_row) :
  l1 ≡ₚ l2 → StronglySorted by_position l1 → StronglySorted by_position l2 →
  NoDup (position <$> l1) → l1 = l2.
Proof.
  revert l2. induction l1 as [|x l1 IH]; intros l2 Hp H1 H2 Hnd.
  - symmetry. apply Permutation_nil_r. symmetry. exact Hp.
  - destruct l2 as [|y l2]; [apply Permutation_nil_r in Hp; discriminate|].
    apply StronglySorted_inv in H1 as [H1 Hx]. apply StronglySorted_inv in H2 as [H2 Hy].
    rewrite fmap_cons in Hnd. apply NoDup_cons in Hnd as [Hnx Hnd].
    assert (Hyx : y = x).
    { assert (Hy1 : y ∈ x :: l1) by (rewrite Hp; left).
      apply elem_of_cons in Hy1 as [Hy1|Hy1]; [exact Hy1|exfalso].
      assert (Hx2 : x ∈ y :: l2) by (rewrite <- Hp; left).
      apply elem_of_cons in Hx2 as [Hx2|Hx2]; [subst; apply Hnx, list_elem_of_fmap_2, Hy1|].
      rewrite Forall_forall in Hx, Hy.
      pose proof (Hx _ Hy1) as Ha. pose proof (Hy _ Hx2) as Hb. unfold by_position in *.
      apply Hnx. replace (position x) with (position y) by lia.
      apply list_elem_of_fmap_2, Hy1. }
    subst y. f_equal. apply IH; auto. eapply Permutation_cons_inv, Hp.
Qed.

Lemma index_of_None (x : string) (l : list string) : x ∉ l → index_of x l = None.
Proof.
  induction l as [|y l IH]; [reflexivity|]. intros Hx. cbn.
  destruct (String.eqb_spec x y) as [->|Hne]; [exfalso; apply Hx; left|].
  rewrite IH; [reflexivity|]. intros H. apply Hx. by right.
Qed.

Lemma index_of_lookup (l : list string) (i : nat) (x : string) :
  NoDup l → l !! i = Some x → index_of x l = Some i.
Proof.
  revert i. induction l as [|y l IH]; intros i Hnd Hi; [discriminate|].
  apply NoDup_cons in Hnd as [Hy Hnd]. destruct i as [|i]; cbn in *.
  - injection Hi as ->. rewrite String.eqb_refl. reflexivity.
  - destruct (String.eqb_spec x y) as [->|Hne].
    + exfalso. apply Hy. eapply list_elem_of_lookup_2, Hi.
    + rewrite (IH i Hnd Hi). reflexivity.
Qed.

Lemma index_of_Some (x : string) (l : list string) (i : nat) :
  index_of x l = Some i → l !! i = Some x.
Proof.
  revert i. induction l as [|y l IH]; intros i; [discriminate|]. cbn.
  destruct (String.eqb_spec x y) as [->|Hne].
  - intros H. injection H as <-. reflexivity.
  - destruct (index_of x l) as [j|]; [|discriminate]. intros H. injection H as <-.
    cbn. apply IH. reflexivity.
Qed.

(** The sequential updates of [renumber] as one pass over the table. *)
Lemma renumber_map (selected : list ps_row) (index : nat) (t : list ps_row) :
  NoDup (ps_id <$> selected) →
  renumber selected index t = renumbered (ps_id <$> selected) index <$> t.
Proof.
  revert index t. induction selected as [|s rest IH]; intros index t Hnd.
  - cbn. induction t as [|r t IHt]; [reflexivity|]. cbn. f_equal. exact IHt.
  - rewrite fmap_cons in Hnd. apply NoDup_cons in Hnd as [Hs Hnd].
    cbn [renumber]. rewrite (IH _ _ Hnd). unfold update_position.
    rewrite <- list_fmap_compose. apply list_fmap_ext. intros _ r _. cbn.
    unfold renumbered. cbn [fmap list_fmap index_of].
    destruct (String.eqb_spec (ps_id r) (ps_id s)) as [E|Hne].
    + change (ps_id (set_position index r)) with (ps_id r).
      rewrite E, (index_of_None _ _ Hs). f_equal. lia.
    + destruct (index_of (ps_id r) (ps_id <$> rest)) as [i|]; cbn; [|reflexivity].
      f_equal. lia.
Qed.

Lemma renumbered_own (selected : list ps_row) :
  NoDup (ps_id <$> selected) →
  renumbered (ps_id <$> selected) 0 <$> selected = imap set_position selected.
Proof.
  intros Hnd. apply list_eq. intros i.
  rewrite list_lookup_fmap, list_lookup_imap.
  destruct (selected !! i) as [r|] eqn:Hi; [|reflexivity]. cbn.
  unfold renumbered. erewrite index_of_lookup; [reflexivity|exact Hnd|].
  rewrite list_lookup_fmap, Hi. reflexivity.
Qed.

Lemma imap_set_position_positions (l : list ps_row) (k : nat) :
  position <$> imap (λ i, set_position (k + i)) l = Z.of_nat <$> seq k (length l).
Proof.
  revert k. induction l as [|r l IH]; intros k; [reflexivity|].
  rewrite imap_cons. cbn. rewrite Nat.add_0_r. f_equal.
  rewrite <- (IH (S k)). f_equal. apply imap_ext. intros i x _. cbn. f_equal. lia.
Qed.

Lemma seq_sorted (k n : nat) : StronglySorted Z.lt (Z.of_nat <$> seq k n).
Proof.
  revert k. induction n as [|n IH]; intros k; [constructor|].
  cbn. constructor; [apply IH|].
  apply Forall_forall. intros z Hz. apply list_elem_of_fmap in Hz as (j & -> & Hj).
  apply elem_of_seq in Hj. lia.
Qed.

Lemma strictly_sorted (l : list ps_row) :
  StronglySorted Z.lt (position <$> l) →
  StronglySorted by_position l ∧ NoDup (position <$> l).
Proof.
  induction l as [|r l IH]; [split; constructor|].
  rewrite fmap_cons. intros H. apply StronglySorted_inv in H as [H Hr].
  destruct (IH H) as [IH1 IH2]. split.
  - constructor; [exact IH1|]. apply Forall_forall. intros x Hx.
    rewrite Forall_forall in Hr. unfold by_position.
    pose proof (Hr _ (list_elem_of_fmap_2 position _ _ Hx)). lia.
  - apply NoDup_cons. split; [|exact IH2]. intros Hin.
    rewrite Forall_forall in Hr. pose proof (Hr _ Hin). lia.
Qed.

(** A table whose rows of one playlist are, up to order, a list numbered
    0, 1, 2, ... is listed in the order of that list. *)
Lemma numbered_order (rows selected : list ps_row) :
  rows ≡ₚ imap set_position selected →
  order_by_position rows = imap set_position selected.
Proof.
  intros Hp. symmetry.
  pose proof (imap_set_position_positions selected 0) as Hpos.
  destruct (strictly_sorted (imap set_position selected)) as [Hs Hnd].
  { change (imap set_position selected) with (imap (λ i, set_position (0 + i)) selected).
    rewrite Hpos. apply seq_sorted. }
  apply sorted_unique; [|exact Hs|apply order_sorted|exact Hnd].
  rewrite order_perm. symmetry. exact Hp.
Qed.

Lemma filter_fmap_pres {A} (P : A → Prop) `{∀ x, Decision (P x)} (f : A → A) (l : list A) :
  (∀ x, P (f x) ↔ P x) → filter P (f <$> l) = f <$> filter P l.
Proof.
  intros Hf. induction l as [|x l IH]; [reflexivity|].
  rewrite fmap_cons, !filter_cons.
  destruct (decide (P (f x))) as [H1|H1], (decide (P x)) as [H2|H2];
    rewrite ?fmap_cons, IH; try reflexivity; exfalso; [apply H2|apply H1]; by apply Hf.
Qed.

Lemma sorted_filter (P : ps_row → Prop) `{∀ x, Decision (P x)} (l : list ps_row) :
  StronglySorted by_position l → StronglySorted by_position (filter P l).
Proof.
  induction 1 as [|x l Hl IH Hx]; [constructor|].
  rewrite filter_cons. destruct (decide (P x)); [|exact IH].
  constructor; [exact IH|]. apply Forall_forall. intros y Hy.
  apply list_elem_of_filter in Hy as [_ Hy]. rewrite Forall_forall in Hx. by apply Hx.
Qed.

(** With pairwise distinct positions, selecting rows and ordering them
    commute. *)
Lemma order_filter (P : ps_row → Prop) `{∀ x, Decision (P x)} (l : list ps_row) :
  NoDup (position <$> order_by_position l) →
  order_by_position (filter P l) = filter P (order_by_position l).
Proof.
  intros Hnd. symmetry. apply sorted_unique.
  - rewrite !order_perm. reflexivity.
  - apply sorted_filter, order_sorted.
  - apply order_sorted.
  - eapply sublist_NoDup; [exact Hnd|apply fmap_sublist, sublist_filter].
Qed.

Lemma NoDup_fmap_elem_eq {A B} (f : A → B) (l : list A) (x y : A) :
  NoDup (f <$> l) → x ∈ l → y ∈ l → f x = f y → x = y.
Proof.
  induction l as [|z l IH]; intros Hnd Hx Hy Hf; [by apply elem_of_nil in Hx|].
  rewrite fmap_cons in Hnd. apply NoDup_cons in Hnd as [Hz Hnd].
  apply elem_of_cons in Hx as [->|Hx]; apply elem_of_cons in Hy as [->|Hy]; auto.
  - exfalso. apply Hz. rewrite Hf. by apply list_elem_of_fmap_2.
  - exfalso. apply Hz. rewrite <- Hf. by apply list_elem_of_fmap_2.
Qed.

Lemma in_playlist_renumbered pid ids index r :
  in_playlist pid (renumbered ids index r) = in_playlist pid r.
Proof. unfold renumbered. destruct (index_of _ _); reflexivity. Qed.

Lemma rows_of_kept (pid songId : string) (t : list ps_row) :
  filter (λ r, in_playlist pid r = true) (filter (λ r, is_entry pid songId r = false) t)
  = filter (λ r, song_id r ≠ songId) (filter (λ r, in_playlist pid r = true) t).
Proof.
  rewrite !list_filter_filter. apply list_filter_iff. intros r.
  unfold is_entry, in_playlist.
  destruct (String.eqb_spec (playlist_id r) pid), (String.eqb_spec (song_id r) songId);
    cbn; intuition congruence.
Qed.

Lemma other_rows_kept (pid other songId : string) (t : list ps_row) :
  other ≠ pid →
  filter (λ r, in_playlist other r = true) (filter (λ r, is_entry pid songId r = false) t)
  = filter (λ r, in_playlist other r = true) t.
Proof.
  intros Hne. rewrite list_filter_filter. apply list_filter_iff. intros r.
  unfold is_entry, in_playlist.
  destruct (String.eqb_spec (playlist_id r) other), (String.eqb_spec (playlist_id r) pid);
    cbn; intuition congruence.
Qed.

Lemma rows_of_touch now id pid db : rows_of pid (touch now id db) = rows_of pid db.
Proof. reflexivity. Qed.

Lemma entry_removed (pid songId : string) (t : list ps_row) :
  songId ∈ song_id <$> filter (λ r, in_playlist pid r = true) t
  ↔ length (filter (λ r, is_entry pid songId r = false) t) < length t.
Proof.
  split.
  - intros H. apply list_elem_of_fmap in H as (r & -> & Hr).
    apply list_elem_of_filter in Hr as [Hp Hr].
    eapply length_filter_lt; [exact Hr|]. unfold is_entry. unfold in_playlist in Hp.
    rewrite Hp, String.eqb_refl. discriminate.
  - induction t as [|r t IH]; [cbn; lia|].
    rewrite !filter_cons.
    destruct (decide (is_entry pid songId r = false)) as [He|He].
    + cbn [length]. intros Hlt.
      assert (Hin : songId ∈ song_id <$> filter (λ r, in_playlist pid r = true) t)
        by (apply IH; lia).
      destruct (decide (in_playlist pid r = true)); [rewrite fmap_cons; by right|exact Hin].
    + intros _. unfold is_entry, in_playlist in *.
      destruct (String.eqb_spec (playlist_id r) pid) as [Ep|Ep]; [|exfalso; by apply He].
      destruct (String.eqb_spec (song_id r) songId) as [Es|Es]; [|exfalso; by apply He].
      destruct (decide (true = true)); [|congruence]. rewrite fmap_cons, Es. by left.
Qed.

Lemma song_id_numbered (l : list ps_row) : song_id <$> imap set_position l = song_id <$> l.
Proof.
  rewrite fmap_imap. change (λ n, song_id ∘ set_position n) with (λ (n : nat), song_id).
  apply imap_const.
Qed.

(** X20. Removing a song. When the song is not in the playlist the route
    answers 404 and changes nothing. Otherwise it answers 204, and
    afterwards the positions of the playlist are 0, 1, ..., n - 1 whatever
    they were before; the remaining songs are listed in the order they had
    (for a playlist whose positions were pairwise distinct); the entries of
    the other playlists and the song cache are untouched. *)
Theorem remove_renumbers (now : nat) (playlistId songId : string) (db : tables) :
  keyed db →
  let out := removeSong now playlistId songId db in
  (songId ∉ shown playlistId db →
     out = (Refused 404 "Song not found in playlist", db))
  ∧ (songId ∈ shown playlistId db →
       out.1 = Sent 204 tt
       ∧ dense playlistId out.2
       ∧ length (rows_of playlistId out.2) < length (rows_of playlistId db)
       ∧ (NoDup (positions playlistId db) →
            shown playlistId out.2 = filter (λ id, id ≠ songId) (shown playlistId db))
       ∧ (∀ other, other ≠ playlistId → rows_of other out.2 = rows_of other db)
       ∧ songs out.2 = songs db).
Proof.
  intros Hkey. cbn zeta. unfold removeSong.
  set (kept := filter (λ r, is_entry playlistId songId r = false) (playlist_songs db)).
  assert (Hin : songId ∈ shown playlistId db ↔ length kept < length (playlist_songs db)).
  { unfold shown. rewrite order_perm. apply entry_removed. }
  pose proof (length_filter (λ r, is_entry playlistId songId r = false) (playlist_songs db))
    as Hle. fold kept in Hle.
  split.
  - intros Hnot. replace (length (playlist_songs db) - length kept) with 0; [reflexivity|].
    assert (¬ length kept < length (playlist_songs db)) by (rewrite <- Hin; exact Hnot). lia.
  - intros Hyes. apply Hin in Hyes.
    destruct (Nat.eqb_spec (length (playlist_songs db) - length kept) 0) as [E|_]; [lia|].
    cbn [fst snd].
    set (selected := order_by_position _).
    assert (Hk : NoDup (ps_id <$> kept)).
    { eapply sublist_NoDup; [exact Hkey|apply fmap_sublist, sublist_filter]. }
    assert (Hsel : NoDup (ps_id <$> selected)).
    { unfold selected. rewrite order_perm. unfold rows_of. cbn [playlist_songs].
      eapply sublist_NoDup; [exact Hk|apply fmap_sublist, sublist_filter]. }
    assert (Hrows : rows_of playlistId
                      {| playlists := playlists db; songs := songs db;
                         playlist_songs := renumber selected 0 kept |}
                    ≡ₚ imap set_position selected).
    { unfold rows_of. cbn [playlist_songs]. rewrite (renumber_map _ _ _ Hsel).
      rewrite filter_fmap_pres by (intros r; rewrite in_playlist_renumbered; reflexivity).
      rewrite <- (renumbered_own _ Hsel). apply fmap_Permutation.
      unfold selected. rewrite order_perm. reflexivity. }
    assert (Hord := numbered_order _ _ Hrows).
    assert (Hlen : length (rows_of playlistId
                      {| playlists := playlists db; songs := songs db;
                         playlist_songs := renumber selected 0 kept |})
                   = length selected).
    { rewrite Hrows, length_imap. reflexivity. }
    assert (Hselected : selected
              = order_by_position (filter (λ r, song_id r ≠ songId) (rows_of playlistId db))).
    { unfold selected, rows_of. cbn [playlist_songs]. unfold kept.
      rewrite rows_of_kept. reflexivity. }
    split; [reflexivity|]. split; [|split; [|split; [|split]]].
    + unfold dense, positions. rewrite !rows_of_touch, Hord, Hlen.
      apply (imap_set_position_positions selected 0).
    + rewrite rows_of_touch, Hlen, Hselected, (Permutation_length (order_perm _)).
      apply (proj2 Hin) in Hyes. unfold shown in Hyes. rewrite order_perm in Hyes.
      apply list_elem_of_fmap in Hyes as (r & Hr & Hrin).
      eapply length_filter_lt; [exact Hrin|]. intros Hne. apply Hne. symmetry. exact Hr.
    + intros Hnd. unfold shown. rewrite rows_of_touch, Hord.
      rewrite song_id_numbered, Hselected, (order_filter _ _ Hnd).
      generalize (order_by_position (rows_of playlistId db)). intros l.
      induction l as [|r l IH]; [reflexivity|].
      rewrite fmap_cons, !filter_cons.
      destruct (decide (song_id r ≠ songId)); rewrite ?fmap_cons, IH; reflexivity.
    + intros other Hne. unfold rows_of. cbn [touch playlist_songs].
      rewrite (renumber_map _ _ _ Hsel).
      rewrite filter_fmap_pres by (intros r; rewrite in_playlist_renumbered; reflexivity).
      fold kept. unfold kept at 1. rewrite (other_rows_kept _ _ _ _ Hne).
      rewrite <- (list_fmap_id (filter _ (playlist_songs db))) at 2.
      apply list_fmap_ext. intros i r Hr.
      apply list_elem_of_lookup_2, list_elem_of_filter in Hr as [Hp Hr].
      unfold renumbered. rewrite index_of_None; [reflexivity|].
      intros Hid. apply list_elem_of_fmap in Hid as (s & Hids & Hs).
      unfold selected in Hs. rewrite order_perm in Hs. unfold rows_of in Hs.
      cbn [playlist_songs] in Hs. apply list_elem_of_filter in Hs as [Hsp Hs].
      apply list_elem_of_filter in Hs as [_ Hs].
      assert (r = s) by (apply (NoDup_fmap_elem_eq ps_id (playlist_songs db)); auto).
      subst s. unfold in_playlist in *.
      destruct (String.eqb_spec (playlist_id r) other), (String.eqb_spec (playlist_id r) playlistId);
        congruence.
    + reflexivity.
Qed.

(** The sequential updates of [reorderLoop] as one pass over the table. *)
Lemma reorderLoop_map (pid : string) (songIds : list string) (index : nat)
    (t : list ps_row) :
  NoDup songIds → reorderLoop pid songIds index t = reordered pid songIds index <$> t.
Proof.
  revert index t. induction songIds as [|songId rest IH]; intros index t Hnd.
  - cbn. rewrite <- (list_fmap_id t) at 1. apply list_fmap_ext. intros i r _.
    unfold reordered. destruct (in_playlist pid r); reflexivity.
  - apply NoDup_cons in Hnd as [Hs Hnd].
    cbn [reorderLoop]. rewrite (IH _ _ Hnd). unfold update_position.
    rewrite <- list_fmap_compose. apply list_fmap_ext. intros i r _. cbn.
    unfold reordered, is_entry, in_playlist. cbn [index_of].
    destruct (String.eqb_spec (playlist_id r) pid) as [Ep|Ep]; cbn [andb].
    + destruct (String.eqb_spec (song_id r) songId) as [Es|Es].
      * change (playlist_id (set_position index r)) with (playlist_id r).
        change (song_id (set_position index r)) with (song_id r).
        rewrite Ep, String.eqb_refl, Es, (index_of_None _ _ Hs). f_equal. lia.
      * rewrite Ep, String.eqb_refl.
        destruct (index_of (song_id r) rest) as [j|]; cbn; [|reflexivity]. f_equal. lia.
    + destruct (String.eqb_spec (playlist_id r) pid); [contradiction|reflexivity].
Qed.

Lemma in_playlist_reordered pid other songIds index r :
  in_playlist other (reordered pid songIds index r) = in_playlist other r.
Proof.
  unfold reordered. destruct (in_playlist pid r); [|reflexivity].
  destruct (index_of _ _); reflexivity.
Qed.

(** What the reorder route leaves in the tables, for a list of the
    playlist's songs without repetition. *)
Lemma reorder_shown (now : nat) (pid : string) (songIds : list string) (db : tables) :
  NoDup songIds → songIds ≡ₚ shown pid db →
  let db' := (reorder now pid songIds db).2 in
  shown pid db' = songIds ∧ dense pid db'
  ∧ (∀ other, other ≠ pid → rows_of other db' = rows_of other db).
Proof.
  intros Hnd Hperm. cbn zeta. unfold reorder. cbn [snd].
  unfold shown in Hperm. rewrite order_perm in Hperm.
  apply Permutation_map_inv in Hperm as (rows' & Hids & Hrows).
  assert (Hown : reordered pid songIds 0 <$> rows' = imap set_position rows').
  { apply list_eq. intros i. rewrite list_lookup_fmap, list_lookup_imap.
    destruct (rows' !! i) as [r|] eqn:Hi; [|reflexivity]. cbn.
    assert (Hp : in_playlist pid r = true).
    { assert (Hr : r ∈ rows_of pid db) by (rewrite Hrows; eapply list_elem_of_lookup_2, Hi).
      apply list_elem_of_filter in Hr as [Hr _]. exact Hr. }
    unfold reordered. rewrite Hp. erewrite index_of_lookup; [reflexivity|exact Hnd|].
    rewrite Hids. change (map song_id rows') with (song_id <$> rows').
    rewrite list_lookup_fmap, Hi. reflexivity. }
  assert (Hnew : rows_of pid
                   {| playlists := playlists db; songs := songs db;
                      playlist_songs := reorderLoop pid songIds 0 (playlist_songs db) |}
                 ≡ₚ imap set_position rows').
  { unfold rows_of at 1. cbn [playlist_songs]. rewrite (reorderLoop_map _ _ _ _ Hnd).
    rewrite filter_fmap_pres by (intros r; rewrite in_playlist_reordered; reflexivity).
    rewrite <- Hown. apply fmap_Permutation. exact Hrows. }
  assert (Hord := numbered_order _ _ Hnew).
  split; [|split].
  - unfold shown. rewrite rows_of_touch, Hord, song_id_numbered, Hids. reflexivity.
  - unfold dense, positions. rewrite !rows_of_touch, Hord, Hnew, length_imap.
    apply (imap_set_position_positions rows' 0).
  - intros other Hne. unfold rows_of. cbn [touch playlist_songs].
    rewrite (reorderLoop_map _ _ _ _ Hnd).
    rewrite filter_fmap_pres by (intros r; rewrite in_playlist_reordered; reflexivity).
    rewrite <- (list_fmap_id (filter _ (playlist_songs db))) at 2.
    apply list_fmap_ext. intros i r Hr.
    apply list_elem_of_lookup_2, list_elem_of_filter in Hr as [Hp Hr].
    unfold reordered, in_playlist in *.
    destruct (String.eqb_spec (playlist_id r) pid); [|reflexivity].
    destruct (String.eqb_spec (playlist_id r) other); congruence.
Qed.

(** X21. Reordering. Given each song of the playlist once, the route stores
    exactly that order: the playlist is listed in the order of the request,
    its positions are 0, 1, ..., n - 1, and the other playlists and the
    song cache are untouched. It answers success whatever it is given: a
    song id that is not in the playlist changes nothing, and an empty list
    leaves every position as it was. *)
Theorem reorder_stores_the_order (now : nat) (playlistId : string) (songIds : list string)
    (db : tables) :
  let out := reorder now playlistId songIds db in
  out.1 = Sent 200 true
  ∧ songs out.2 = songs db
  ∧ (NoDup songIds → songIds ≡ₚ shown playlistId db →
       shown playlistId out.2 = songIds ∧ dense playlistId out.2
       ∧ ∀ other, other ≠ playlistId → rows_of other out.2 = rows_of other db)
  ∧ ((∀ id, id ∈ songIds → id ∉ shown playlistId db) →
       playlist_songs out.2 = playlist_songs db).
Proof.
  cbn zeta. split; [reflexivity|]. split; [reflexivity|]. split.
  - intros Hnd Hperm. exact (reorder_shown now playlistId songIds db Hnd Hperm).
  - intros Hnone. unfold reorder. cbn [snd touch playlist_songs].
    generalize 0. revert Hnone. unfold shown. setoid_rewrite order_perm. unfold rows_of.
    generalize (playlist_songs db). intros t Hnone.
    induction songIds as [|songId rest IH]; intros index; [reflexivity|].
    cbn [reorderLoop].
    assert (Hsame : update_position (is_entry playlistId songId) index t = t).
    { unfold update_position. rewrite <- (list_fmap_id t) at 2.
      apply list_fmap_ext. intros i r Hr. cbn.
      destruct (is_entry playlistId songId r) eqn:He; [exfalso|reflexivity].
      apply (Hnone songId); [left|].
      unfold is_entry in He. apply andb_true_iff in He as [Hp Hs].
      apply String.eqb_eq in Hs. rewrite <- Hs. apply list_elem_of_fmap_2.
      apply list_elem_of_filter. split; [exact Hp|]. eapply list_elem_of_lookup_2, Hr. }
    rewrite Hsame. apply IH. intros id Hid. apply Hnone. by right.
Qed.

Lemma find_existsb {A} (f : A → bool) (l : list A) :
  existsb f l = match find f l with Some _ => true | None => false end.
Proof.
  induction l as [|x l IH]; [reflexivity|]. cbn. destruct (f x); [reflexivity|exact IH].
Qed.

Lemma existsb_elem {A} (f : A → bool) (l : list A) :
  existsb f l = true ↔ ∃ x, x ∈ l ∧ f x = true.
Proof.
  rewrite existsb_exists. split; intros (x & Hx & Hf); exists x; split; auto;
    by apply list_elem_of_In.
Qed.

Lemma entry_exists (pid songId : string) (t : list ps_row) :
  existsb (is_entry pid songId) t = true
  ↔ songId ∈ song_id <$> filter (λ r, in_playlist pid r = true) t.
Proof.
  rewrite existsb_elem. split.
  - intros (r & Hr & He). unfold is_entry in He. apply andb_true_iff in He as [Hp Hs].
    apply String.eqb_eq in Hs. rewrite <- Hs. apply list_elem_of_fmap_2.
    apply list_elem_of_filter. split; assumption.
  - intros H. apply list_elem_of_fmap in H as (r & -> & Hr).
    apply list_elem_of_filter in Hr as [Hp Hr]. exists r. split; [exact Hr|].
    unfold is_entry. unfold in_playlist in Hp. rewrite Hp, String.eqb_refl. reflexivity.
Qed.

Lemma id_fresh (id : string) (t : list ps_row) :
  id ∉ ps_id <$> t → existsb (λ r, String.eqb (ps_id r) id) t = false.
Proof.
  intros Hf. apply not_true_is_false. rewrite existsb_elem. intros (r & Hr & He).
  apply String.eqb_eq in He. apply Hf. rewrite <- He. by apply list_elem_of_fmap_2.
Qed.

Lemma foldr_max_spec (p : Z) (ps : list Z) :
  foldr Z.max p ps ∈ p :: ps ∧ ∀ x, x ∈ p :: ps → (x ≤ foldr Z.max p ps)%Z.
Proof.
  induction ps as [|y ps [IH1 IH2]]; cbn.
  - split; [left|]. intros x Hx. apply list_elem_of_singleton in Hx. lia.
  - split.
    + destruct (Z.max_spec y (foldr Z.max p ps)) as [[_ ->]|[_ ->]].
      * apply elem_of_cons in IH1 as [IH1|IH1]; [rewrite IH1; left|do 2 right; exact IH1].
      * right. left.
    + intros x Hx. apply elem_of_cons in Hx as [->|Hx].
      * pose proof (IH2 p (list_elem_of_here _ _)). lia.
      * apply elem_of_cons in Hx as [->|Hx]; [lia|].
        pose proof (IH2 x (list_elem_of_further _ _ _ Hx)). lia.
Qed.

Lemma max_pos_ge (pid : string) (db : tables) (r : ps_row) :
  r ∈ rows_of pid db → (position r ≤ max_pos pid db)%Z.
Proof.
  intros Hr. unfold max_pos.
  pose proof (list_elem_of_fmap_2 position _ _ Hr) as Hp.
  destruct (position <$> rows_of pid db) as [|p ps]; [by apply elem_of_nil in Hp|].
  by apply foldr_max_spec.
Qed.

Lemma max_pos_dense (pid : string) (db : tables) :
  dense pid db → max_pos pid db = (Z.of_nat (length (rows_of pid db)) - 1)%Z.
Proof.
  unfold dense, positions. intros Hd.
  assert (Hperm : position <$> rows_of pid db
                  ≡ₚ Z.of_nat <$> seq 0 (length (rows_of pid db))).
  { rewrite <- Hd. apply fmap_Permutation. symmetry. apply order_perm. }
  unfold max_pos. clear Hd.
  pose proof (length_fmap position (rows_of pid db)) as Hlen.
  destruct (position <$> rows_of pid db) as [|p ps] eqn:E.
  - cbn in Hlen. rewrite <- Hlen. reflexivity.
  - destruct (foldr_max_spec p ps) as [Hin Hmax]. rewrite <- Hlen in *. cbn [length] in *.
    rewrite Hperm in Hin. apply list_elem_of_fmap in Hin as (j & Hj & Hjn).
    apply elem_of_seq in Hjn.
    assert (Hlast : Z.of_nat (length ps) ∈ p :: ps).
    { rewrite Hperm. apply list_elem_of_fmap_2, elem_of_seq. lia. }
    pose proof (Hmax _ Hlast). lia.
Qed.

Lemma insert_row_snoc (x n : ps_row) (l : list ps_row) :
  (position x ≤ position n)%Z → insert_row x (l ++ [n]) = (insert_row x l ++ [n])%list.
Proof.
  intros Hx. induction l as [|y l IH]; cbn.
  - destruct (Z.leb_spec (position x) (position n)); [reflexivity|lia].
  - destruct (position x <=? position y)%Z; [reflexivity|]. cbn. f_equal. exact IH.
Qed.

(** A row whose position is not below any other is listed last. *)
Lemma order_snoc (n : ps_row) (l : list ps_row) :
  (∀ x, x ∈ l → (position x ≤ position n)%Z) →
  order_by_position (l ++ [n]) = (order_by_position l ++ [n])%list.
Proof.
  induction l as [|x l IH]; intros Hle; [reflexivity|].
  change (order_by_position ((x :: l) ++ [n]))
    with (insert_row x (order_by_position (l ++ [n]))).
  rewrite IH by (intros y Hy; apply Hle; by right).
  apply insert_row_snoc, Hle. left.
Qed.

Lemma find_snoc {A} (f : A → bool) (l : list A) (x : A) :
  existsb f l = false → f x = true → find f (l ++ [x]) = Some x.
Proof.
  induction l as [|y l IH]; cbn; intros He Hx; [rewrite Hx; reflexivity|].
  destruct (f y); [discriminate|]. apply IH; assumption.
Qed.

(** The rows of the tables after a successful insertion of an entry at the
    end of a playlist. *)
Lemma appended (now : nat) (pid : string) (db : tables) (row : ps_row) :
  playlist_id row = pid → position row = (max_pos pid db + 1)%Z →
  let db' := touch now pid {| playlists := playlists db; songs := songs db;
                              playlist_songs := (playlist_songs db ++ [row])%list |} in
  shown pid db' = (shown pid db ++ [song_id row])%list
  ∧ (dense pid db →
       dense pid db' ∧ position row = Z.of_nat (length (rows_of pid db)))
  ∧ ∀ other, other ≠ pid → rows_of other db' = rows_of other db.
Proof.
  intros Hp Hpos. cbn zeta.
  assert (Hrows : rows_of pid {| playlists := playlists db; songs := songs db;
                                 playlist_songs := (playlist_songs db ++ [row])%list |}
                  = (rows_of pid db ++ [row])%list).
  { unfold rows_of. cbn [playlist_songs]. rewrite filter_app. f_equal.
    rewrite filter_cons, filter_nil. unfold in_playlist. rewrite Hp, String.eqb_refl.
    destruct (decide (true = true)); [reflexivity|congruence]. }
  assert (Hord : order_by_position (rows_of pid db ++ [row])
                 = (order_by_position (rows_of pid db) ++ [row])%list).
  { apply order_snoc. intros x Hx. rewrite Hpos. pose proof (max_pos_ge _ _ _ Hx). lia. }
  split; [|split].
  - unfold shown. rewrite rows_of_touch, Hrows, Hord, fmap_app. reflexivity.
  - intros Hd. pose proof (max_pos_dense _ _ Hd) as Hmax.
    assert (Hn : position row = Z.of_nat (length (rows_of pid db))) by lia.
    split; [|exact Hn].
    unfold dense, positions in *. rewrite !rows_of_touch, Hrows, Hord, fmap_app, Hd.
    rewrite length_app. cbn [length fmap list_fmap].
    rewrite Nat.add_1_r, seq_S, fmap_app, Hn. reflexivity.
  - intros other Hne. unfold rows_of. cbn [touch playlist_songs].
    rewrite filter_app, filter_cons, filter_nil.
    destruct (decide (in_playlist other row = true)) as [E|_]; [|apply app_nil_r].
    unfold in_playlist in E. apply String.eqb_eq in E. congruence.
Qed.

(** X22. Adding a song. A request for an unknown playlist is answered 404 and
    one for a song already in the playlist 400, with the entries left as
    they were. Otherwise the song (the cached row with the same YouTube id
    if there is one, else a new row built from the request) is answered
    with 201 and the position one above the playlist's highest, so it is
    listed last after the songs listed before; a playlist numbered
    0, ..., n - 1 stays so numbered and the new song gets position n; the
    other playlists are untouched. *)
Theorem add_appends (now : nat) (songId psId playlistId : string) (body : add_body)
    (db : tables) :
  let out := addSong now songId psId playlistId body db in
  let cached := song_by_youtube_id (b_youtube_id body) db in
  let song := default {| s_id := songId;
                         s_youtube_id := b_youtube_id body;
                         s_title := b_title body;
                         s_artist := Some (or_empty (b_artist body));
                         s_duration := Some (default 0%Z (b_duration body));
                         s_thumbnail := Some (or_empty (b_thumbnail body));
                         s_file_path := None;
                         s_downloaded_at := None;
                         s_created_at := now |} cached in
  (playlist_by_id playlistId db = None → out = (Refused 404 "Playlist not found", db))
  ∧ (is_Some (playlist_by_id playlistId db) →
     psId ∉ ps_id <$> playlist_songs db →
     (cached = None → songId ∉ s_id <$> songs db) →
     (s_id song ∈ shown playlistId db →
        out.1 = Refused 400 "Song already in playlist"
        ∧ playlist_songs out.2 = playlist_songs db)
     ∧ (s_id song ∉ shown playlistId db →
          out.1 = Sent 201 (song, (max_pos playlistId db + 1)%Z, psId)
          ∧ shown playlistId out.2 = (shown playlistId db ++ [s_id song])%list
          ∧ songs out.2 = match cached with
                          | Some _ => songs db
                          | None => (songs db ++ [song])%list
                          end
          ∧ (dense playlistId db →
               dense playlistId out.2
               ∧ (max_pos playlistId db + 1)%Z
                 = Z.of_nat (length (rows_of playlistId db)))
          ∧ ∀ other, other ≠ playlistId → rows_of other out.2 = rows_of other db)).
Proof.
  cbn zeta. unfold addSong. split.
  - intros ->. reflexivity.
  - intros [pl Hpl] Hps Hfresh. rewrite Hpl.
    assert (Hplx : existsb (λ p, String.eqb (p_id p) playlistId) (playlists db) = true).
    { rewrite find_existsb. unfold playlist_by_id in Hpl. rewrite Hpl. reflexivity. }
    assert (Hshown : ∀ sid t, (sid ∈ shown playlistId
                                 {| playlists := playlists db; songs := t;
                                    playlist_songs := playlist_songs db |})
                              ↔ existsb (is_entry playlistId sid) (playlist_songs db) = true).
    { intros sid t. unfold shown. rewrite order_perm. symmetry. apply entry_exists. }
    destruct (song_by_youtube_id (b_youtube_id body) db) as [s|] eqn:Hc;
      cbn [default from_option id].
    + assert (Hsx : existsb (λ s', String.eqb (s_id s') (s_id s)) (songs db) = true).
      { apply existsb_elem. exists s. unfold song_by_youtube_id in Hc.
        apply find_some in Hc as [Hin _]. split; [by apply list_elem_of_In|].
        apply String.eqb_refl. }
      split.
      * intros Hin. apply (Hshown _ (songs db)) in Hin. rewrite Hin. split; reflexivity.
      * intros Hnot.
        assert (He : existsb (is_entry playlistId (s_id s)) (playlist_songs db) = false).
        { apply not_true_is_false. intros H. apply Hnot. by apply (Hshown _ (songs db)). }
        rewrite He. unfold insert_playlist_song. cbn [ps_id playlist_id song_id].
        rewrite (id_fresh _ _ Hps), He, Hplx, Hsx. cbn [negb orb fst snd].
        destruct (appended now playlistId db
                    {| ps_id := psId; playlist_id := playlistId; song_id := s_id s;
                       position := max_pos playlistId db + 1; ps_created_at := now |}
                    eq_refl eq_refl) as (H1 & H2 & H3).
        split; [reflexivity|]. split; [exact H1|]. split; [reflexivity|].
        split; [exact H2|exact H3].
    + pose proof (Hfresh eq_refl) as Hsong. unfold insert_song. cbn [s_id s_youtube_id].
      assert (Hsid : existsb (λ s, String.eqb (s_id s) songId) (songs db) = false).
      { apply not_true_is_false. rewrite existsb_elem. intros (x & Hx & He).
        apply String.eqb_eq in He. apply Hsong. rewrite <- He. by apply list_elem_of_fmap_2. }
      assert (Hyt : existsb (λ s, String.eqb (s_youtube_id s) (b_youtube_id body)) (songs db)
                    = false).
      { rewrite find_existsb. unfold song_by_youtube_id in Hc. rewrite Hc. reflexivity. }
      rewrite Hsid, Hyt. unfold song_by_id. cbn [songs].
      rewrite (find_snoc _ _ _ Hsid) by apply String.eqb_refl.
      cbn [s_id playlist_songs].
      split.
      * intros Hin. apply (Hshown _ (songs db)) in Hin. rewrite Hin. split; reflexivity.
      * intros Hnot.
        assert (He : existsb (is_entry playlistId songId) (playlist_songs db) = false).
        { apply not_true_is_false. intros H. apply Hnot. by apply (Hshown _ (songs db)). }
        rewrite He. unfold insert_playlist_song.
        cbn [ps_id playlist_id song_id playlist_songs playlists songs].
        rewrite (id_fresh _ _ Hps), He, Hplx, existsb_app. cbn [existsb s_id].
        rewrite String.eqb_refl, !orb_true_r. cbn [negb orb fst snd].
        set (db1 := {| playlists := playlists db; songs := (songs db ++ [_])%list;
                       playlist_songs := playlist_songs db |}).
        destruct (appended now playlistId db1
                    {| ps_id := psId; playlist_id := playlistId; song_id := songId;
                       position := max_pos playlistId db + 1; ps_created_at := now |}
                    eq_refl eq_refl) as (H1 & H2 & H3).
        split; [reflexivity|]. split; [exact H1|]. split; [reflexivity|].
        split; [exact H2|exact H3].
Qed.
End LibraryProperties.

(** ** Drag and drop, page and server together *)

Section DragProperties.
Import Library Browser.
Context {A : Type}.

Lemma reorderSongs_valid (source destination : nat) (songs : list A) (x : A) :
  songs !! source = Some x →
  reorderSongs source destination songs
  = Some <$> (take destination (delete source songs)
              ++ x :: drop destination (delete source songs))%list.
Proof.
  intros Hx. unfold reorderSongs. rewrite Hx.
  rewrite <- fmap_take, <- fmap_drop, fmap_app, fmap_cons. reflexivity.
Qed.

Lemma moved_Permutation (source destination : nat) (songs : list A) (x : A) :
  songs !! source = Some x →
  (take destination (delete source songs) ++ x :: drop destination (delete source songs))%list
  ≡ₚ songs.
Proof.
  intros Hx. rewrite <- Permutation_middle, take_drop. symmetry.
  apply delete_Permutation, Hx.
Qed.

Lemma songIds_present (id : A → string) (moved : list A) :
  songIds id (Some <$> moved) = Some (id <$> moved).
Proof.
  unfold songIds. induction moved as [|y moved IH]; [reflexivity|].
  cbn in *. rewrite IH. reflexivity.
Qed.

(** X23. A drag within the song list, on a page that shows the playlist as
    the server lists it: the page shows the songs with the dragged one
    moved, sends the ids in that order, and the reorder route stores them,
    so that the server then lists the playlist in the order the page
    shows, numbered 0, 1, ..., n - 1. *)
Theorem drag_is_stored (now : nat) (id : A → string) (playlistId : string) (db : tables)
    (songs : list A) (source destination : nat) (x : A) :
  id <$> songs = shown playlistId db → NoDup (shown playlistId db) →
  songs !! source = Some x →
  ∃ moved : list A,
    reorderSongs source destination songs = Some <$> moved
    ∧ songIds id (reorderSongs source destination songs) = Some (id <$> moved)
    ∧ let db' := (reorder now playlistId (id <$> moved) db).2 in
      shown playlistId db' = id <$> moved ∧ dense playlistId db'
      ∧ length (shown playlistId db') = length (shown playlistId db).
Proof.
  intros Hsync Hnd Hx.
  pose proof (reorderSongs_valid source destination songs x Hx) as Hm.
  pose proof (moved_Permutation source destination songs x Hx) as Hp.
  set (moved := (take destination (delete source songs)
                 ++ x :: drop destination (delete source songs))%list) in *.
  exists moved. split; [exact Hm|]. split; [rewrite Hm; apply songIds_present|].
  assert (Hperm : id <$> moved ≡ₚ shown playlistId db).
  { rewrite <- Hsync. apply fmap_Permutation, Hp. }
  assert (Hnd' : NoDup (id <$> moved)) by (rewrite Hperm; exact Hnd).
  destruct (reorder_shown now playlistId (id <$> moved) db Hnd' Hperm) as (H1 & H2 & _).
  cbn zeta. split; [exact H1|]. split; [exact H2|].
  rewrite H1, Hperm. reflexivity.
Qed.
End DragProperties.

(** ** Downloads *)

Section DownloadProperties.
Import Library Downloads.
Variable join : string → string.

(** The first element of a directory listing that passes two tests. *)
Lemma find_filter_first (P q : string → bool) (dir : list string) (x : string) :
  find q (filter (λ f, P f = true) dir) = Some x ↔
  ∃ i : nat, dir !! i = Some x ∧ P x = true ∧ q x = true
             ∧ ∀ (j : nat) g, (j < i)%nat → dir !! j = Some g → P g = true → q g = false.
Proof.
  induction dir as [|a dir IH].
  - split; [discriminate|]. intros (i & Hi & _). discriminate.
  - rewrite filter_cons. destruct (decide (P a = true)) as [Ha|Ha].
    + cbn [find]. destruct (q a) eqn:Hq.
      * split.
        -- intros H. injection H as <-. exists 0%nat. repeat split; auto. intros j g Hj. lia.
        -- intros ([|i] & Hi & HP & Hqx & Hfirst).
           ++ injection Hi as ->. reflexivity.
           ++ specialize (Hfirst 0%nat a ltac:(lia) eq_refl Ha). congruence.
      * rewrite IH. split.
        -- intros (i & Hi & HP & Hqx & Hfirst). exists (S i). repeat split; auto.
           intros [|j] g Hj Hg HPg; [injection Hg as <-; exact Hq|].
           apply (Hfirst j g); [lia | exact Hg | exact HPg].
        -- intros ([|i] & Hi & HP & Hqx & Hfirst).
           ++ injection Hi as ->. congruence.
           ++ exists i. repeat split; auto. intros j g Hj Hg HPg.
              apply (Hfirst (S j) g); [lia | exact Hg | exact HPg].
    + rewrite IH. split.
      * intros (i & Hi & HP & Hqx & Hfirst). exists (S i). repeat split; auto.
        intros [|j] g Hj Hg HPg; [injection Hg as <-; contradiction|].
        apply (Hfirst j g); [lia | exact Hg | exact HPg].
      * intros ([|i] & Hi & HP & Hqx & Hfirst).
        -- injection Hi as ->. contradiction.
        -- exists i. repeat split; auto. intros j g Hj Hg HPg.
           apply (Hfirst (S j) g); [lia | exact Hg | exact HPg].
Qed.

Lemma find_any_head (l : list string) : find (λ _, true) l = head l.
Proof. destruct l; reflexivity. Qed.

(** X24. A download resolves only after a clean exit, with a file of the
    downloads directory whose name starts with the video id: the first
    such file, in the order of the directory listing, ending in '.mp3' if
    there is one, else the first such file. With no such file it rejects
    with 'Download completed but file not found'. Any other exit rejects,
    with what the process wrote to stderr if it wrote anything. *)
Theorem downloadAudio_picks_a_file (youtubeId : string) (e : exit) :
  (∀ filePath, downloadAudio join youtubeId e = Returned filePath →
     ∃ stderr dir (i : nat) f,
       e = Closed (Some 0) stderr dir ∧ dir !! i = Some f ∧ startsWith f youtubeId = true
       ∧ filePath = join f
       ∧ ((endsWith f ".mp3" = true
           ∧ ∀ (j : nat) g, (j < i)%nat → dir !! j = Some g →
               startsWith g youtubeId = true → endsWith g ".mp3" = false)
          ∨ ((∀ g, g ∈ dir → startsWith g youtubeId = true → endsWith g ".mp3" = false)
             ∧ ∀ (j : nat) g, (j < i)%nat → dir !! j = Some g →
                 startsWith g youtubeId = false)))
  ∧ (∀ stderr dir (i : nat) f, e = Closed (Some 0) stderr dir → dir !! i = Some f →
       startsWith f youtubeId = true → endsWith f ".mp3" = true →
       (∀ (j : nat) g, (j < i)%nat → dir !! j = Some g →
          startsWith g youtubeId = true → endsWith g ".mp3" = false) →
       downloadAudio join youtubeId e = Returned (join f))
  ∧ (∀ stderr dir (i : nat) f, e = Closed (Some 0) stderr dir → dir !! i = Some f →
       startsWith f youtubeId = true →
       (∀ g, g ∈ dir → startsWith g youtubeId = true → endsWith g ".mp3" = false) →
       (∀ (j : nat) g, (j < i)%nat → dir !! j = Some g → startsWith g youtubeId = false) →
       downloadAudio join youtubeId e = Returned (join f))
  ∧ (∀ stderr dir, e = Closed (Some 0) stderr dir →
       (∀ g, g ∈ dir → startsWith g youtubeId = false) →
       downloadAudio join youtubeId e = Thrown "Download completed but file not found")
  ∧ (∀ stderr dir f, e = Closed (Some 0) stderr dir → f ∈ dir →
       startsWith f youtubeId = true →
       ∃ filePath, downloadAudio join youtubeId e = Returned filePath)
  ∧ (∀ code stderr dir, e = Closed code stderr dir → code ≠ Some 0 →
       downloadAudio join youtubeId e
       = Thrown (if truthy stderr then stderr
                 else "yt-dlp exited with code " +:+ String_of_code code))
  ∧ (∀ message, e = SpawnFailed message →
       downloadAudio join youtubeId e = Thrown ("Failed to start yt-dlp: " +:+ message)).
Proof.
  assert (Hnone : ∀ dir,
            find (λ f, endsWith f ".mp3") (filter (λ f, startsWith f youtubeId = true) dir)
            = None →
            ∀ g, g ∈ dir → startsWith g youtubeId = true → endsWith g ".mp3" = false).
  { intros dir Hf g Hg Hgs. apply (find_none _ _ Hf). apply list_elem_of_In.
    apply list_elem_of_filter. split; assumption. }
  assert (Hno_mp3 : ∀ dir,
            (∀ g, g ∈ dir → startsWith g youtubeId = true → endsWith g ".mp3" = false) →
            find (λ f, endsWith f ".mp3") (filter (λ f, startsWith f youtubeId = true) dir)
            = None).
  { intros dir Hall. destruct (find _ _) as [x|] eqn:Hf; [|reflexivity].
    apply find_filter_first in Hf as (i & Hi & HP & Hq & _).
    rewrite (Hall x) in Hq; [discriminate| |exact HP].
    eapply list_elem_of_lookup_2, Hi. }
  split; [|split; [|split; [|split; [|split; [|split]]]]].
  - intros filePath. destruct e as [message|code stderr dir]; [discriminate|]. cbn.
    destruct (bool_decide_reflect (code = Some 0)) as [->|Hc]; [|discriminate]. cbn.
    destruct (find _ _) as [mp3|] eqn:Hf.
    + intros H. injection H as <-.
      apply find_filter_first in Hf as (i & Hi & HP & Hq & Hfirst).
      exists stderr, dir, i, mp3. repeat split; auto.
    + destruct (filter _ dir) as [|f files] eqn:Hfiles; [discriminate|].
      intros H. injection H as <-.
      assert (Hhead : find (λ _, true) (filter (λ f, startsWith f youtubeId = true) dir)
                      = Some f) by (rewrite Hfiles; reflexivity).
      apply find_filter_first in Hhead as (i & Hi & HP & _ & Hfirst).
      exists stderr, dir, i, f. repeat split; auto. right. split.
      * apply Hnone. rewrite Hfiles. exact Hf.
      * intros j g Hj Hg. destruct (startsWith g youtubeId) eqn:Hs; [|reflexivity].
        specialize (Hfirst j g Hj Hg Hs). discriminate.
  - intros stderr dir i f -> Hi Hs Hmp3 Hfirst. cbn.
    assert (Hf : find (λ f, endsWith f ".mp3")
                   (filter (λ f, startsWith f youtubeId = true) dir) = Some f).
    { apply find_filter_first. exists i. auto. }
    rewrite Hf. reflexivity.
  - intros stderr dir i f -> Hi Hs Hall Hfirst. cbn.
    rewrite (Hno_mp3 dir Hall).
    assert (Hhead : find (λ _, true) (filter (λ f, startsWith f youtubeId = true) dir)
                    = Some f).
    { apply find_filter_first. exists i. repeat split; auto.
      intros j g Hj Hg Hgs. rewrite (Hfirst j g Hj Hg) in Hgs. discriminate. }
    rewrite find_any_head in Hhead.
    destruct (filter _ dir) as [|g files]; [discriminate|].
    injection Hhead as ->. reflexivity.
  - intros stderr dir -> Hall. cbn.
    assert (Hfiles : filter (λ f, startsWith f youtubeId = true) dir = []).
    { destruct (filter _ dir) as [|g files] eqn:Hfiles; [reflexivity|].
      assert (Hin : g ∈ filter (λ f, startsWith f youtubeId = true) dir)
        by (rewrite Hfiles; left).
      apply list_elem_of_filter in Hin as [Hs Hin]. rewrite (Hall g Hin) in Hs.
      discriminate. }
    rewrite Hfiles. reflexivity.
  - intros stderr dir f -> Hin Hs. cbn.
    destruct (find _ _) as [mp3|]; [eauto|].
    destruct (filter _ dir) as [|g files] eqn:Hfiles; [|eauto].
    exfalso. eapply (filter_nil_not_elem_of _ _ f Hfiles); [exact Hs|exact Hin].
  - intros code stderr dir -> Hc. cbn.
    destruct (bool_decide_reflect (code = Some 0)); [contradiction|reflexivity].
  - intros message ->. reflexivity.
Qed.

Lemma find_updated (now : nat) (filePath youtubeId : string) (l : list song_row) :
  find (λ s, String.eqb (s_youtube_id s) youtubeId)
    (songs (set_file_path now filePath youtubeId
              {| playlists := []; songs := l; playlist_songs := [] |}))
  = (λ s, {| s_id := s_id s; s_youtube_id := s_youtube_id s;
             s_title := s_title s; s_artist := s_artist s;
             s_duration := s_duration s; s_thumbnail := s_thumbnail s;
             s_file_path := Some filePath; s_downloaded_at := Some now;
             s_created_at := s_created_at s |})
    <$> find (λ s, String.eqb (s_youtube_id s) youtubeId) l.
Proof.
  cbn [set_file_path songs]. induction l as [|s l IH]; [reflexivity|].
  cbn [fmap list_fmap find]. destruct (String.eqb (s_youtube_id s) youtubeId) eqn:E.
  - cbn [s_youtube_id]. rewrite E. reflexivity.
  - rewrite E. exact IH.
Qed.

(** X25. Downloading one song. A song whose file is on disk is answered as
    cached, without starting [yt-dlp] and without touching the tables. A
    failed download answers 500 with the error and changes nothing. A
    successful download of a song of the cache stores the file path in its
    row and answers with that row, and a repeated request, with that file
    on disk, is then answered as cached; a successful download of a video
    that has no row in the cache answers success with no song and records
    nothing. *)
Theorem download_is_remembered (now : nat) (existsSync : string → bool) (e : exit)
    (youtubeId : string) (db : tables) :
  let out := downloadSong join now existsSync e youtubeId db in
  let existing := song_by_youtube_id youtubeId db in
  (on_disk existsSync existing = true → out = (Success existing true, [], db))
  ∧ (on_disk existsSync existing = false →
       out.1.2 = [youtubeId]
       ∧ (∀ message, downloadAudio join youtubeId e = Thrown message →
            out = (DownloadFailed message, [youtubeId], db))
       ∧ (∀ filePath, downloadAudio join youtubeId e = Returned filePath →
            playlists out.2 = playlists db ∧ playlist_songs out.2 = playlist_songs db
            ∧ (existing = None → out = (Success None false, [youtubeId], db))
            ∧ (∀ song, existing = Some song →
                 ∃ song', out.1.1 = Success (Some song') false
                          ∧ song_by_youtube_id youtubeId out.2 = Some song'
                          ∧ s_file_path song' = Some filePath ∧ s_id song' = s_id song
                          ∧ (truthy filePath = true →
                             ∀ now' existsSync' e',
                               existsSync' filePath = true →
                               downloadSong join now' existsSync' e' youtubeId out.2
                               = (Success (Some song') true, [], out.2))))).
Proof.
  cbn zeta. unfold downloadSong. split.
  - intros ->. reflexivity.
  - intros Hd. rewrite Hd. split; [destruct (downloadAudio _ _ _); reflexivity|].
    split; [intros message ->; reflexivity|].
    intros filePath ->. cbn [fst snd]. split; [reflexivity|]. split; [reflexivity|].
    assert (Hfind : song_by_youtube_id youtubeId (set_file_path now filePath youtubeId db)
                    = (λ s, {| s_id := s_id s; s_youtube_id := s_youtube_id s;
                               s_title := s_title s; s_artist := s_artist s;
                               s_duration := s_duration s; s_thumbnail := s_thumbnail s;
                               s_file_path := Some filePath; s_downloaded_at := Some now;
                               s_created_at := s_created_at s |})
                      <$> song_by_youtube_id youtubeId db).
    { apply (find_updated now filePath youtubeId (songs db)). }
    split.
    + intros Hnone. rewrite Hfind, Hnone. cbn [fmap option_fmap option_map].
      do 2 f_equal. destruct db as [ps ss pss]. unfold set_file_path. cbn. f_equal.
      unfold song_by_youtube_id in Hnone. cbn in Hnone.
      rewrite <- (list_fmap_id ss) at 2. apply list_fmap_ext. intros i s Hs.
      destruct (String.eqb (s_youtube_id s) youtubeId) eqn:E; [|reflexivity].
      exfalso. assert (Hin : In s ss).
      { apply list_elem_of_In. eapply list_elem_of_lookup_2, Hs. }
      pose proof (find_none _ _ Hnone s Hin) as Hf. cbn in Hf. congruence.
    + intros song Hsome. rewrite Hfind, Hsome. cbn [fmap option_fmap option_map].
      eexists. split; [reflexivity|]. split; [reflexivity|]. split; [reflexivity|].
      split; [reflexivity|].
      intros Ht now' existsSync' e' Hex.
      cbn [on_disk s_file_path]. rewrite Ht, Hex. reflexivity.
Qed.

Lemma downloadLoop_cons (w : world) total song rest i c e db :
  downloadLoop join w total (song :: rest) i c e db =
  let start := Write (ev_progress (c + 1) total (s_title song) (s_youtube_id song)) in
  if cached w i song then
    let next := downloadLoop join w total rest (S i) (c + 1) e db in
    (start :: Write (ev_complete (s_youtube_id song) true) :: next.1, next.2)
  else
    match downloadAudio join (s_youtube_id song) (exits w i) with
    | Returned filePath =>
        let next := downloadLoop join w total rest (S i) (c + 1) e
                      (set_file_path (clock w i) filePath (s_youtube_id song) db) in
        (start :: Spawn (s_youtube_id song)
           :: Write (ev_complete (s_youtube_id song) false) :: next.1, next.2)
    | Thrown message =>
        let next := downloadLoop join w total rest (S i) c (e + 1) db in
        (start :: Spawn (s_youtube_id song)
           :: Write (ev_error (s_youtube_id song) message) :: next.1, next.2)
    end.
Proof. reflexivity. Qed.

(** The ids of the songs the loop has to download, from index [i] on. *)
Lemma loop_events (w : world) total rest i c e db :
  let run := downloadLoop join w total rest i c e db in
  Forall (λ x, per_song x = true) run.1
  ∧ started_ids run.1 = s_youtube_id <$> rest
  ∧ run.2.1.1 = c + length (completed_ids run.1)
  ∧ run.2.1.2 = e + length (failed_ids run.1)
  ∧ length (completed_ids run.1) + length (failed_ids run.1) = length rest
  ∧ spawned run.1
    = omap id (imap (λ j s, if cached w (i + j) s then None else Some (s_youtube_id s)) rest)
  ∧ Forall (λ cur, (c + 1 ≤ cur ≤ c + length rest)%nat) (currents run.1)
  ∧ (failed_ids run.1 = [] → currents run.1 = seq (c + 1) (length rest)).
Proof.
  cbn zeta. revert i c e db. induction rest as [|song rest IH]; intros i c e db.
  - cbn. repeat split; auto; lia.
  - rewrite downloadLoop_cons. cbn zeta. rewrite imap_cons, Nat.add_0_r.
    assert (Hext : imap ((λ j s, if cached w (i + j) s then None else Some (s_youtube_id s)) ∘ S)
                     rest
                   = imap (λ j s, if cached w (S i + j) s then None else Some (s_youtube_id s))
                       rest).
    { apply imap_ext. intros j s _. cbn. replace (i + S j) with (S (i + j)) by lia.
      reflexivity. }
    rewrite Hext. clear Hext.
    destruct (cached w i song).
    + destruct (IH (S i) (c + 1) e db) as (H1 & H2 & H3 & H4 & H5 & H6 & H7 & H8).
      unfold completed_ids, failed_ids, started_ids, spawned, currents in *.
      cbn [fst snd omap list_omap length fmap list_fmap] in *.
      split; [repeat constructor; exact H1|].
      split; [f_equal; exact H2|]. split; [rewrite H3; lia|].
      split; [exact H4|]. split; [lia|]. split; [exact H6|].
      split.
      * constructor; [lia|]. eapply Forall_impl; [exact H7|]. cbn. intros; lia.
      * intros Hf. cbn [seq]. f_equal. rewrite (H8 Hf). f_equal. lia.
    + destruct (downloadAudio join (s_youtube_id song) (exits w i)) as [filePath|message].
      * destruct (IH (S i) (c + 1) e
                    (set_file_path (clock w i) filePath (s_youtube_id song) db))
          as (H1 & H2 & H3 & H4 & H5 & H6 & H7 & H8).
        unfold completed_ids, failed_ids, started_ids, spawned, currents in *.
        cbn [fst snd omap list_omap length fmap list_fmap id] in *.
        split; [repeat constructor; exact H1|].
        split; [f_equal; exact H2|]. split; [rewrite H3; lia|].
        split; [exact H4|]. split; [lia|]. split; [f_equal; exact H6|].
        split.
        -- constructor; [lia|]. eapply Forall_impl; [exact H7|]. cbn. intros; lia.
        -- intros Hf. cbn [seq]. f_equal. rewrite (H8 Hf). f_equal. lia.
      * destruct (IH (S i) c (e + 1) db) as (H1 & H2 & H3 & H4 & H5 & H6 & H7 & H8).
        unfold completed_ids, failed_ids, started_ids, spawned, currents in *.
        cbn [fst snd omap list_omap length fmap list_fmap id] in *.
        split; [repeat constructor; exact H1|].
        split; [f_equal; exact H2|]. split; [exact H3|].
        split; [rewrite H4; lia|]. split; [lia|].
        split; [f_equal; exact H6|].
        split.
        -- constructor; [lia|]. eapply Forall_impl; [exact H7|]. cbn. intros; lia.
        -- discriminate.
Qed.

(** The events of the loop, song by song: the progress event with the
    number of songs completed so far plus one, then the song's report. *)
Lemma loop_written (w : world) total rest i c e db :
  let run := downloadLoop join w total rest i c e db in
  written run.1
  = mjoin (imap (λ j s, [ev_progress (c + completed_among join w i (take j rest) + 1) total
                           (s_title s) (s_youtube_id s);
                         report join w (i + j) s]) rest)
  ∧ run.2.1.1 = c + completed_among join w i rest
  ∧ run.2.1.2 + completed_among join w i rest = e + length rest.
Proof.
  cbn zeta. revert i c e db. induction rest as [|song rest IH]; intros i c e db.
  - cbn. repeat split; lia.
  - rewrite downloadLoop_cons. cbn zeta. rewrite imap_cons.
    cbn [take completed_among mjoin list_join app length]. rewrite !Nat.add_0_r.
    set (b := match report join w i song with ev_error _ _ => 0 | _ => 1 end).
    assert (Htail : imap ((λ j s, [ev_progress
                                     (c + completed_among join w i (take j (song :: rest)) + 1)
                                     total (s_title s) (s_youtube_id s);
                                   report join w (i + j) s]) ∘ S) rest
                    = imap (λ j s, [ev_progress
                                      (c + b + completed_among join w (S i) (take j rest) + 1)
                                      total (s_title s) (s_youtube_id s);
                                    report join w (S i + j) s]) rest).
    { apply imap_ext. intros j s _. cbn [compose take completed_among]. fold b.
      replace (i + S j) with (S i + j) by lia.
      replace (c + (b + completed_among join w (S i) (take j rest)) + 1)
        with (c + b + completed_among join w (S i) (take j rest) + 1) by lia.
      reflexivity. }
    rewrite Htail. clear Htail.
    destruct (cached w i song) eqn:Hc.
    + assert (Hrep : report join w i song = ev_complete (s_youtube_id song) true)
        by (unfold report; rewrite Hc; reflexivity).
      assert (Hb : b = 1) by (unfold b; rewrite Hrep; reflexivity).
      rewrite Hrep, Hb.
      destruct (IH (S i) (c + 1) e db) as (H1 & H2 & H3).
      cbn [fst snd]. split; [|split; [lia|lia]].
      change (written (?x :: ?y :: ?t)) with (ev_progress (c + 1) total (s_title song)
                                                (s_youtube_id song)
                                              :: ev_complete (s_youtube_id song) true
                                              :: written t).
      rewrite H1. reflexivity.
    + destruct (downloadAudio join (s_youtube_id song) (exits w i)) as [filePath|message]
        eqn:Hd.
      * assert (Hrep : report join w i song = ev_complete (s_youtube_id song) false)
          by (unfold report; rewrite Hc, Hd; reflexivity).
        assert (Hb : b = 1) by (unfold b; rewrite Hrep; reflexivity).
        rewrite Hrep, Hb.
        destruct (IH (S i) (c + 1) e
                    (set_file_path (clock w i) filePath (s_youtube_id song) db))
          as (H1 & H2 & H3).
        cbn [fst snd]. split; [|split; [lia|lia]].
        change (written (?x :: ?y :: ?z :: ?t))
          with (ev_progress (c + 1) total (s_title song) (s_youtube_id song)
                :: ev_complete (s_youtube_id song) false :: written t).
        rewrite H1. reflexivity.
      * assert (Hrep : report join w i song = ev_error (s_youtube_id song) message)
          by (unfold report; rewrite Hc, Hd; reflexivity).
        assert (Hb : b = 0) by (unfold b; rewrite Hrep; reflexivity).
        rewrite Hrep, Hb.
        destruct (IH (S i) c (e + 1) db) as (H1 & H2 & H3).
        cbn [fst snd]. split; [|split; [lia|lia]].
        change (written (?x :: ?y :: ?z :: ?t))
          with (ev_progress (c + 1) total (s_title song) (s_youtube_id song)
                :: ev_error (s_youtube_id song) message :: written t).
        rewrite H1, ?Nat.add_0_r. reflexivity.
Qed.

(** The [current] of a progress event is one more than the number of
    complete reports written before it, plus the loop's counter on entry. *)
Lemma loop_counter (w : world) total rest i c e db (k cur : nat) total' title youtubeId :
  let events := written (downloadLoop join w total rest i c e db).1 in
  events !! k = Some (ev_progress cur total' title youtubeId) →
  cur = c + length (List.filter is_complete (take k events)) + 1.
Proof.
  cbn zeta. revert i c e db k. induction rest as [|song rest IH]; intros i c e db k.
  - cbn. destruct k; discriminate.
  - rewrite downloadLoop_cons. cbn zeta. destruct (cached w i song).
    + cbn [fst snd].
      change (written (?x :: ?y :: ?t))
        with (ev_progress (c + 1) total (s_title song) (s_youtube_id song)
              :: ev_complete (s_youtube_id song) true :: written t).
      destruct k as [|[|k]].
      * intros H. injection H as <- _ _ _. cbn. lia.
      * discriminate.
      * cbn [lookup list_lookup take List.filter is_complete length]. intros H.
        rewrite (IH _ _ _ _ _ H). cbn [length]. lia.
    + destruct (downloadAudio join (s_youtube_id song) (exits w i)) as [filePath|message].
      * cbn [fst snd].
        change (written (?x :: ?y :: ?z :: ?t))
          with (ev_progress (c + 1) total (s_title song) (s_youtube_id song)
                :: ev_complete (s_youtube_id song) false :: written t).
        destruct k as [|[|k]].
        -- intros H. injection H as <- _ _ _. cbn. lia.
        -- discriminate.
        -- cbn [lookup list_lookup take List.filter is_complete length]. intros H.
           rewrite (IH _ _ _ _ _ H). cbn [length]. lia.
      * cbn [fst snd].
        change (written (?x :: ?y :: ?z :: ?t))
          with (ev_progress (c + 1) total (s_title song) (s_youtube_id song)
                :: ev_error (s_youtube_id song) message :: written t).
        destruct k as [|[|k]].
        -- intros H. injection H as <- _ _ _. cbn. lia.
        -- discriminate.
        -- cbn [lookup list_lookup take List.filter is_complete length]. intros H.
           rewrite (IH _ _ _ _ _ H). lia.
Qed.

(** X26. The download stream accounts for every song. Its effects are the
    per-song effects, then one [done] event, then [res.end()]. The events
    written before [done] are, for each song of the playlist in listing
    order, its progress event, whose [current] counter is the number of
    songs reported complete so far plus one, followed by exactly one
    report of that song: complete from the cache, complete after its
    download, or the error of its download. [done] carries the number of
    complete and of failed reports, which add up to the number of songs.
    Only the songs that are not on disk are downloaded. So the counter
    runs 1, 2, ..., n when nothing fails and never passes n. *)
Theorem download_stream_counts (w : world) (playlistId : string) (db : tables) :
  let run := downloadPlaylistStream join w playlistId db in
  let songs := songs_of playlistId db in
  ∃ pre completed errors,
    run.1 = (pre ++ [Write (ev_done completed errors (length songs)); End])%list
    ∧ Forall (λ x, per_song x = true) pre
    ∧ started_ids pre = s_youtube_id <$> songs
    ∧ completed = length (completed_ids pre) ∧ errors = length (failed_ids pre)
    ∧ completed + errors = length songs
    ∧ spawned pre
      = omap id (imap (λ i s, if cached w i s then None else Some (s_youtube_id s)) songs)
    ∧ Forall (λ cur, (1 ≤ cur ≤ length songs)%nat) (currents pre)
    ∧ (errors = 0 → currents pre = seq 1 (length songs))
    ∧ written pre
      = mjoin (imap (λ i s, [ev_progress (completed_among join w 0 (take i songs) + 1)
                               (length songs) (s_title s) (s_youtube_id s);
                             if cached w i s then ev_complete (s_youtube_id s) true
                             else
                               match downloadAudio join (s_youtube_id s) (exits w i) with
                               | Returned _ => ev_complete (s_youtube_id s) false
                               | Thrown message => ev_error (s_youtube_id s) message
                               end]) songs)
    ∧ completed = completed_among join w 0 songs
    ∧ (∀ (k cur : nat) total title youtubeId,
         written pre !! k = Some (ev_progress cur total title youtubeId) →
         cur = length (List.filter is_complete (take k (written pre))) + 1).
Proof.
  cbn zeta. unfold downloadPlaylistStream. cbn [fst].
  set (songs := songs_of playlistId db).
  destruct (loop_events w (length songs) songs 0 0 0 db)
    as (H1 & H2 & H3 & H4 & H5 & H6 & H7 & H8).
  destruct (loop_written w (length songs) songs 0 0 0 db) as (W1 & W2 & _).
  eexists _, _, _. split; [reflexivity|].
  split; [exact H1|]. split; [exact H2|]. split; [exact H3|]. split; [exact H4|].
  split; [rewrite H3, H4; cbn; exact H5|]. split; [exact H6|].
  split; [exact H7|]. split; [|split; [exact W1 | split; [exact W2|]]].
  - intros He. apply H8. rewrite H4 in He. cbn in He.
    destruct (failed_ids _); [reflexivity|discriminate].
  - intros k cur total title youtubeId Hk.
    apply (loop_counter w (length songs) songs 0 0 0 db k cur total title youtubeId Hk).
Qed.

Lemma updated_refl (s : song_row) : updated [] s s.
Proof.
  unfold updated. repeat split; auto. intros H. by apply elem_of_nil in H.
Qed.

Lemma loop_tables (w : world) total rest i c e db :
  let run := downloadLoop join w total rest i c e db in
  playlists run.2.2 = playlists db ∧ playlist_songs run.2.2 = playlist_songs db
  ∧ Forall2 (updated (downloaded_ids run.1)) (songs db) (songs run.2.2).
Proof.
  cbn zeta. revert i c e db. induction rest as [|song rest IH]; intros i c e db.
  - cbn. repeat split. apply Forall2_same_length_lookup_2; [reflexivity|].
    intros k s s' H1 H2. rewrite H1 in H2. injection H2 as <-. apply updated_refl.
  - rewrite downloadLoop_cons. cbn zeta. destruct (cached w i song).
    + apply (IH (S i) (c + 1) e db).
    + destruct (downloadAudio join (s_youtube_id song) (exits w i)) as [filePath|message].
      * destruct (IH (S i) (c + 1) e
                    (set_file_path (clock w i) filePath (s_youtube_id song) db))
          as (H1 & H2 & H3).
        cbn [fst snd]. split; [exact H1|]. split; [exact H2|].
        change (downloaded_ids (_ :: _ :: _ :: ?t))
          with (s_youtube_id song :: downloaded_ids t).
        cbn [set_file_path songs] in H3. rewrite Forall2_fmap_l in H3.
        eapply Forall2_impl; [exact H3|]. cbn beta. intros s s'. unfold compose.
        destruct (String.eqb_spec (s_youtube_id s) (s_youtube_id song)) as [E|E]; intros Hu.
        -- destruct Hu as (U1 & U2 & U3 & U4 & U5 & U6 & U7 & U8 & U9). cbn in *.
           unfold updated. repeat split; auto.
           ++ intros Hn. exfalso. apply Hn. rewrite E. left.
           ++ intros _.
              destruct (decide (s_youtube_id s ∈ downloaded_ids
                                  (downloadLoop join w total rest (S i) (c + 1) e
                                     (set_file_path (clock w i) filePath
                                        (s_youtube_id song) db)).1)) as [Hin|Hin].
              ** apply U9. exact Hin.
              ** rewrite (U8 Hin). cbn. eauto.
        -- destruct Hu as (U1 & U2 & U3 & U4 & U5 & U6 & U7 & U8 & U9).
           unfold updated. repeat split; auto.
           ++ intros Hn. apply U8. intros Hin. apply Hn. by right.
           ++ intros Hin. apply elem_of_cons in Hin as [Hin|Hin]; [contradiction|].
              apply U9, Hin.
      * apply (IH (S i) c (e + 1) db).
Qed.

(** X27. What the download stream does to the tables: playlists and their
    entries are untouched, so every playlist is listed as before; a row of
    the song cache changes only if its song was downloaded in this run,
    only in its file path and download time, and then it has a file
    path. *)
Theorem download_stores_paths (w : world) (playlistId : string) (db : tables) :
  let run := downloadPlaylistStream join w playlistId db in
  playlists run.2 = playlists db
  ∧ playlist_songs run.2 = playlist_songs db
  ∧ (∀ other, shown other run.2 = shown other db)
  ∧ Forall2 (updated (downloaded_ids run.1)) (songs db) (songs run.2).
Proof.
  cbn zeta. unfold downloadPlaylistStream. cbn [fst snd].
  destruct (loop_tables w (length (songs_of playlistId db)) (songs_of playlistId db) 0 0 0 db)
    as (H1 & H2 & H3).
  split; [exact H1|]. split; [exact H2|]. split.
  - intros other. unfold shown, rows_of. rewrite H2. reflexivity.
  - unfold downloaded_ids in *. rewrite omap_app. cbn [omap list_omap].
    rewrite app_nil_r. exact H3.
Qed.

Section PageProperties.
Variable currentSongs : list song_row.

Lemma download_deliver_closed (events : list event) (pg : page) :
  closed pg = true → deliver currentSongs events pg = pg.
Proof. intros H. destruct events; cbn; rewrite ?H; reflexivity. Qed.

Lemma download_deliver_app (l1 l2 : list event) (pg : page) :
  deliver currentSongs (l1 ++ l2) pg
  = deliver currentSongs l2 (deliver currentSongs l1 pg).
Proof.
  revert pg. induction l1 as [|e l1 IH]; intros pg; [reflexivity|].
  cbn. destruct (closed pg) eqn:Hc; [|apply IH].
  rewrite download_deliver_closed by exact Hc. reflexivity.
Qed.

(** The page after the events of the loop: every song of the loop is no
    longer marked as downloading, nothing else has changed in that map, and
    the event source is still open. *)
Lemma loop_page (w : world) total rest i c e db (pg : page) :
  closed pg = false →
  let pg' := deliver currentSongs (written (downloadLoop join w total rest i c e db).1) pg in
  closed pg' = false ∧ toasts pg' = toasts pg ∧ refetched pg' = refetched pg
  ∧ ∀ key, downloading pg' !! key
           = if decide (key ∈ s_youtube_id <$> rest) then Some false
             else downloading pg !! key.
Proof.
  cbn zeta. revert i c e db pg. induction rest as [|song rest IH]; intros i c e db pg Hc.
  - cbn. repeat split; auto.
  - rewrite downloadLoop_cons. cbn zeta.
    assert (Hkey : ∀ (m : gmap string bool) key,
              (if decide (key ∈ s_youtube_id <$> rest) then Some false
               else <[s_youtube_id song := false]> (<[s_youtube_id song := true]> m) !! key)
              = if decide (key ∈ s_youtube_id <$> song :: rest) then Some false
                else m !! key).
    { intros m key. rewrite fmap_cons.
      destruct (decide (key ∈ s_youtube_id <$> rest)) as [Hin|Hin].
      - rewrite decide_True by (by right). reflexivity.
      - destruct (decide (key = s_youtube_id song)) as [->|Hne].
        + rewrite decide_True by left. apply lookup_insert_eq.
        + rewrite decide_False.
          * rewrite !lookup_insert_ne by congruence. reflexivity.
          * intros H. apply elem_of_cons in H as [H|H]; contradiction. }
    destruct (cached w i song).
    + cbn [fst written omap list_omap deliver]. rewrite Hc. cbn [onmessage closed].
      rewrite Hc.
      edestruct (IH (S i) (c + 1) e db) as (H1 & H2 & H3 & H4); [|split; [exact H1|]].
      { reflexivity || exact Hc. }
      split; [exact H2|]. split; [exact H3|]. intros key. rewrite H4. apply Hkey.
    + destruct (downloadAudio join (s_youtube_id song) (exits w i)) as [filePath|message].
      * cbn [fst written omap list_omap deliver]. rewrite Hc. cbn [onmessage closed].
        rewrite Hc.
        edestruct (IH (S i) (c + 1) e) as (H1 & H2 & H3 & H4); [|split; [exact H1|]].
        { reflexivity || exact Hc. }
        split; [exact H2|]. split; [exact H3|]. intros key. rewrite H4. apply Hkey.
      * cbn [fst written omap list_omap deliver]. rewrite Hc. cbn [onmessage closed].
        rewrite Hc.
        edestruct (IH (S i) c (e + 1) db) as (H1 & H2 & H3 & H4); [|split; [exact H1|]].
        { reflexivity || exact Hc. }
        split; [exact H2|]. split; [exact H3|]. intros key. rewrite H4. apply Hkey.
Qed.

(** X28. The page during a download of the whole playlist, fed the events of
    the stream in order. When the stream has ended the event source is
    closed, the progress display is cleared, the playlist has been fetched
    again once, and nothing is left marked as downloading: not the
    playlist as a whole, and none of its songs, whether their download
    succeeded or failed. Marks of other songs are left alone. One toast
    is shown, an error toast exactly when some download failed. *)
Theorem download_page_settles (w : world) (playlistId : string) (db : tables) (pg0 : page) :
  let run := downloadPlaylistStream join w playlistId db in
  let songs := songs_of playlistId db in
  let pg := deliver currentSongs (written run.1) (downloadStarted currentSongs pg0) in
  closed pg = true ∧ downloadProgress pg = None ∧ refetched pg = S (refetched pg0)
  ∧ downloading pg !! "all" = Some false
  ∧ (∀ s, s ∈ songs → downloading pg !! s_youtube_id s = Some false)
  ∧ (∀ key, key ≠ "all" → key ∉ s_youtube_id <$> songs →
       downloading pg !! key = downloading pg0 !! key)
  ∧ ∃ completed errors message type,
      toasts pg = (toasts pg0 ++ [(message, type)])%list
      ∧ completed + errors = length songs
      ∧ errors = length (failed_ids run.1)
      ∧ type = (if (0 <? errors)%nat then "error" else "success").
Proof.
  cbn zeta. unfold downloadPlaylistStream. cbn [fst].
  set (songs := songs_of playlistId db).
  unfold written. rewrite omap_app. cbn [omap list_omap].
  fold (written (downloadLoop join w (length songs) songs 0 0 0 db).1).
  rewrite download_deliver_app.
  destruct (loop_page w (length songs) songs 0 0 0 db (downloadStarted currentSongs pg0)
              eq_refl) as (Hc & Ht & Hr & Hd).
  destruct (loop_events w (length songs) songs 0 0 0 db)
    as (_ & _ & H3 & H4 & H5 & _).
  set (pg1 := deliver currentSongs _ (downloadStarted currentSongs pg0)) in *.
  cbn [deliver]. rewrite Hc. cbn [onmessage closed downloadProgress refetched downloading toasts].
  split; [reflexivity|]. split; [reflexivity|]. split; [rewrite Hr; reflexivity|].
  split; [apply lookup_insert_eq|]. split; [|split].
  - intros s Hs. destruct (decide (s_youtube_id s = "all")) as [->|Hne];
      [apply lookup_insert_eq|].
    rewrite lookup_insert_ne by congruence. rewrite Hd.
    rewrite decide_True; [reflexivity|]. by apply list_elem_of_fmap_2.
  - intros key Hall Hkey. rewrite lookup_insert_ne by congruence.
    rewrite Hd, decide_False by exact Hkey. cbn [downloadStarted downloading].
    apply lookup_insert_ne. congruence.
  - rewrite Ht. cbn [downloadStarted toasts].
    set (run := downloadLoop join w (length songs) songs 0 0 0 db) in *.
    assert (Hfailed : failed_ids (run.1 ++ [Write (ev_done run.2.1.1 run.2.1.2 (length songs));
                                            End]) = failed_ids run.1).
    { unfold failed_ids. rewrite omap_app. cbn. apply app_nil_r. }
    rewrite Hfailed.
    destruct (0 <? run.2.1.2)%nat eqn:E.
    + eexists run.2.1.1, run.2.1.2, _, _. split; [reflexivity|].
      rewrite E. split; [|split; [|reflexivity]]; [rewrite H3, H4; cbn; exact H5|].
      rewrite H4. reflexivity.
    + eexists run.2.1.1, run.2.1.2, _, _. split; [reflexivity|].
      rewrite E. split; [|split; [|reflexivity]]; [rewrite H3, H4; cbn; exact H5|].
      rewrite H4. reflexivity.
Qed.
End PageProperties.
End DownloadProperties.

(** ** Export *)

Section ExportProperties.
Import Library Exports.
Variables (sanitizeFilename extname : string → string).
Variables (joinExports : string → string) (join : string → string → string).
Variable existsSync : string → bool.

Lemma digits_no_space (d : Decimal.uint) (r : string) :
  before_space (NilEmpty.string_of_uint d +:+ " " +:+ r) = NilEmpty.string_of_uint d.
Proof.
  induction d as [|d IH|d IH|d IH|d IH|d IH|d IH|d IH|d IH|d IH|d IH];
    [reflexivity|..];
    cbn [NilEmpty.string_of_uint];
    match goal with |- context [String ?c ?s +:+ ?t] =>
      change (String c s +:+ t) with (String c (s +:+ t)) end;
    cbn [before_space Ascii.eqb Bool.eqb]; rewrite IH; reflexivity.
Qed.

Lemma String_of_nat_no_space (n : nat) (r : string) :
  before_space (String_of_nat n +:+ " " +:+ r) = String_of_nat n.
Proof.
  unfold String_of_nat, NilZero.string_of_uint.
  destruct (Nat.to_uint n) eqn:E; try apply digits_no_space. reflexivity.
Qed.

Lemma zeros_no_space (k : nat) (s r : string) :
  before_space (s +:+ r) = s → before_space ((zeros k +:+ s) +:+ r) = zeros k +:+ s.
Proof.
  intros Hs. induction k as [|k IH]; [exact Hs|].
  change ((zeros (S k) +:+ s) +:+ r) with (String "0"%char ((zeros k +:+ s) +:+ r)).
  change (zeros (S k) +:+ s) with (String "0"%char (zeros k +:+ s)).
  cbn [before_space Ascii.eqb Bool.eqb]. rewrite IH. reflexivity.
Qed.

Lemma String_of_Z_nat (n : nat) : String_of_Z (Z.of_nat n) = String_of_nat n.
Proof.
  unfold String_of_Z. rewrite Nat2Z.id.
  pose proof (Nat2Z.is_nonneg n). destruct (Z.of_nat n); try reflexivity. lia.
Qed.

(** The file name of the song at position [m] starts with the numeral of
    [m + 1]. *)
Lemma track_of_newFilename (m : nat) (title p : string) :
  track_of (newFilename sanitizeFilename extname (Z.of_nat m) title p) = Some (S m).
Proof.
  unfold track_of, newFilename. cbn zeta.
  replace (Z.of_nat m + 1)%Z with (Z.of_nat (S m)) by lia.
  rewrite String_of_Z_nat. unfold padStart0.
  rewrite zeros_no_space.
  - apply key_index_padStart.
  - change (" - " +:+ sanitizeFilename title +:+ extname p)
      with (" " +:+ ("- " +:+ sanitizeFilename title +:+ extname p)).
    apply String_of_nat_no_space.
Qed.

Lemma copyLoop_cons folder song position id rest p :
  s_file_path song = Some p →
  copyLoop sanitizeFilename extname join folder ((song, position, id) :: rest)
  = let name := newFilename sanitizeFilename extname position (s_title song) p in
    let next := copyLoop sanitizeFilename extname join folder rest in
    (CopyFileSync p (join folder name) :: next.1,
     match next.2 with
     | Returned copied => Returned ((s_title song, name) :: copied)
     | Thrown message => Thrown message
     end).
Proof.
  intros Hp. cbn [copyLoop]. rewrite Hp. cbn zeta.
  destruct (copyLoop sanitizeFilename extname join folder rest) as [eff [copied|message]];
    unfold mbind, prog_bind, perform, mret, prog_ret; cbn; rewrite ?app_nil_r; reflexivity.
Qed.

Lemma copyLoop_numbered folder (songs : list (song_row * Z * string)) (k : nat) :
  (λ row, row.1.2) <$> songs = Z.of_nat <$> seq k (length songs) →
  notDownloaded existsSync songs = [] →
  let run := copyLoop sanitizeFilename extname join folder songs in
  ∃ copied,
    result run = Returned copied
    ∧ copied.*1 = (λ row, s_title row.1.1) <$> songs
    ∧ copies (effects run)
      = zip (omap (λ row, s_file_path row.1.1) songs) (join folder <$> copied.*2)
    ∧ length (effects run) = length songs
    ∧ ∀ j name, copied.*2 !! j = Some name → track_of name = Some (k + j + 1).
Proof.
  cbn zeta. revert k. induction songs as [|[[song position] id] rest IH]; intros k Hpos Hnd.
  - exists []. cbn. repeat split; auto. intros j name H. discriminate.
  - cbn [fmap list_fmap length seq] in Hpos. injection Hpos as Hp0 Hrest.
    cbn [fst snd] in Hp0.
    assert (Hfile : ∃ p, s_file_path song = Some p).
    { destruct (s_file_path song) as [p|] eqn:E; [eauto|exfalso].
      eapply (filter_nil_not_elem_of _ _ _ Hnd); [|left]. cbn. rewrite E. reflexivity. }
    destruct Hfile as [p Hfile].
    assert (Hnd' : notDownloaded existsSync rest = []).
    { unfold notDownloaded in *. rewrite filter_cons in Hnd.
      destruct (decide _); [discriminate|exact Hnd]. }
    destruct (IH (S k) Hrest Hnd') as (copied & H1 & H2 & H3 & H4 & H5).
    rewrite (copyLoop_cons _ _ _ _ _ _ Hfile). cbn zeta. unfold result, effects in *.
    cbn [fst snd]. rewrite H1.
    eexists. split; [reflexivity|].
    cbn [fmap list_fmap fst snd omap list_omap copies length].
    rewrite Hfile. cbn [zip zip_with]. fold (copies (copyLoop sanitizeFilename extname join folder rest).1).
    split; [f_equal; exact H2|]. split; [f_equal; exact H3|]. split; [f_equal; exact H4|].
    intros [|j] name Hj; cbn in Hj.
    + injection Hj as <-. subst position. rewrite track_of_newFilename. f_equal. lia.
    + rewrite (H5 j name Hj). f_equal. lia.
Qed.

(** X29. Export of a playlist listed with positions 0, 1, ..., n - 1 whose
    songs are all on disk: every song is copied once, in listing order, to
    a file whose name starts with the two-digit (or longer) numeral of its
    place in the playlist, counted from 1; so the exported names are
    pairwise distinct and no copy overwrites another. A missing playlist
    is answered 404 and a playlist with songs that are not downloaded 400,
    both without touching the disk. *)
Theorem export_numbering (playlistId : string) (db : tables) :
  let run := exportPlaylist sanitizeFilename extname joinExports join existsSync
               playlistId db in
  let songs := joined playlistId db in
  (playlist_by_id playlistId db = None →
     run = ([], Returned (Failed 404 "Playlist not found" None)))
  ∧ (notDownloaded existsSync songs ≠ [] → copies (effects run) = [] ∧ effects run = [])
  ∧ (∀ playlist,
       playlist_by_id playlistId db = Some playlist →
       notDownloaded existsSync songs = [] →
       (λ row, row.1.2) <$> songs = Z.of_nat <$> seq 0 (length songs) →
       ∃ files,
         result run = Returned (Exported (p_name playlist)
                                  (joinExports (sanitizeFilename (p_name playlist)))
                                  files (length songs))
         ∧ files.*1 = (λ row, s_title row.1.1) <$> songs
         ∧ copies (effects run)
           = zip (omap (λ row, s_file_path row.1.1) songs)
               (join (joinExports (sanitizeFilename (p_name playlist))) <$> files.*2)
         ∧ (∀ j name, files.*2 !! j = Some name → track_of name = Some (j + 1))
         ∧ NoDup files.*2).
Proof.
  cbn zeta. unfold exportPlaylist. split; [|split].
  - intros ->. reflexivity.
  - intros Hm. destruct (playlist_by_id playlistId db); [|split; reflexivity].
    destruct (notDownloaded existsSync (joined playlistId db)); [contradiction|].
    split; reflexivity.
  - intros playlist -> Hnd Hpos. rewrite Hnd. cbn [length Nat.ltb Nat.leb].
    destruct (copyLoop_numbered (joinExports (sanitizeFilename (p_name playlist)))
                (joined playlistId db) 0 Hpos Hnd) as (copied & H1 & H2 & H3 & H4 & H5).
    unfold result, effects in *.
    destruct (copyLoop sanitizeFilename extname join _ (joined playlistId db))
      as [eff res]. cbn [fst snd] in *. subst res.
    assert (Hlen : length copied = length (joined playlistId db)).
    { rewrite <- (length_fmap fst copied), H2, length_fmap. reflexivity. }
    exists copied.
    destruct (existsSync (joinExports (sanitizeFilename (p_name playlist)))); cbn;
      rewrite Hlen, app_nil_r; (split; [reflexivity|]); (split; [exact H2|]);
      (split; [exact H3|]); (split; [exact H5|]);
      apply NoDup_alt; intros i j name Hi Hj;
      pose proof (H5 _ _ Hi) as Ti; pose proof (H5 _ _ Hj) as Tj;
      rewrite Ti in Tj; injection Tj; lia.
Qed.
End ExportProperties.

(** ** File names *)

Section SanitizeProperties.
Import Sanitize.

Lemma space_not_illegal : is_illegal 32 = false ∧ is_space 32 = true.
Proof. split; reflexivity. Qed.

Lemma collapse_spec (b : bool) (s : jsstring) :
  Forall (λ c, is_illegal c = false) s →
  let r := collapse b s in
  Forall (λ c, is_illegal c = false) r
  ∧ Forall (λ c, is_space c = true → c = 32%N) r
  ∧ single_spaced r
  ∧ (b = true → ∀ c, head r = Some c → is_space c = false)
  ∧ (length r ≤ length s)%nat.
Proof.
  cbn zeta. revert b. induction s as [|c s IH]; intros b Hs.
  - cbn. repeat split; auto. intros _ c H. discriminate.
  - apply Forall_cons in Hs as [Hc Hs]. cbn [collapse].
    destruct (is_space c) eqn:Ec.
    + destruct (IH true Hs) as (H1 & H2 & H3 & H4 & H5). destruct b.
      * repeat split; auto. cbn. lia.
      * split; [constructor; [reflexivity|exact H1]|].
        split; [constructor; [reflexivity|exact H2]|].
        split; [|split; [discriminate|cbn; lia]].
        cbn [single_spaced]. split; [|exact H3].
        destruct (collapse true s) as [|d r] eqn:Er; [exact I|].
        intros [_ Hd]. rewrite (H4 eq_refl d eq_refl) in Hd. discriminate.
    + destruct (IH false Hs) as (H1 & H2 & H3 & H4 & H5).
      split; [constructor; [exact Hc|exact H1]|].
      split; [constructor; [rewrite Ec; discriminate|exact H2]|].
      split; [|split; [|cbn; lia]].
      * cbn [single_spaced]. split; [|exact H3].
        destruct (collapse false s); [exact I|]. intros [E _]. congruence.
      * intros _ d Hd. injection Hd as <-. exact Ec.
Qed.

Lemma single_spaced_drop (k : nat) (s : jsstring) : single_spaced s → single_spaced (drop k s).
Proof.
  revert s. induction k as [|k IH]; intros s Hs; [exact Hs|].
  destruct s as [|c s]; [exact I|]. cbn [drop]. apply IH. apply Hs.
Qed.

Lemma single_spaced_take (k : nat) (s : jsstring) : single_spaced s → single_spaced (take k s).
Proof.
  revert s. induction k as [|k IH]; intros s Hs; [exact I|].
  destruct s as [|c s]; [exact I|]. cbn [take]. destruct Hs as [Hc Hs].
  cbn [single_spaced]. split; [|apply IH, Hs].
  destruct k, s; cbn; auto.
Qed.

Lemma trimStart_drop (s : jsstring) :
  ∃ k, trimStart s = drop k s ∧ ∀ c, head (trimStart s) = Some c → is_space c = false.
Proof.
  induction s as [|c s (k & Hk & Hh)]; [exists 0; split; [reflexivity|discriminate]|].
  cbn [trimStart]. destruct (is_space c) eqn:Ec.
  - exists (S k). split; [exact Hk|exact Hh].
  - exists 0. split; [reflexivity|]. intros d H. injection H as <-. exact Ec.
Qed.

Lemma trimEnd_take (s : jsstring) :
  ∃ k, trimEnd s = take k s
       ∧ (∀ c, last (trimEnd s) = Some c → is_space c = false)
       ∧ (Forall (λ c, is_space c = false) s → trimEnd s = s).
Proof.
  induction s as [|c s (k & Hk & Hl & Hid)].
  - exists 0. split; [reflexivity|]. split; [discriminate|reflexivity].
  - cbn [trimEnd]. destruct (trimEnd s) as [|d r] eqn:Er.
    + destruct (is_space c) eqn:Ec.
      * exists 0. split; [reflexivity|]. split; [discriminate|].
        intros H. apply Forall_cons in H as [H _]. congruence.
      * exists 1. split; [destruct s; reflexivity|].
        split; [intros x H; injection H as <-; exact Ec|].
        intros H. apply Forall_cons in H as [_ H]. rewrite <- (Hid H). reflexivity.
    + exists (S k). split; [cbn; rewrite Hk; reflexivity|]. split.
      * intros x H. rewrite last_cons in H.
        destruct (last (d :: r)) as [y|] eqn:Ey.
        -- injection H as <-. apply Hl. reflexivity.
        -- assert (Hs : is_Some (last (d :: r))) by (apply last_is_Some; discriminate).
           rewrite Ey in Hs. destruct Hs as [? Hs]. discriminate.
      * intros H. apply Forall_cons in H as [_ H]. rewrite (Hid H). reflexivity.
Qed.

(** X30. What comes out of [sanitizeFilename]: at most 100 code units, and no
    more than went in; none of the characters that are illegal in file
    names; no white space other than single U+0020 spaces, never two in a
    row and never in front; apart from a name cut at 100 code units, none
    at the end either. A name of at most 100 code units without
    illegal characters and white space is returned as it is. *)
Theorem sanitized_names (name : jsstring) :
  let out := sanitizeFilename name in
  (length out ≤ 100)%nat ∧ (length out ≤ length name)%nat
  ∧ Forall (λ c, is_illegal c = false) out
  ∧ Forall (λ c, is_space c = true → c = 32%N) out
  ∧ single_spaced out
  ∧ (∀ c, head out = Some c → is_space c = false)
  ∧ ((length out < 100)%nat → ∀ c, last out = Some c → is_space c = false)
  ∧ (Forall (λ c, is_illegal c = false ∧ is_space c = false) name →
     (length name ≤ 100)%nat →
       out = name).
Proof.
  cbn zeta. unfold sanitizeFilename, trim.
  set (kept := filter (λ c, is_illegal c = false) name).
  assert (Hkept : Forall (λ c, is_illegal c = false) kept).
  { apply Forall_forall. intros c Hc. apply list_elem_of_filter in Hc as [Hc _]. exact Hc. }
  destruct (collapse_spec false kept Hkept) as (C1 & C2 & C3 & _ & C5).
  set (one := collapse false kept) in *.
  destruct (trimStart_drop one) as (k1 & Hk1 & Hhead).
  destruct (trimEnd_take (trimStart one)) as (k2 & Hk2 & Hlast & _).
  assert (Hsub : take 100 (trimEnd (trimStart one)) `sublist_of` one).
  { rewrite Hk2, Hk1. etrans; [apply sublist_take|]. etrans; [apply sublist_take|].
    apply sublist_drop. }
  split; [rewrite length_take; lia|]. split.
  { etrans; [apply sublist_length, Hsub|]. etrans; [exact C5|]. apply length_filter. }
  assert (Hall : ∀ P : N → Prop, Forall P one →
                   Forall P (take 100 (trimEnd (trimStart one)))).
  { intros P HP. apply Forall_forall. intros c Hc. rewrite Forall_forall in HP.
    apply HP. eapply elem_of_sublist; eauto. }
  split; [apply Hall, C1|]. split; [apply Hall, C2|].
  split; [rewrite Hk2, Hk1; apply single_spaced_take, single_spaced_take,
            single_spaced_drop, C3|].
  split.
  { intros c Hc. apply Hhead. rewrite Hk2 in Hc.
    destruct (trimStart one) as [|x r]; [destruct k2; discriminate|].
    destruct k2; [discriminate|]. exact Hc. }
  split.
  { intros Hlt c Hc. apply Hlast.
    rewrite take_ge in Hc; [exact Hc|]. rewrite length_take in Hlt. lia. }
  intros Hname Hlen.
  assert (Hk : kept = name).
  { unfold kept, jsstring. clear -Hname.
    induction Hname as [|c s [Hc _] _ IH]; [reflexivity|].
    rewrite filter_cons_True by exact Hc. f_equal. exact IH. }
  assert (Hone : one = name).
  { unfold one. rewrite Hk. clear -Hname.
    induction Hname as [|c s [_ Hc] _ IH]; [reflexivity|].
    cbn [collapse]. rewrite Hc. f_equal. exact IH. }
  rewrite Hone.
  assert (Hts : trimStart name = name).
  { destruct Hname as [|c s [_ Hc] _]; [reflexivity|]. cbn. rewrite Hc. reflexivity. }
  rewrite Hts.
  destruct (trimEnd_take name) as (_ & _ & _ & Hid).
  rewrite Hid by (eapply Forall_impl; [exact Hname|]; intros c [_ H]; exact H).
  apply take_ge. exact Hlen.
Qed.
End SanitizeProperties.

(** ** The further properties on the sample runs *)

Section FurtherSamples.
Import Credentials Publish DeviceAuth Client Routes StreamTrace Browser Examples.

Lemma device_code_adds_one_session_witness :
  (postPoll sub_of (Some "device-1") Pending code_issued).2
  = [PollForDeviceToken "device-1" (5 * 1000)%Q].
Proof.
  exact (proj1 (proj2 (proj2 (proj2
           (device_code_adds_one_session sub_of 0 issued no_sessions)))) eq_refl Pending).
Defined.

Lemma login_then_logout_witness :
  let st' := (postPoll sub_of (Some "device-1") (Success "access" "refresh") code_issued).1.2 in
  getAuthStatus (cred_store st')
    = {| configured := true; hasToken := true; hasRefreshToken := true |}
  ∧ getAuthStatus (clearCredentials (cred_store st'))
    = {| configured := false; hasToken := false; hasRefreshToken := false |}.
Proof.
  destruct (login_then_logout sub_of code_issued "device-1"
              {| createdAt := 0; expiresIn := 300; interval := (5 * 1000)%Q |}
              "access" "refresh" eq_refl eq_refl eq_refl eq_refl) as (H1 & _ & H3).
  split; [exact H1 | exact H3].
Defined.

Lemma polling_returns_first_key_witness :
  let polling := Upload.pollTranscoding "upload-1" "access"
                   (Upload.transcoded_result (deduplicated "key-1")) in
  result polling = Returned "key-1"
  ∧ Upload.timeline (effects polling) = Upload.rounds 2 "upload-1" "access".
Proof.
  apply (proj1 (polling_returns_first_key "upload-1" "access"
                  (Upload.transcoded_result (deduplicated "key-1"))) 1 "key-1").
  - lia.
  - intros i Hi. assert (i = 0) as -> by lia. split; reflexivity.
  - reflexivity.
Defined.

Lemma every_song_is_accounted_for_witness :
  let run := uploadPlaylistStream stringify "p1" db (second_fails accepted) in
  started (effects run) = [(1, 3, "one"); (2, 3, "two"); (3, 3, "three")]
  ∧ completed (effects run) = ["one"; "three"]
  ∧ length (reported_failures (effects run)) = 1.
Proof.
  destruct (every_song_is_accounted_for stringify "p1" db (second_fails accepted) creds mix
              [one; two; three] (sample_ready accepted)) as (H1 & H2 & H3 & _).
  split; [|split].
  - rewrite H1. reflexivity.
  - rewrite H2. reflexivity.
  - rewrite H3. reflexivity.
Defined.

Lemma sample_manifest :
  buildContent mix creds (loopTracks creds (second_fails accepted) [one; two; three] 0)
  ∈ manifests (effects (uploadPlaylistStream stringify "p1" db (second_fails accepted))).
Proof. vm_compute. apply list_elem_of_here. Defined.

Lemma chapters_keep_playlist_order_witness :
  let body := buildContent mix creds
                (loopTracks creds (second_fails accepted) [one; two; three] 0) in
  ch_title <$> chapters body `sublist_of` ["one"; "two"; "three"]
  ∧ (0 < length (chapters body) ≤ 3)%nat.
Proof.
  destruct (chapters_keep_playlist_order stringify "p1" db (second_fails accepted) creds mix
              [one; two; three] _ (sample_ready accepted) sample_manifest)
    as (H1 & _ & H3 & _).
  split; [exact H1 | exact H3].
Defined.

Lemma card_id_is_sent_and_kept_witness :
  card_updates (effects (uploadPlaylistStream stringify "p1" db (second_fails accepted)))
  = [("card-9", "p1")].
Proof.
  destruct (card_id_is_sent_and_kept stringify "p1" db (second_fails accepted) creds mix
              [one; two; three] (sample_ready accepted)) as (_ & _ & H3 & _).
  rewrite (H3 _ _ eq_refl eq_refl eq_refl); [reflexivity|].
  vm_compute. discriminate.
Defined.

Lemma requests_need_a_ready_run_witness :
  ∃ creds pl, ready "p1" db (second_fails accepted) creds pl [one; two; three].
Proof.
  destruct (requests_need_a_ready_run stringify "p1" db (second_fails accepted))
    as (c & p & Hr & _).
  - left. vm_compute. discriminate.
  - exists c, p. exact Hr.
Defined.

Lemma chapter_keys_are_the_indexes_witness :
  NoDup (ch_key <$> chapters
           (buildContent mix creds
              (loopTracks creds (second_fails accepted) [one; two; three] 0))).
Proof.
  exact (proj2 (chapter_keys_are_the_indexes stringify "p1" db (second_fails accepted)
                  creds mix [one; two; three] _ (sample_ready accepted) sample_manifest)).
Defined.

Lemma formatDuration_reads_back_witness :
  let shown := formatDuration (Some 125) in
  ∃ m r : nat,
    key_index (before_colon shown) = Some m ∧ key_index (after_colon shown) = Some r
    ∧ String.length (after_colon shown) = 2 ∧ (r < 60)%nat ∧ 60 * m + r = 125.
Proof. apply (proj1 formatDuration_reads_back 125). lia. Defined.

Lemma reorder_moves_one_song_witness :
  ∃ moved : list string,
    reorderSongs 0 2 ["a"; "b"; "c"] = Some <$> moved ∧ moved !! 2 = Some "a".
Proof.
  destruct (reorder_moves_one_song 0 2 ["a"; "b"; "c"] "a" eq_refl)
    as (moved & Hm & _ & _ & Hx & _).
  exists moved. split; [exact Hm | exact Hx].
Defined.

Lemma login_loop_waits_witness :
  let answers := [SlowDown 10000; Pending; Success "access" "refresh"; Pending] in
  (pollYotoLogin sub_of "device-1" 5 answers code_issued).1
  = wait_after 5 <$> [SlowDown 10000; Pending].
Proof.
  exact (proj1 (login_loop_waits sub_of "device-1" 5
                  [SlowDown 10000; Pending; Success "access" "refresh"; Pending]
                  code_issued
                  {| createdAt := 0; expiresIn := 300; interval := (5 * 1000)%Q |}
                  eq_refl eq_refl)).
Defined.

Lemma playlist_route_runs_track_route_witness :
  let w := second_fails accepted in
  let run := uploadPlaylistStream stringify "p1" db w in
  network_calls (effects run)
  = ((UploadRequest <$> mjoin (imap (λ i s, (postUploadTrack (Some s) (Publish.cred_store db)
                                               (existsSync w) (upload_script w i)).2)
                                 [one; two; three]))
     ++ (PostContent "access" <$> manifests (effects run)))%list.
Proof.
  exact (proj1 (playlist_route_runs_track_route stringify "p1" db (second_fails accepted)
                  creds mix [one; two; three] (sample_ready accepted))).
Defined.
End FurtherSamples.

Section LibrarySamples.
Import Library Browser Exports LibraryExamples.

Lemma lib_keyed : keyed lib.
Proof. apply (bool_decide_unpack _). vm_compute. exact I. Defined.

Lemma remove_renumbers_witness :
  let out := removeSong 9 "p1" "s-b" lib in
  out.1 = Sent 204 tt ∧ dense "p1" out.2 ∧ shown "p1" out.2 = ["s-a"; "s-c"].
Proof.
  assert (Hin : "s-b" ∈ shown "p1" lib) by (apply (bool_decide_unpack _); vm_compute; exact I).
  destruct (proj2 (remove_renumbers 9 "p1" "s-b" lib lib_keyed) Hin)
    as (H1 & H2 & _ & H4 & _).
  split; [exact H1|]. split; [exact H2|]. rewrite H4; [reflexivity|].
  apply (bool_decide_unpack _). vm_compute. exact I.
Defined.

Lemma reorder_stores_the_order_witness :
  shown "p1" (reorder 9 "p1" ["s-c"; "s-a"; "s-b"] lib).2 = ["s-c"; "s-a"; "s-b"].
Proof.
  apply (proj1 (proj2 (proj2 (reorder_stores_the_order 9 "p1" ["s-c"; "s-a"; "s-b"] lib)))).
  - apply (bool_decide_unpack _). vm_compute. exact I.
  - change (shown "p1" lib) with (["s-a"; "s-b"] ++ ["s-c"])%list.
    apply Permutation_cons_append.
Defined.

Lemma add_appends_witness :
  let out := addSong 9 "s-d" "e9" "p1" new_song lib in
  shown "p1" out.2 = ["s-a"; "s-b"; "s-c"; "s-d"] ∧ dense "p1" out.2.
Proof.
  destruct (proj2 (add_appends 9 "s-d" "e9" "p1" new_song lib)) as [_ Hadd].
  - eexists. reflexivity.
  - apply (bool_decide_unpack _). vm_compute. exact I.
  - intros _. apply (bool_decide_unpack _). vm_compute. exact I.
  - destruct Hadd as (_ & H2 & _ & H4 & _).
    + apply (bool_decide_unpack _). vm_compute. exact I.
    + split; [rewrite H2; reflexivity|]. apply H4. reflexivity.
Defined.

Lemma drag_is_stored_witness :
  ∃ moved : list string,
    reorderSongs 0 2 ["s-a"; "s-b"; "s-c"] = Some <$> moved
    ∧ shown "p1" (reorder 9 "p1" (unchanged <$> moved) lib).2 = unchanged <$> moved.
Proof.
  destruct (drag_is_stored 9 unchanged "p1" lib ["s-a"; "s-b"; "s-c"] 0 2 "s-a")
    as (moved & H1 & _ & H3 & _).
  - reflexivity.
  - apply (bool_decide_unpack _). vm_compute. exact I.
  - reflexivity.
  - exists moved. split; [exact H1 | exact H3].
Defined.

Lemma export_numbering_witness :
  let run := exportPlaylist unchanged mp3 in_exports in_folder all_on_disk "p1"
               lib_downloaded in
  result run
  = Returned (Exported "Road trip" "/exports/Road trip"
                [("A", "01 - A.mp3"); ("B", "02 - B.mp3"); ("C", "03 - C.mp3")] 3)
  ∧ copies (effects run)
    = [("/dl/yt-a.mp3", "/exports/Road trip/01 - A.mp3");
       ("/dl/yt-b.mp3", "/exports/Road trip/02 - B.mp3");
       ("/dl/yt-c.mp3", "/exports/Road trip/03 - C.mp3")]
  ∧ track_of <$> ["01 - A.mp3"; "02 - B.mp3"; "03 - C.mp3"] = [Some 1; Some 2; Some 3]
  ∧ NoDup ["01 - A.mp3"; "02 - B.mp3"; "03 - C.mp3"].
Proof.
  destruct (proj2 (proj2 (export_numbering unchanged mp3 in_exports in_folder all_on_disk
                            "p1" lib_downloaded))
              (named "p1" "Road trip") eq_refl eq_refl eq_refl)
    as (files & H1 & _ & H3 & H4 & H5).
  assert (Hfiles : files = [("A", "01 - A.mp3"); ("B", "02 - B.mp3"); ("C", "03 - C.mp3")]).
  { vm_compute in H1. injection H1 as <-. reflexivity. }
  subst files. split; [exact H1|]. split; [exact H3|]. split; [|exact H5].
  cbn [fmap list_fmap].
  rewrite (H4 0 "01 - A.mp3" eq_refl), (H4 1 "02 - B.mp3" eq_refl),
    (H4 2 "03 - C.mp3" eq_refl).
  reflexivity.
Defined.
End LibrarySamples.
